(** * util/codec/bytes.go: memcomparable byte codec

    A shallow embedding of the Go source.  Byte slices are modelled as Go
    has them: a slice header (backing array, offset, length, capacity) over
    a store of backing arrays, so that in-place writes, [append] within
    capacity and re-slicing alias exactly as they do in the program. *)

From Stdlib Require Import ZArith NArith Lia.
From Stdlib Require Import Strings.Byte.
From stdpp Require Import base list.

Local Open Scope nat_scope.

(** ** Bytes *)

Abbreviation byte := Byte.byte.

(** Conversion of an integer to [byte]: truncation to the low 8 bits. *)
Definition byte_of_N (n : N) : byte :=
  match Byte.of_N (n mod 256)%N with
  | Some b => b
  | None => x00
  end.

Definition byte_of_nat (n : nat) : byte := byte_of_N (N.of_nat n).

Definition nat_of_byte (b : byte) : nat := N.to_nat (Byte.to_N b).

(** [a - b] on [byte], wrapping modulo 256. *)
Definition byte_sub (a b : byte) : byte :=
  byte_of_N (Byte.to_N a + 256 - Byte.to_N b)%N.

(** [^b] on [byte]. *)
Definition byte_not (b : byte) : byte :=
  byte_of_N (N.lnot (Byte.to_N b) 8).

(** [a > b] on [byte] (unsigned). *)
Definition byte_gtb (a b : byte) : bool := (Byte.to_N b <? Byte.to_N a)%N.

(** [bytes.Compare]: three-way lexicographic comparison of unsigned bytes. *)
Fixpoint bytes_Compare (a b : list byte) : Z :=
  match a, b with
  | [], [] => 0%Z
  | [], _ :: _ => (-1)%Z
  | _ :: _, [] => 1%Z
  | x :: a', y :: b' =>
      match (Byte.to_N x ?= Byte.to_N y)%N with
      | Lt => (-1)%Z
      | Gt => 1%Z
      | Eq => bytes_Compare a' b'
      end
  end.

(** [bytes.Count(s, []byte{c})]: the number of occurrences of [c] in [s]. *)
Fixpoint bytes_Count (s : list byte) (c : byte) : nat :=
  match s with
  | [] => 0
  | x :: s' => (if Byte.eqb x c then 1 else 0) + bytes_Count s' c
  end.

(** ** Machine words ([uintptr]) *)

Inductive goarch := GO386 | GOAMD64 | GOARM | GOARM64 | GOPPC64 | GOPPC64LE.

(** [unsafe.Sizeof(uintptr(0))] *)
Definition sizeof_uintptr (a : goarch) : nat :=
  match a with
  | GO386 | GOARM => 4
  | GOAMD64 | GOARM64 | GOPPC64 | GOPPC64LE => 8
  end.

Definition big_endian (a : goarch) : bool :=
  match a with
  | GOPPC64 => true
  | _ => false
  end.

(** Little-endian value of a byte string, and its inverse on [n] bytes. *)
Fixpoint le_combine (bs : list byte) : N :=
  match bs with
  | [] => 0%N
  | b :: bs' => (Byte.to_N b + 256 * le_combine bs')%N
  end.

Fixpoint le_split (n : nat) (w : N) : list byte :=
  match n with
  | 0 => []
  | S n' => byte_of_N w :: le_split n' (w / 256)%N
  end.

Definition word_of_bytes (a : goarch) (bs : list byte) : N :=
  le_combine (if big_endian a then rev bs else bs).

Definition bytes_of_word (a : goarch) (w : N) : list byte :=
  let bs := le_split (sizeof_uintptr a) w in
  if big_endian a then rev bs else bs.

(** [^w] on [uintptr]. *)
Definition word_not (a : goarch) (w : N) : N :=
  N.lnot w (N.of_nat (8 * sizeof_uintptr a)).

(** [int(n)] for [n : int64]: two's complement truncation to the width of
    [int], which is the width of [uintptr]. *)
Definition int_of_int64 (a : goarch) (n : Z) : Z :=
  let m := (2 ^ Z.of_nat (8 * sizeof_uintptr a))%Z in
  ((n + m / 2) mod m - m / 2)%Z.

(** ** Store of backing arrays and slice headers *)

Abbreviation heap := (list (list byte)).

Record slice := mkSlice { ptr : nat; off : nat; len : nat; cap : nat }.

(** The [nil] slice. *)
Definition nil_slice : slice := mkSlice 0 0 0 0.

(** The backing array with identifier [p]. *)
Definition mem (h : heap) (p : nat) : list byte := default [] (h !! p).

(** The bytes visible through a slice, [s[0:len(s)]]. *)
Definition bytes (h : heap) (s : slice) : list byte :=
  take (len s) (drop (off s) (mem h (ptr s))).

(** Overwrite [length xs] bytes of array [p] starting at index [i]. *)
Definition poke (h : heap) (p i : nat) (xs : list byte) : heap :=
  <[p := take i (mem h p) ++ xs ++ drop (i + length xs) (mem h p)]> h.

(** A slice header is well formed in a store when its capacity window lies
    inside its backing array.  The [nil] slice is well formed everywhere. *)
Definition wf (h : heap) (s : slice) : Prop :=
  len s <= cap s /\ off s + cap s <= length (mem h (ptr s)).

(** ** Computations over the store

    A call either returns a value and a store, or ends in a run-time panic.
    [Timeout] is the answer of a loop model that was given too little fuel;
    the program never returns it on a well-formed buffer (lemmas
    [EncodeBytes_returns] and [decodeBytes_spec]). *)

Inductive outcome (A : Type) : Type :=
| Done (a : A) (h : heap)
| Panic
| Timeout.
Arguments Done {A} a h.
Arguments Panic {A}.
Arguments Timeout {A}.

Definition Go (A : Type) : Type := heap -> outcome A.

Definition ret {A} (a : A) : Go A := fun h => Done a h.

Definition bind {A B} (m : Go A) (k : A -> Go B) : Go B :=
  fun h =>
    match m h with
    | Done a h' => k a h'
    | Panic => Panic
    | Timeout => Timeout
    end.

Definition panic {A} : Go A := fun _ => Panic.
Definition timeout {A} : Go A := fun _ => Timeout.

Notation "x <- m ;; k" := (bind m (fun x => k))
  (at level 100, m at next level, right associativity).
Notation "m ;;; k" := (bind m (fun _ => k))
  (at level 100, right associativity).

(** *** Slice primitives of the language *)

(** [b[i]] *)
Definition index (b : slice) (i : nat) : Go byte :=
  fun h =>
    if i <? len b then Done (nth (off b + i) (mem h (ptr b)) x00) h
    else Panic.

(** [b[i] = v] *)
Definition assign (b : slice) (i : nat) (v : byte) : Go unit :=
  fun h =>
    if i <? len b then Done tt (poke h (ptr b) (off b + i) [v])
    else Panic.

(** [b[lo:hi]]: bounds are checked against the capacity. *)
Definition reslice (b : slice) (lo hi : nat) : Go slice :=
  if (lo <=? hi) && (hi <=? cap b)
  then ret (mkSlice (ptr b) (off b + lo) (hi - lo) (cap b - lo))
  else panic.

(** [b[lo:hi]] with [int64] operands: a negative operand panics. *)
Definition reslice_int (b : slice) (lo hi : Z) : Go slice :=
  if ((0 <=? lo) && (0 <=? hi))%Z
  then reslice b (Z.to_nat lo) (Z.to_nat hi)
  else panic.

(** The bytes of [b], read as the operand of [append(_, b...)] or as the
    source of [copy]. *)
Definition contents (b : slice) : Go (list byte) :=
  fun h => Done (bytes h b) h.

(** [make([]byte, l, c)]: a fresh zeroed array. *)
Definition make (l c : nat) : Go slice :=
  fun h =>
    if l <=? c then Done (mkSlice (length h) 0 l c) (h ++ [replicate c x00])
    else Panic.

(** [make([]byte, n)] with [n : int]: a negative length panics. *)
Definition make_int (n : Z) : Go slice :=
  if (n <? 0)%Z then panic else make (Z.to_nat n) (Z.to_nat n).

(** [copy(dst, src)] *)
Definition copy (dst : slice) (src : list byte) : Go nat :=
  fun h =>
    let n := Nat.min (len dst) (length src) in
    Done n (poke h (ptr dst) (off dst) (take n src)).

(** The run-time system: the build target, and the spare capacity that
    [append] adds when it has to grow a slice of capacity [c] to hold [n]
    bytes.  The language fixes only that the new capacity is at least [n]. *)
Record runtime := mkRuntime { GOARCH : goarch; growslack : nat -> nat -> nat }.

Section Codec.

Context (rt : runtime).

(** [append(b, xs...)]: in place when the capacity suffices, otherwise into
    a fresh array that receives the old contents first. *)
Definition append (b : slice) (xs : list byte) : Go slice :=
  fun h =>
    let n := len b + length xs in
    if n <=? cap b
    then Done (mkSlice (ptr b) (off b) n (cap b))
              (poke h (ptr b) (off b + len b) xs)
    else
      let k := growslack rt (cap b) n in
      Done (mkSlice (length h) 0 n (n + k))
           (h ++ [bytes h b ++ xs ++ replicate k x00]).

(** [bw[i]] and [bw[i] = w], where [bw] is the header of [b] reinterpreted
    through [unsafe.Pointer] as a slice of [uintptr]:
    the reinterpreted header keeps the length field of [b], so the bounds
    check compares [i] with [len b]; the access itself covers the
    [sizeof_uintptr] bytes at byte offset [i * sizeof_uintptr].  An access
    that leaves the backing array is a fault.  Alignment is not modelled:
    the program takes this path only on the targets that support unaligned
    word access. *)
Definition index_word (b : slice) (i : nat) : Go N :=
  fun h =>
    let ws := sizeof_uintptr (GOARCH rt) in
    let a := off b + i * ws in
    if (i <? len b) && (a + ws <=? length (mem h (ptr b)))
    then Done (word_of_bytes (GOARCH rt) (take ws (drop a (mem h (ptr b))))) h
    else Panic.

Definition assign_word (b : slice) (i : nat) (w : N) : Go unit :=
  fun h =>
    let ws := sizeof_uintptr (GOARCH rt) in
    let a := off b + i * ws in
    if (i <? len b) && (a + ws <=? length (mem h (ptr b)))
    then Done tt (poke h (ptr b) a (bytes_of_word (GOARCH rt) w))
    else Panic.

(** [for i := lo; i < hi; i++ { body i }] *)
Fixpoint for_range (lo n : nat) (body : nat -> Go unit) : Go unit :=
  match n with
  | 0 => ret tt
  | S n' => body lo ;;; for_range (S lo) n' body
  end.

(** ** The program *)

Definition encGroupSize : nat := 8.
Definition encMarker : byte := xff.
Definition encPad : byte := x00.

Inductive error :=
| ErrInsufficientBytes
| ErrInvalidMarker (groupBytes : list byte)
| ErrInvalidPadding (groupBytes : list byte)
| ErrInsufficientLength (n : Z)
| ErrExternal (code : nat)
| ErrTrace (e : error).

Definition wordSize : nat := sizeof_uintptr (GOARCH rt).

Definition supportsUnaligned : bool :=
  match GOARCH rt with
  | GO386 | GOAMD64 => true
  | _ => false
  end.

Definition fastReverseBytes (b : slice) : Go unit :=
  let n := len b in
  let w := n / wordSize in
  (if 0 <? w
   then for_range 0 w (fun i =>
          x <- index_word b i ;;
          assign_word b i (word_not (GOARCH rt) x))
   else ret tt) ;;;
  for_range (w * wordSize) (n - w * wordSize) (fun i =>
    x <- index b i ;;
    assign b i (byte_not x)).

Definition safeReverseBytes (b : slice) : Go unit :=
  for_range 0 (len b) (fun i =>
    x <- index b i ;;
    assign b i (byte_not x)).

Definition reverseBytes (b : slice) : Go unit :=
  if supportsUnaligned then fastReverseBytes b else safeReverseBytes b.

Definition reallocBytes (b : slice) (n : nat) : Go slice :=
  if cap b <? n then
    bs <- make (len b) (len b + n) ;;
    src <- contents b ;;
    copy bs src ;;;
    ret bs
  else ret b.

(** The loop of [EncodeBytes], from the test [idx <= dLen] on.  [data] is a
    slice: every round reads [data[idx:...]] from the store as it is then,
    after the writes of the rounds before it. *)
Fixpoint EncodeBytes_loop (fuel : nat) (data : slice) (idx : nat)
    (result : slice) : Go slice :=
  let dLen := len data in
  if idx <=? dLen then
    match fuel with
    | 0 => timeout
    | S fuel' =>
        let remain := dLen - idx in
        let padCount :=
          if encGroupSize <=? remain then 0 else encGroupSize - remain in
        result <-
          (if encGroupSize <=? remain then
             src <- reslice data idx (idx + encGroupSize) ;;
             xs <- contents src ;;
             append result xs
           else
             src <- reslice data idx (len data) ;;
             xs <- contents src ;;
             result <- append result xs ;;
             append result (replicate padCount x00)) ;;
        let marker := byte_sub encMarker (byte_of_nat padCount) in
        result <- append result [marker] ;;
        EncodeBytes_loop fuel' data (idx + encGroupSize) result
    end
  else ret result.

Definition EncodeBytes (b data : slice) : Go slice :=
  let dLen := len data in
  let reallocSize := (dLen / encGroupSize + 1) * (encGroupSize + 1) in
  result <- reallocBytes b reallocSize ;;
  EncodeBytes_loop (S dLen) data 0 result.

(** The [for] loop of [decodeBytes]. *)
Fixpoint decodeBytes_loop (fuel : nat) (reverse : bool) (b data : slice)
    : Go (error + slice * slice) :=
  match fuel with
  | 0 => timeout
  | S fuel' =>
      if len b <? encGroupSize + 1 then ret (inl ErrInsufficientBytes)
      else
        groupBytes <- reslice b 0 (encGroupSize + 1) ;;
        (if reverse then reverseBytes groupBytes else ret tt) ;;;
        group <- reslice groupBytes 0 encGroupSize ;;
        marker <- index groupBytes encGroupSize ;;
        let padCount := byte_sub encMarker marker in
        let realGroupSize := byte_sub (byte_of_nat encGroupSize) padCount in
        if byte_gtb padCount (byte_of_nat encGroupSize) then
          q <- contents groupBytes ;;
          ret (inl (ErrInvalidMarker q))
        else
          chunk <- reslice group 0 (nat_of_byte realGroupSize) ;;
          xs <- contents chunk ;;
          data <- append data xs ;;
          b <- reslice b (encGroupSize + 1) (len b) ;;
          if negb (Byte.eqb marker encMarker) then
            padding <- reslice group (nat_of_byte realGroupSize) (len group) ;;
            ps <- contents padding ;;
            if negb (bytes_Count ps encPad =? nat_of_byte padCount) then
              q <- contents groupBytes ;;
              ret (inl (ErrInvalidPadding q))
            else ret (inr (b, data))
          else decodeBytes_loop fuel' reverse b data
  end.

Definition decodeBytes (b : slice) (reverse : bool)
    : Go (error + slice * slice) :=
  data <- make 0 (len b) ;;
  decodeBytes_loop (S (len b)) reverse b data.

Definition DecodeBytes (b : slice) : Go (error + slice * slice) :=
  decodeBytes b false.

Definition EncodeBytesDesc (b data : slice) : Go slice :=
  let n := len b in
  b <- EncodeBytes b data ;;
  tail <- reslice b n (len b) ;;
  reverseBytes tail ;;;
  ret b.

Definition DecodeBytesDesc (b : slice) : Go (error + slice * slice) :=
  decodeBytes b true.

(** [EncodeVarint] and [DecodeVarint] live in another file of the package;
    they are taken as parameters. *)
Context (EncodeVarint : slice -> Z -> Go slice).
Context (DecodeVarint : slice -> Go (error + slice * Z)).


Definition DecodeCompactBytes (b : slice) : Go (error + slice * slice) :=
  r <- DecodeVarint b ;;
  match r with
  | inl err => ret (inl (ErrTrace err))
  | inr (b, n) =>
      if (Z.of_nat (len b) <? n)%Z then ret (inl (ErrInsufficientLength n))
      else
        data <- make_int (int_of_int64 (GOARCH rt) n) ;;
        src <- reslice_int b 0 n ;;
        xs <- contents src ;;
        copy data xs ;;;
        rest <- reslice_int b n (Z.of_nat (len b)) ;;
        ret (inr (rest, data))
  end.

End Codec.

(** ** The encoder on bytes held apart

    A device of the proofs, which no statement about the program uses:
    [EncodeBytes_of b d] is [EncodeBytes] run on data whose bytes [d] no
    write of the call can reach, so the rounds of the loop read [d] itself
    where the program reads [data[idx:...]] from the store.  The program
    agrees with it when the data does not lie in the spare capacity of [b]
    (lemma [EncodeBytes_apart]), and may differ from it otherwise;
    [EncodeBytesDesc_of] likewise. *)

Section CodecApart.

Context (rt : runtime).

Fixpoint EncodeBytes_of_loop (fuel : nat) (d : list byte) (idx : nat)
    (result : slice) : Go slice :=
  let dLen := length d in
  if idx <=? dLen then
    match fuel with
    | 0 => timeout
    | S fuel' =>
        let remain := dLen - idx in
        let padCount :=
          if encGroupSize <=? remain then 0 else encGroupSize - remain in
        result <-
          (if encGroupSize <=? remain then
             append rt result (take encGroupSize (drop idx d))
           else
             result <- append rt result (drop idx d) ;;
             append rt result (replicate padCount x00)) ;;
        let marker := byte_sub encMarker (byte_of_nat padCount) in
        result <- append rt result [marker] ;;
        EncodeBytes_of_loop fuel' d (idx + encGroupSize) result
    end
  else ret result.

Definition EncodeBytes_of (b : slice) (d : list byte) : Go slice :=
  let dLen := length d in
  let reallocSize := (dLen / encGroupSize + 1) * (encGroupSize + 1) in
  result <- reallocBytes b reallocSize ;;
  EncodeBytes_of_loop (S dLen) d 0 result.

Definition EncodeBytesDesc_of (b : slice) (d : list byte) : Go slice :=
  let n := len b in
  b <- EncodeBytes_of b d ;;
  tail <- reslice b n (len b) ;;
  reverseBytes rt tail ;;;
  ret b.

End CodecApart.

(** [apart data b]: the bytes of [data] do not lie in the spare capacity
    [b[len(b):cap(b)]] of [b], the only bytes of the store that an [append]
    to [b] writes. *)
Definition apart (data b : slice) : Prop :=
  len data = 0 \/ len b = cap b \/ ptr data <> ptr b \/
  off data + len data <= off b + len b \/ off b + cap b <= off data.

(** ** Descriptions of stores and encodings used in the statements *)

(** The store [h] after the first [k] bytes seen through [s] were replaced
    by their complements. *)
Definition complemented (h : heap) (s : slice) (k : nat) : heap :=
  poke h (ptr s) (off s) (map byte_not (take k (bytes h s))).

(** A build target used to run the program on concrete inputs: its
    [append] doubles the required size when it has to grow a slice. *)
Definition rt_amd64 : runtime := mkRuntime GOAMD64 (fun _ n => n).

(** [frame h b h']: from [h] to [h'] arrays were only added, and every byte
    that existed in [h] is unchanged, except possibly in the spare capacity
    [b[len(b):cap(b)]] of the slice [b]. *)
Definition frame (h : heap) (b : slice) (h' : heap) : Prop :=
  length h <= length h' /\
  forall p, p < length h ->
    length (mem h' p) = length (mem h p) /\
    forall i, p <> ptr b \/ i < off b + len b \/ off b + cap b <= i ->
      mem h' p !! i = mem h p !! i.

(** [grows h b xs h' b']: the slice [b'] of [h'] holds the bytes of [b] in
    [h] followed by [xs]; it is either [b] extended in place or a slice of
    an array that did not exist in [h]; the rest of [h] is framed. *)
Definition grows (h : heap) (b : slice) (xs : list byte)
    (h' : heap) (b' : slice) : Prop :=
  wf h' b' /\
  len b' = len b + length xs /\
  bytes h' b' = bytes h b ++ xs /\
  frame h b h' /\
  ((ptr b' = ptr b /\ off b' = off b /\ cap b' = cap b) \/
   length h <= ptr b').

(** [encoded d e]: [e] is the group encoding of [d], that is full groups of
    eight bytes of [d], each followed by the marker 255, and a last group of
    the remaining bytes padded with zeros and followed by 255 minus the
    number of pad bytes. *)
Inductive encoded : list byte -> list byte -> Prop :=
| encoded_last (d : list byte) :
    length d < encGroupSize ->
    encoded d
      (d ++ replicate (encGroupSize - length d) encPad
         ++ [byte_sub encMarker (byte_of_nat (encGroupSize - length d))])
| encoded_more (g d e : list byte) :
    length g = encGroupSize ->
    encoded d e ->
    encoded (g ++ d) (g ++ [encMarker] ++ e).

(** Lexicographic order of byte strings as a [comparison]. *)
Fixpoint lex (a b : list byte) : comparison :=
  match a, b with
  | [], [] => Eq
  | [], _ :: _ => Lt
  | _ :: _, [] => Gt
  | x :: a', y :: b' =>
      match (Byte.to_N x ?= Byte.to_N y)%N with
      | Eq => lex a' b'
      | c => c
      end
  end.

Definition Z_of_comparison (c : comparison) : Z :=
  match c with
  | Eq => 0%Z
  | Lt => (-1)%Z
  | Gt => 1%Z
  end.

(** The group decoder as a function of the bytes it interprets, used to
    state what [decodeBytes_loop] computes (lemma [decodeBytes_loop_spec]):
    the number of nine-byte groups read, the bytes appended to the output,
    and the error reported, if any. *)
Fixpoint decode_groups (fuel : nat) (v : list byte)
    : nat * list byte * option error :=
  match fuel with
  | 0 => (0, [], None)
  | S fuel' =>
      if length v <? encGroupSize + 1 then (0, [], Some ErrInsufficientBytes)
      else
        let marker := nth encGroupSize v x00 in
        let padCount := byte_sub encMarker marker in
        let realGroupSize := byte_sub (byte_of_nat encGroupSize) padCount in
        if byte_gtb padCount (byte_of_nat encGroupSize) then
          (1, [], Some (ErrInvalidMarker (take (encGroupSize + 1) v)))
        else
          let chunk := take (nat_of_byte realGroupSize) v in
          if negb (Byte.eqb marker encMarker) then
            let padding :=
              take (encGroupSize - nat_of_byte realGroupSize)
                   (drop (nat_of_byte realGroupSize) v) in
            if negb (bytes_Count padding encPad =? nat_of_byte padCount) then
              (1, chunk, Some (ErrInvalidPadding (take (encGroupSize + 1) v)))
            else (1, chunk, None)
          else
            let '(k, out, err) := decode_groups fuel' (drop (encGroupSize + 1) v) in
            (S k, chunk ++ out, err)
  end.

(** The bytes of [b] as the decoder interprets them, and the store after
    the decoder has read [n] bytes of [b]: a descending decode complements
    what it reads, in place. *)
Definition view (reverse : bool) (h : heap) (b : slice) : list byte :=
  if reverse then map byte_not (bytes h b) else bytes h b.

Definition touched (reverse : bool) (h : heap) (b : slice) (n : nat) : heap :=
  if reverse then complemented h b n else h.

(** Modelled from the spec: [DecodeVarint] is defined in another file of the
    package (util/codec/number.go), which is not part of the sources at
    hand.  The spec fixes only its contract: it decodes a 64-bit signed
    integer from a prefix of the buffer and returns the bytes behind it, or
    fails.  This instance reads the format of Go's [binary.Varint]
    (base 128, least significant group first, zig-zag sign), and serves to
    run [DecodeCompactBytes] on concrete buffers; the lemmas about
    [DecodeCompactBytes] hold for every decoder. *)
Fixpoint Uvarint (buf : list byte) (i : nat) (x s : N) : N * Z :=
  match buf with
  | [] => (0%N, 0%Z)
  | b :: rest =>
      if (Byte.to_N b <? 128)%N then
        if (9 <? i) || ((i =? 9) && (1 <? Byte.to_N b)%N)
        then (0%N, (- Z.of_nat (i + 1))%Z)
        else ((N.lor x (N.shiftl (Byte.to_N b) s) mod 2 ^ 64)%N,
              Z.of_nat (i + 1))
      else
        Uvarint rest (S i)
          ((N.lor x (N.shiftl (N.land (Byte.to_N b) 127) s)) mod 2 ^ 64)%N
          (s + 7)%N
  end.

Definition Varint (buf : list byte) : Z * Z :=
  let '(ux, n) := Uvarint buf 0 0%N 0%N in
  let x := Z.of_N (N.shiftr ux 1) in
  (if N.testbit ux 0 then (- x - 1)%Z else x, n).

Definition DecodeVarint_binary (b : slice) : Go (error + slice * Z) :=
  bs <- contents b ;;
  let '(v, n) := Varint bs in
  if (0 <? n)%Z then
    rest <- reslice b (Z.to_nat n) (len b) ;;
    ret (inr (rest, v))
  else if (n <? 0)%Z then ret (inl (ErrExternal 1))
  else ret (inl (ErrExternal 0)).

(** The bytes of [EncodeBytes([], data)], run on the store that holds only
    the data [d]. *)
Definition encoding_of (d : list byte) : option (list byte) :=
  match EncodeBytes rt_amd64 nil_slice (mkSlice 0 0 (length d) (length d)) [d]
  with
  | Done r h => Some (bytes h r)
  | _ => None
  end.

(** [reported v k x]: the error [x] is the right report for the bytes [v]
    after [k] groups with marker 255: either fewer than nine bytes are
    left, or the next group, which the error carries, has a marker below
    247, or it has a marker that announces pad bytes which are not all
    zero. *)
Definition reported (v : list byte) (k : nat) (x : error) : Prop :=
  match x with
  | ErrInsufficientBytes => length v < 9 * k + 9
  | ErrInvalidMarker g =>
      9 * k + 9 <= length v /\ g = take 9 (drop (9 * k) v) /\
      nat_of_byte (nth 8 g x00) < 247
  | ErrInvalidPadding g =>
      9 * k + 9 <= length v /\ g = take 9 (drop (9 * k) v) /\
      let m := nat_of_byte (nth 8 g x00) in
      247 <= m < 255 /\
      take (255 - m) (drop (m - 247) g) <> replicate (255 - m) x00
  | _ => False
  end.




(** * Bytes and words *)

Section ByteFacts.

Local Open Scope N_scope.

Lemma to_N_byte_of_N (n : N) : Byte.to_N (byte_of_N n) = n mod 256.
Proof.
  unfold byte_of_N. destruct (Byte.of_N (n mod 256)) as [b|] eqn:E.
  - now apply Byte.to_of_N.
  - apply Byte.of_N_None_iff in E.
    pose proof (N.mod_lt n 256). lia.
Qed.

Lemma byte_of_N_to_N (b : byte) : byte_of_N (Byte.to_N b) = b.
Proof.
  unfold byte_of_N. pose proof (Byte.to_N_bounded b).
  rewrite N.mod_small by lia. now rewrite Byte.of_to_N.
Qed.

Lemma to_N_inj (a b : byte) : Byte.to_N a = Byte.to_N b -> a = b.
Proof.
  intros E. rewrite <- (byte_of_N_to_N a), <- (byte_of_N_to_N b).
  now rewrite E.
Qed.

Lemma lnot_low (a n : N) : a < 2 ^ n -> N.lnot a n = 2 ^ n - 1 - a.
Proof.
  intros Ha. destruct (N.eq_dec a 0) as [->|Hz].
  - rewrite N.lnot_0_l, N.ones_equiv. lia.
  - rewrite N.lnot_sub_low.
    + rewrite N.ones_equiv. lia.
    + apply N.log2_lt_pow2; lia.
Qed.

Lemma to_N_byte_not (b : byte) : Byte.to_N (byte_not b) = 255 - Byte.to_N b.
Proof.
  unfold byte_not. pose proof (Byte.to_N_bounded b).
  rewrite to_N_byte_of_N, lnot_low by (simpl; lia).
  change (2 ^ 8) with 256. apply N.mod_small. lia.
Qed.

Lemma byte_not_involutive (b : byte) : byte_not (byte_not b) = b.
Proof.
  apply to_N_inj. rewrite !to_N_byte_not.
  pose proof (Byte.to_N_bounded b). lia.
Qed.

Lemma map_byte_not_involutive (l : list byte) :
  map byte_not (map byte_not l) = l.
Proof.
  induction l as [|x l IH]; simpl; [easy|].
  now rewrite byte_not_involutive, IH.
Qed.

Lemma pow2_8S (n : nat) :
  2 ^ N.of_nat (8 * S n) = 256 * 2 ^ N.of_nat (8 * n).
Proof.
  replace (N.of_nat (8 * S n)) with (8 + N.of_nat (8 * n)) by lia.
  now rewrite N.pow_add_r.
Qed.

Lemma le_combine_bound (bs : list byte) :
  le_combine bs < 2 ^ N.of_nat (8 * length bs).
Proof.
  induction bs as [|b bs IH].
  - simpl. lia.
  - cbn [le_combine length]. rewrite pow2_8S.
    pose proof (Byte.to_N_bounded b). lia.
Qed.

(** Complementing a word complements each of its bytes. *)
Lemma le_split_lnot (bs : list byte) :
  le_split (length bs) (N.lnot (le_combine bs) (N.of_nat (8 * length bs)))
  = map byte_not bs.
Proof.
  induction bs as [|b bs IH]; [reflexivity|].
  pose proof (le_combine_bound (b :: bs)) as Hb.
  pose proof (le_combine_bound bs) as Hb'.
  cbn [map]. rewrite <- IH. rewrite !lnot_low by assumption.
  cbn [le_combine length] in *. rewrite pow2_8S in *.
  pose proof (Byte.to_N_bounded b) as Hx.
  set (P := 2 ^ N.of_nat (8 * length bs)) in *.
  set (c := le_combine bs) in *.
  assert (E : 256 * P - 1 - (Byte.to_N b + 256 * c)
              = (255 - Byte.to_N b) + (P - 1 - c) * 256) by lia.
  cbn [le_split]. rewrite E. f_equal.
  - apply to_N_inj. rewrite to_N_byte_of_N, to_N_byte_not.
    rewrite N.Div0.mod_add. apply N.mod_small. lia.
  - rewrite N.div_add by lia. rewrite N.div_small by lia. reflexivity.
Qed.

Lemma length_le_split (n : nat) (w : N) : length (le_split n w) = n.
Proof.
  revert w. induction n as [|n IH]; intros w; simpl; [easy|].
  now rewrite IH.
Qed.

Lemma word_not_bytes (a : goarch) (bs : list byte) :
  length bs = sizeof_uintptr a ->
  bytes_of_word a (word_not a (word_of_bytes a bs)) = map byte_not bs.
Proof.
  intros Hl. unfold bytes_of_word, word_not, word_of_bytes.
  destruct (big_endian a).
  - rewrite <- Hl, <- length_rev, le_split_lnot.
    now rewrite map_rev, rev_involutive.
  - now rewrite <- Hl, le_split_lnot.
Qed.

End ByteFacts.

(** * The store *)

Section HeapFacts.

Implicit Types (h : heap) (s : slice) (m xs ys : list byte).

(** Reading an array after a range of it was overwritten. *)
Lemma lookup_splice m xs (i j : nat) :
  i + length xs <= length m ->
  (take i m ++ xs ++ drop (i + length xs) m) !! j
  = if decide (j < i) then m !! j
    else if decide (j < i + length xs) then xs !! (j - i) else m !! j.
Proof.
  intros Hle.
  assert (Hlt : length (take i m) = i) by (rewrite length_take; lia).
  destruct (decide (j < i)) as [H1|H1].
  - rewrite lookup_app_l by lia. now rewrite lookup_take_lt by lia.
  - rewrite lookup_app_r by lia. rewrite Hlt.
    destruct (decide (j < i + length xs)) as [H2|H2].
    + now rewrite lookup_app_l by lia.
    + rewrite lookup_app_r by lia. rewrite lookup_drop. f_equal. lia.
Qed.

Lemma length_splice m xs (i : nat) :
  i + length xs <= length m ->
  length (take i m ++ xs ++ drop (i + length xs) m) = length m.
Proof.
  intros Hle. rewrite !length_app, length_take, length_drop. lia.
Qed.

Lemma lookup_window m (a n j : nat) :
  take n (drop a m) !! j = if decide (j < n) then m !! (a + j) else None.
Proof.
  rewrite lookup_take. destruct (decide (j < n)); [|reflexivity].
  now rewrite lookup_drop.
Qed.

Lemma mem_lt h (p : nat) : p < length h -> h !! p = Some (mem h p).
Proof.
  intros Hp. unfold mem. destruct (h !! p) as [a|] eqn:E; [reflexivity|].
  apply lookup_ge_None in E. lia.
Qed.

Lemma mem_ge h (p : nat) : length h <= p -> mem h p = [].
Proof.
  intros Hp. unfold mem. destruct (h !! p) as [a|] eqn:E; [|reflexivity].
  apply lookup_lt_Some in E. lia.
Qed.

Lemma mem_nonempty h (p : nat) : 0 < length (mem h p) -> p < length h.
Proof.
  intros Hl. destruct (decide (p < length h)) as [|Hn]; [assumption|].
  rewrite mem_ge in Hl by lia. simpl in Hl. lia.
Qed.

Lemma length_poke h (p i : nat) xs : length (poke h p i xs) = length h.
Proof. unfold poke. apply length_insert. Qed.

Lemma mem_poke_eq h (p i : nat) xs :
  p < length h ->
  mem (poke h p i xs) p
  = take i (mem h p) ++ xs ++ drop (i + length xs) (mem h p).
Proof.
  intros Hp. unfold poke. unfold mem at 1.
  now rewrite list_lookup_insert_eq by assumption.
Qed.

Lemma mem_poke_ne h (p q i : nat) xs : p <> q -> mem (poke h p i xs) q = mem h q.
Proof.
  intros Hne. unfold poke, mem at 1.
  now rewrite list_lookup_insert_ne by assumption.
Qed.

Lemma length_mem_poke h (p q i : nat) xs :
  i + length xs <= length (mem h p) ->
  length (mem (poke h p i xs) q) = length (mem h q).
Proof.
  intros Hle. destruct (decide (p = q)) as [<-|Hne].
  - destruct (decide (p < length h)) as [Hp|Hp].
    + rewrite mem_poke_eq by assumption. now apply length_splice.
    + unfold poke. now rewrite list_insert_ge by lia.
  - now rewrite mem_poke_ne.
Qed.

Lemma poke_nil h (p i : nat) : poke h p i [] = h.
Proof.
  unfold poke. cbn [length app]. rewrite Nat.add_0_r, take_drop.
  destruct (decide (p < length h)) as [Hp|Hp].
  - apply list_insert_id. now apply mem_lt.
  - apply list_insert_ge. lia.
Qed.

Lemma poke_poke_app h (p i : nat) xs ys :
  i + length xs <= length (mem h p) ->
  poke (poke h p i xs) p (i + length xs) ys = poke h p i (xs ++ ys).
Proof.
  intros Hle. destruct (decide (p < length h)) as [Hp|Hp].
  - unfold poke at 1. rewrite mem_poke_eq by assumption.
    unfold poke. rewrite list_insert_insert_eq. f_equal.
    set (m := mem h p) in *.
    assert (HA : length (take i m ++ xs) = i + length xs)
      by (rewrite length_app, length_take; lia).
    rewrite (app_assoc (take i m) xs).
    rewrite take_app_length' by (now rewrite HA).
    rewrite (drop_app_add' _ _ (i + length xs)) by (now rewrite HA).
    rewrite drop_drop, length_app, <- !app_assoc.
    now rewrite Nat.add_assoc.
  - unfold poke. now rewrite !list_insert_ge by (rewrite ?length_insert; lia).
Qed.

Lemma poke_comm h (p q i j : nat) xs ys :
  p <> q ->
  poke (poke h p i xs) q j ys = poke (poke h q j ys) p i xs.
Proof.
  intros Hne. unfold poke at 1 3.
  rewrite !mem_poke_ne by congruence.
  unfold poke. now apply list_insert_insert_ne.
Qed.

Lemma mem_app_old h (a : list byte) (p : nat) :
  p < length h -> mem (h ++ [a]) p = mem h p.
Proof. intros Hp. unfold mem. now rewrite lookup_app_l. Qed.

Lemma mem_app_new h (a : list byte) : mem (h ++ [a]) (length h) = a.
Proof.
  unfold mem. rewrite lookup_app_r by lia. now rewrite Nat.sub_diag.
Qed.

Lemma poke_app_old h (a : list byte) (p i : nat) xs :
  p < length h -> poke (h ++ [a]) p i xs = poke h p i xs ++ [a].
Proof.
  intros Hp. unfold poke. rewrite mem_app_old by assumption.
  now rewrite insert_app_l.
Qed.

Lemma length_bytes h s : wf h s -> length (bytes h s) = len s.
Proof.
  intros [H1 H2]. unfold bytes. rewrite length_take, length_drop. lia.
Qed.

Lemma wf_nil h : wf h nil_slice.
Proof. unfold wf. simpl. lia. Qed.

Lemma wf_ptr_lt h s : wf h s -> 0 < cap s -> ptr s < length h.
Proof. intros [H1 H2] Hc. apply mem_nonempty. lia. Qed.

(** A slice reads the same bytes after a write to another array or to a
    disjoint range of its own. *)
Lemma bytes_poke_ne h s (p i : nat) xs :
  p <> ptr s -> bytes (poke h p i xs) s = bytes h s.
Proof. intros Hne. unfold bytes. now rewrite mem_poke_ne. Qed.

Lemma bytes_poke_disjoint h s (p i : nat) xs :
  i + length xs <= length (mem h p) ->
  off s + len s <= i \/ i + length xs <= off s ->
  bytes (poke h p i xs) s = bytes h s.
Proof.
  intros Hle Hd. destruct (decide (p = ptr s)) as [->|Hne].
  2: now apply bytes_poke_ne.
  destruct (decide (ptr s < length h)) as [Hp|Hp].
  2: { unfold poke. now rewrite list_insert_ge by lia. }
  unfold bytes. rewrite mem_poke_eq by assumption.
  apply list_eq. intros j. rewrite !lookup_window.
  destruct (decide (j < len s)); [|reflexivity].
  rewrite lookup_splice by assumption.
  repeat case_decide; try reflexivity; lia.
Qed.

(** Overwriting a prefix of the window of a slice. *)
Lemma bytes_poke_prefix h s xs :
  wf h s -> length xs <= len s ->
  bytes (poke h (ptr s) (off s) xs) s = xs ++ drop (length xs) (bytes h s).
Proof.
  intros [H1 H2] Hl.
  destruct (decide (ptr s < length h)) as [Hp|Hp].
  - unfold bytes. rewrite mem_poke_eq by assumption.
    apply list_eq. intros j. rewrite lookup_window.
    rewrite lookup_splice by lia.
    destruct (decide (j < length xs)) as [Hj|Hj].
    + rewrite lookup_app_l by assumption.
      repeat case_decide; try lia. f_equal. lia.
    + rewrite lookup_app_r by lia. rewrite lookup_drop, lookup_window.
      repeat case_decide; try lia; try reflexivity. f_equal. lia.
  - assert (Hm : mem h (ptr s) = []) by (apply mem_ge; lia).
    rewrite Hm in H2. simpl in H2.
    assert (length xs = 0) as Hx by lia.
    apply length_zero_iff_nil in Hx. subst xs. rewrite poke_nil.
    now rewrite drop_0.
Qed.

(** Writing just behind the window of a slice and extending the window. *)
Lemma bytes_poke_extend h s xs :
  wf h s -> len s + length xs <= cap s ->
  bytes (poke h (ptr s) (off s + len s) xs)
        (mkSlice (ptr s) (off s) (len s + length xs) (cap s))
  = bytes h s ++ xs.
Proof.
  intros [H1 H2] Hl.
  destruct (decide (ptr s < length h)) as [Hp|Hp].
  - unfold bytes. cbn [ptr off len cap]. rewrite mem_poke_eq by assumption.
    apply list_eq. intros j. rewrite lookup_window.
    rewrite lookup_splice by lia.
    destruct (decide (j < len s)) as [Hj|Hj].
    + rewrite lookup_app_l by (rewrite length_take, length_drop; lia).
      rewrite lookup_window. repeat case_decide; try lia. reflexivity.
    + rewrite lookup_app_r by (rewrite length_take, length_drop; lia).
      rewrite length_take, length_drop.
      replace (len s `min` (length (mem h (ptr s)) - off s)) with (len s) by lia.
      repeat case_decide; try lia.
      * f_equal. lia.
      * symmetry. apply lookup_ge_None. lia.
  - assert (Hm : mem h (ptr s) = []) by (apply mem_ge; lia).
    rewrite Hm in H2. simpl in H2.
    assert (length xs = 0) as Hx by lia.
    apply length_zero_iff_nil in Hx. subst xs. rewrite poke_nil.
    unfold bytes. cbn [ptr off len cap length]. rewrite Hm.
    now rewrite drop_nil, !take_nil.
Qed.

End HeapFacts.

(** * Running computations *)

Section RunFacts.

Lemma bind_Done {A B} (m : Go A) (k : A -> Go B) (h h1 : heap) (a : A) :
  m h = Done a h1 -> bind m k h = k a h1.
Proof. intros E. unfold bind. now rewrite E. Qed.

Lemma bind_Panic {A B} (m : Go A) (k : A -> Go B) (h : heap) :
  m h = Panic -> bind m k h = Panic.
Proof. intros E. unfold bind. now rewrite E. Qed.

(** A counted loop whose [i]-th iteration takes the store [H i] to
    [H (S i)]. *)
Lemma for_range_spec (H : nat -> heap) (body : nat -> Go unit) (n lo : nat)
    (h0 : heap) :
  h0 = H lo ->
  (forall i, lo <= i < lo + n -> body i (H i) = Done tt (H (S i))) ->
  for_range lo n body h0 = Done tt (H (lo + n)).
Proof.
  revert lo h0. induction n as [|n IH]; intros lo h0 -> Hb.
  - cbn. unfold ret. now rewrite Nat.add_0_r.
  - cbn [for_range]. rewrite (bind_Done _ _ _ (H (S lo)) tt) by (apply Hb; lia).
    rewrite (IH (S lo)); [f_equal; f_equal; lia|reflexivity|].
    intros i Hi. apply Hb. lia.
Qed.

End RunFacts.

(** * Complementing a byte range *)

Section ReverseFacts.

Context (rt : runtime).
Implicit Types (h : heap) (s : slice).

Lemma sizeof_uintptr_pos (a : goarch) : 0 < sizeof_uintptr a.
Proof. destruct a; simpl; lia. Qed.

Lemma complemented_0 h s : complemented h s 0 = h.
Proof. unfold complemented. rewrite take_0. apply poke_nil. Qed.

Lemma complemented_all h s :
  wf h s ->
  complemented h s (len s) = poke h (ptr s) (off s) (map byte_not (bytes h s)).
Proof.
  intros Hwf. unfold complemented.
  now rewrite take_ge by (rewrite length_bytes; [lia|assumption]).
Qed.

Lemma length_complemented h s (k : nat) :
  length (complemented h s k) = length h.
Proof. apply length_poke. Qed.

(** Behind the complemented prefix the array still holds the old bytes. *)
Lemma complemented_lookup h s (k i : nat) :
  wf h s -> k <= i -> i < len s ->
  mem (complemented h s k) (ptr s) !! (off s + i) = bytes h s !! i.
Proof.
  intros Hwf Hk Hi. pose proof Hwf as [H1 H2].
  assert (Hp : ptr s < length h) by (apply wf_ptr_lt; [assumption|lia]).
  pose proof (length_bytes h s Hwf) as HB.
  unfold complemented. rewrite mem_poke_eq by assumption.
  assert (Hl : length (map byte_not (take k (bytes h s))) = k `min` len s)
    by (now rewrite length_map, length_take, HB).
  rewrite lookup_splice by lia.
  repeat case_decide; try lia.
  unfold bytes. rewrite lookup_window. case_decide; [reflexivity|lia].
Qed.

Lemma complemented_read h s (k c : nat) :
  wf h s -> k + c <= len s ->
  take c (drop (off s + k) (mem (complemented h s k) (ptr s)))
  = take c (drop k (bytes h s)).
Proof.
  intros Hwf Hk. apply list_eq. intros j. rewrite !lookup_window.
  case_decide; [|reflexivity].
  rewrite <- Nat.add_assoc. apply complemented_lookup; [assumption|lia|lia].
Qed.

Lemma length_mem_complemented h s (k q : nat) :
  wf h s ->
  length (mem (complemented h s k) q) = length (mem h q).
Proof.
  intros Hwf. pose proof Hwf as [H1 H2].
  apply length_mem_poke.
  rewrite length_map, length_take, length_bytes by assumption. lia.
Qed.

Lemma complemented_write h s (k c : nat) :
  wf h s -> k + c <= len s ->
  poke (complemented h s k) (ptr s) (off s + k)
       (map byte_not (take c (drop k (bytes h s))))
  = complemented h s (k + c).
Proof.
  intros Hwf Hk. pose proof Hwf as [H1 H2].
  pose proof (length_bytes h s Hwf) as HB.
  unfold complemented.
  assert (Hl : length (map byte_not (take k (bytes h s))) = k)
    by (rewrite length_map, length_take, HB; lia).
  rewrite <- Hl at 2. rewrite poke_poke_app by lia.
  now rewrite <- map_app, take_take_drop.
Qed.

(** One iteration of the byte loop. *)
Lemma complement_byte_step h s (i : nat) :
  wf h s -> i < len s ->
  (x <- index s i ;; assign s i (byte_not x)) (complemented h s i)
  = Done tt (complemented h s (S i)).
Proof.
  intros Hwf Hi.
  pose proof (length_bytes h s Hwf) as HB.
  destruct (lookup_lt_is_Some_2 (bytes h s) i) as [x Hx]; [lia|].
  assert (Hn : nth (off s + i) (mem (complemented h s i) (ptr s)) x00 = x).
  { rewrite nth_lookup, complemented_lookup, Hx by (assumption || lia).
    reflexivity. }
  unfold bind, index, assign.
  destruct (Nat.ltb_spec i (len s)) as [_|]; [|lia].
  rewrite Hn. f_equal.
  rewrite <- Nat.add_1_r.
  rewrite <- (complemented_write h s i 1) by (assumption || lia).
  rewrite (drop_S _ _ _ Hx). reflexivity.
Qed.

(** One iteration of the word loop. *)
Lemma complement_word_step h s (i : nat) :
  wf h s -> (i + 1) * wordSize rt <= len s ->
  (x <- index_word rt s i ;; assign_word rt s i (word_not (GOARCH rt) x))
    (complemented h s (i * wordSize rt))
  = Done tt (complemented h s (S i * wordSize rt)).
Proof.
  intros Hwf Hi. pose proof Hwf as [H1 H2].
  pose proof (sizeof_uintptr_pos (GOARCH rt)) as Hws.
  unfold wordSize in *. set (ws := sizeof_uintptr (GOARCH rt)) in *.
  pose proof (length_bytes h s Hwf) as HB.
  assert (Hil : i < len s) by nia.
  assert (Hfit : off s + i * ws + ws <= length (mem h (ptr s))) by nia.
  unfold bind, index_word, assign_word. fold ws.
  rewrite length_mem_complemented by assumption.
  destruct (Nat.ltb_spec i (len s)) as [_|]; [|lia].
  destruct (Nat.leb_spec (off s + i * ws + ws) (length (mem h (ptr s))))
    as [_|]; [|lia].
  cbn [andb].
  rewrite length_mem_complemented by assumption.
  destruct (Nat.leb_spec (off s + i * ws + ws) (length (mem h (ptr s))))
    as [_|]; [|lia].
  f_equal.
  rewrite complemented_read by (assumption || nia).
  rewrite word_not_bytes.
  - rewrite complemented_write by (assumption || nia).
    f_equal. cbn. lia.
  - rewrite length_take, length_drop, HB. nia.
Qed.

Lemma safeReverseBytes_spec h s :
  wf h s ->
  safeReverseBytes s h
  = Done tt (poke h (ptr s) (off s) (map byte_not (bytes h s))).
Proof.
  intros Hwf. rewrite <- complemented_all by assumption.
  unfold safeReverseBytes.
  apply (for_range_spec (complemented h s)).
  - now rewrite complemented_0.
  - intros i Hi. apply complement_byte_step; [assumption|lia].
Qed.

Lemma fastReverseBytes_spec h s :
  wf h s ->
  fastReverseBytes rt s h
  = Done tt (poke h (ptr s) (off s) (map byte_not (bytes h s))).
Proof.
  intros Hwf. rewrite <- complemented_all by assumption.
  pose proof (sizeof_uintptr_pos (GOARCH rt)) as Hws.
  unfold fastReverseBytes.
  set (ws := wordSize rt). set (w := len s / ws).
  assert (Hw : w * ws <= len s).
  { unfold w. rewrite Nat.mul_comm. apply Nat.Div0.mul_div_le. }
  assert (E1 : (if 0 <? w
                then for_range 0 w (fun i =>
                       x <- index_word rt s i ;;
                       assign_word rt s i (word_not (GOARCH rt) x))
                else ret tt) h
               = Done tt (complemented h s (w * ws))).
  { destruct (Nat.ltb_spec 0 w) as [Hpos|Hz].
    - apply (for_range_spec (fun i => complemented h s (i * ws))).
      + now rewrite complemented_0.
      + intros i Hi. apply complement_word_step; [assumption|].
        fold ws. nia.
    - assert (w = 0) as -> by lia. cbn. now rewrite complemented_0. }
  rewrite (bind_Done _ _ _ _ _ E1).
  replace (len s) with (w * ws + (len s - w * ws)) at 2 by lia.
  apply (for_range_spec (complemented h s)); [reflexivity|].
  intros i Hi. apply complement_byte_step; [assumption|lia].
Qed.

Lemma reverseBytes_spec h s :
  wf h s ->
  reverseBytes rt s h
  = Done tt (poke h (ptr s) (off s) (map byte_not (bytes h s))).
Proof.
  intros Hwf. unfold reverseBytes. destruct (supportsUnaligned rt).
  - now apply fastReverseBytes_spec.
  - now apply safeReverseBytes_spec.
Qed.

End ReverseFacts.

Section ReverseClaim.

Implicit Types (h : heap) (s : slice).

Lemma poke_lookup_outside h (p a i : nat) (xs : list byte) :
  a + length xs <= length (mem h p) ->
  i < a \/ a + length xs <= i ->
  mem (poke h p a xs) p !! i = mem h p !! i.
Proof.
  intros Hle Hi. destruct (decide (p < length h)) as [Hp|Hp].
  - rewrite mem_poke_eq by assumption. rewrite lookup_splice by assumption.
    repeat case_decide; try reflexivity; lia.
  - unfold poke. now rewrite list_insert_ge by lia.
Qed.

(** C8: on every byte range the word-at-a-time path [fastReverseBytes] and
    the byte-at-a-time path [safeReverseBytes] return with the same store,
    in which every byte of the range is replaced by its complement and every
    byte outside the range, in this array or any other, is unchanged; this
    holds for every length of the range, whatever its remainder modulo the
    word size. *)
Theorem reverse_paths_agree (rt : runtime) h s :
  wf h s ->
  exists h',
    fastReverseBytes rt s h = Done tt h' /\
    safeReverseBytes s h = Done tt h' /\
    reverseBytes rt s h = Done tt h' /\
    bytes h' s = map byte_not (bytes h s) /\
    length h' = length h /\
    (forall q, q <> ptr s -> mem h' q = mem h q) /\
    length (mem h' (ptr s)) = length (mem h (ptr s)) /\
    (forall i, i < off s \/ off s + len s <= i ->
               mem h' (ptr s) !! i = mem h (ptr s) !! i).
Proof.
  intros Hwf. pose proof Hwf as [H1 H2].
  pose proof (length_bytes h s Hwf) as HB.
  assert (Hl : length (map byte_not (bytes h s)) = len s)
    by now rewrite length_map.
  exists (poke h (ptr s) (off s) (map byte_not (bytes h s))).
  split; [now apply fastReverseBytes_spec|].
  split; [now apply safeReverseBytes_spec|].
  split; [now apply reverseBytes_spec|].
  split.
  { rewrite bytes_poke_prefix by (assumption || lia).
    rewrite Hl, drop_ge by lia. apply app_nil_r. }
  split; [apply length_poke|].
  split; [intros q Hq; now apply mem_poke_ne|].
  split; [apply length_mem_poke; lia|].
  intros i Hi. apply poke_lookup_outside; lia.
Qed.

Lemma reverse_paths_agree_witness :
  exists h',
    fastReverseBytes rt_amd64 (mkSlice 0 1 11 12)
      [[x00; x01; x02; x03; x04; x05; x06; x07; x08; x09; x0a; x0b; x0c; x0d]]
    = Done tt h' /\
    safeReverseBytes (mkSlice 0 1 11 12)
      [[x00; x01; x02; x03; x04; x05; x06; x07; x08; x09; x0a; x0b; x0c; x0d]]
    = Done tt h' /\
    h' = [[x00; xfe; xfd; xfc; xfb; xfa; xf9; xf8; xf7; xf6; xf5; xf4; x0c; x0d]].
Proof.
  destruct (reverse_paths_agree rt_amd64
    [[x00; x01; x02; x03; x04; x05; x06; x07; x08; x09; x0a; x0b; x0c; x0d]]
    (mkSlice 0 1 11 12)) as (h' & Hf & Hs & _).
  - unfold wf. simpl. lia.
  - exists h'. split; [exact Hf|]. split; [exact Hs|].
    vm_compute in Hs. now inversion Hs.
Defined.

End ReverseClaim.

(** * Growing a slice *)

Section GrowFacts.

Context (rt : runtime).
Implicit Types (h : heap) (b s : slice) (xs ys : list byte).

Lemma frame_refl h b : frame h b h.
Proof. split; [lia|]. intros p Hp. split; [reflexivity|]. now intros i _. Qed.

Lemma grows_refl h b : wf h b -> grows h b [] h b.
Proof.
  intros Hwf. unfold grows. cbn [length].
  rewrite app_nil_r, Nat.add_0_r.
  split; [exact Hwf|]. split; [reflexivity|]. split; [reflexivity|].
  split; [apply frame_refl|now left].
Qed.

Lemma grows_trans h b xs h1 b1 ys h2 b2 :
  grows h b xs h1 b1 -> grows h1 b1 ys h2 b2 ->
  grows h b (xs ++ ys) h2 b2.
Proof.
  intros (W1 & L1 & B1 & (F1l & F1) & O1) (W2 & L2 & B2 & (F2l & F2) & O2).
  unfold grows. split; [assumption|].
  split; [rewrite length_app; lia|].
  split; [now rewrite B2, B1, app_assoc|].
  split.
  - split; [lia|]. intros p Hp.
    destruct (F1 p Hp) as [E1 K1].
    destruct (F2 p ltac:(lia)) as [E2 K2].
    split; [congruence|].
    intros i Hi. rewrite K2; [now apply K1|].
    destruct O1 as [(P1 & P2 & P3)|P1].
    + rewrite P1, P2, P3. lia.
    + left. lia.
  - destruct O2 as [(Q1 & Q2 & Q3)|Q1].
    + destruct O1 as [(P1 & P2 & P3)|P1].
      * left. repeat split; congruence.
      * right. lia.
    + right. lia.
Qed.

(** Writing into the spare capacity extends a slice in place. *)
Lemma poke_grows h s xs :
  wf h s -> len s + length xs <= cap s ->
  grows h s xs (poke h (ptr s) (off s + len s) xs)
        (mkSlice (ptr s) (off s) (len s + length xs) (cap s)).
Proof.
  intros Hwf Hl. pose proof Hwf as [H1 H2]. unfold grows.
  split.
  { unfold wf. cbn [ptr off len cap].
    rewrite length_mem_poke by lia. lia. }
  split; [reflexivity|].
  split; [now apply bytes_poke_extend|].
  split; [|now left].
  split; [now rewrite length_poke|].
  intros p Hp. split; [apply length_mem_poke; lia|].
  intros i Hi. destruct (decide (ptr s = p)) as [<-|Hne].
  - apply poke_lookup_outside; lia.
  - now rewrite mem_poke_ne.
Qed.

Lemma bytes_app_old h s (a : list byte) :
  wf h s -> bytes (h ++ [a]) s = bytes h s.
Proof.
  intros [H1 H2]. destruct (decide (ptr s < length h)) as [Hp|Hp].
  - unfold bytes. now rewrite mem_app_old.
  - rewrite mem_ge in H2 by lia. cbn in H2.
    unfold bytes. replace (len s) with 0 by lia. now rewrite !take_0.
Qed.

Lemma frame_alloc h b (a : list byte) : frame h b (h ++ [a]).
Proof.
  split; [rewrite length_app; lia|].
  intros p Hp. rewrite mem_app_old by assumption.
  split; [reflexivity|]. now intros i _.
Qed.

Lemma append_inplace h b xs :
  len b + length xs <= cap b ->
  append rt b xs h
  = Done (mkSlice (ptr b) (off b) (len b + length xs) (cap b))
         (poke h (ptr b) (off b + len b) xs).
Proof.
  intros Hl. unfold append.
  destruct (Nat.leb_spec (len b + length xs) (cap b)); [reflexivity|lia].
Qed.

Lemma append_grows h b xs :
  wf h b ->
  exists b' h', append rt b xs h = Done b' h' /\ grows h b xs h' b'.
Proof.
  intros Hwf. pose proof (length_bytes h b Hwf) as HB.
  unfold append.
  destruct (Nat.leb_spec (len b + length xs) (cap b)) as [Hl|Hl].
  - eexists _, _. split; [reflexivity|]. now apply poke_grows.
  - eexists _, _. split; [reflexivity|].
    set (k := growslack rt (cap b) (len b + length xs)).
    unfold grows. cbn [ptr off len cap].
    split.
    { unfold wf. cbn [ptr off len cap]. rewrite mem_app_new.
      rewrite !length_app, length_replicate, HB. lia. }
    split; [reflexivity|].
    split.
    { unfold bytes at 1. cbn [ptr off len cap]. rewrite mem_app_new, drop_0.
      rewrite app_assoc. apply take_app_length'.
      rewrite length_app, HB. lia. }
    split; [apply frame_alloc|]. right. lia.
Qed.

Lemma reallocBytes_keep h b (n : nat) :
  n <= cap b -> reallocBytes b n h = Done b h.
Proof.
  intros Hn. unfold reallocBytes.
  destruct (Nat.ltb_spec (cap b) n); [lia|reflexivity].
Qed.

Lemma reallocBytes_alloc h b (n : nat) :
  wf h b -> cap b < n ->
  reallocBytes b n h
  = Done (mkSlice (length h) 0 (len b) (len b + n))
         (h ++ [bytes h b ++ replicate n x00]).
Proof.
  intros Hwf Hn. pose proof (length_bytes h b Hwf) as HB.
  unfold reallocBytes.
  destruct (Nat.ltb_spec (cap b) n) as [_|]; [|lia].
  unfold bind, make, contents, copy, ret. cbn [len ptr off].
  destruct (Nat.leb_spec (len b) (len b + n)) as [_|]; [|lia].
  f_equal. rewrite bytes_app_old by assumption.
  rewrite HB, Nat.min_id, take_ge by lia.
  unfold poke. rewrite mem_app_new.
  rewrite insert_app_r_alt by reflexivity. rewrite Nat.sub_diag.
  cbn [insert list_insert]. rewrite take_0, Nat.add_0_l, HB, drop_replicate.
  cbn [app]. do 4 f_equal. lia.
Qed.

Lemma reallocBytes_grows h b (n : nat) :
  wf h b ->
  exists b' h', reallocBytes b n h = Done b' h' /\ grows h b [] h' b'.
Proof.
  intros Hwf. pose proof (length_bytes h b Hwf) as HB.
  destruct (Nat.le_gt_cases n (cap b)) as [Hn|Hn].
  - exists b, h. split; [now apply reallocBytes_keep|now apply grows_refl].
  - eexists _, _. split; [now apply reallocBytes_alloc|].
    unfold grows. cbn [ptr off len cap length].
    split.
    { unfold wf. cbn [ptr off len cap]. rewrite mem_app_new.
      rewrite length_app, length_replicate, HB. lia. }
    split; [lia|].
    split.
    { unfold bytes at 1. cbn [ptr off len cap]. rewrite mem_app_new, drop_0.
      rewrite app_nil_r. now apply take_app_length'. }
    split; [apply frame_alloc|]. right. lia.
Qed.

End GrowFacts.

(** * Encoding *)

Section EncodeFacts.

Context (rt : runtime).
Implicit Types (h : heap) (b s : slice) (d e xs : list byte).

Lemma encoded_fun d e e' : encoded d e -> encoded d e' -> e = e'.
Proof.
  intros He. revert e'. induction He as [d Hd|g d e Hg He IH]; intros e' He'.
  - inversion He' as [d0 Hd0|g0 d0 e0 Hg0 He0]; subst; [reflexivity|].
    rewrite length_app in Hd. lia.
  - inversion He' as [d0 Hd0 E0|g0 d0 e0 Hg0 He0 E0]; subst.
    + rewrite length_app in Hd0. lia.
    + apply app_inj_1 in E0 as [-> ->]; [|congruence].
      now rewrite (IH _ He0).
Qed.

Lemma length_encoded d e : encoded d e -> exists k, length e = 9 * S k.
Proof.
  induction 1 as [d Hd|g d e Hg He [k IH]].
  - exists 0. unfold encGroupSize in *.
    rewrite !length_app, length_replicate. cbn [length]. lia.
  - exists (S k). unfold encGroupSize in *.
    rewrite !length_app, IH, Hg. cbn [length]. lia.
Qed.

Lemma EncodeBytes_of_loop_exit (fuel : nat) d (idx : nat) s h :
  length d < idx -> EncodeBytes_of_loop rt fuel d idx s h = Done s h.
Proof.
  intros Hlt. destruct fuel; cbn [EncodeBytes_of_loop];
    destruct (Nat.leb_spec idx (length d)); (lia || reflexivity).
Qed.

Lemma EncodeBytes_of_loop_grows (fuel : nat) d (idx : nat) s h :
  wf h s -> idx <= length d -> length d - idx < fuel ->
  exists e s' h',
    encoded (drop idx d) e /\
    EncodeBytes_of_loop rt fuel d idx s h = Done s' h' /\
    grows h s e h' s'.
Proof.
  revert idx s h. induction fuel as [|fuel IH]; intros idx s h Hwf Hi Hf; [lia|].
  cbn [EncodeBytes_of_loop].
  destruct (Nat.leb_spec idx (length d)) as [_|]; [|lia].
  assert (Hdl : length (drop idx d) = length d - idx) by apply length_drop.
  destruct (Nat.leb_spec encGroupSize (length d - idx)) as [Hge|Hlt].
  - destruct (append_grows rt h s (take encGroupSize (drop idx d)) Hwf)
      as (s1 & h1 & E1 & G1).
    destruct (append_grows rt h1 s1 [byte_sub encMarker (byte_of_nat 0)]
                (proj1 G1)) as (s2 & h2 & E2 & G2).
    unfold encGroupSize in Hge.
    destruct (IH (idx + encGroupSize) s2 h2 (proj1 G2))
      as (e & s3 & h3 & En & E3 & G3); [unfold encGroupSize; lia..|].
    exists (take encGroupSize (drop idx d) ++ [encMarker] ++ e), s3, h3.
    split; [|split].
    + rewrite <- (take_drop encGroupSize (drop idx d)) at 1.
      apply encoded_more.
      * rewrite length_take, Hdl. unfold encGroupSize. lia.
      * now rewrite drop_drop.
    + rewrite (bind_Done _ _ _ _ _ E1), (bind_Done _ _ _ _ _ E2). exact E3.
    + pose proof (grows_trans _ _ _ _ _ _ _ _ (grows_trans _ _ _ _ _ _ _ _ G1 G2) G3)
        as G.
      now rewrite <- app_assoc in G.
  - set (padCount := encGroupSize - (length d - idx)) in *.
    destruct (append_grows rt h s (drop idx d) Hwf) as (s1 & h1 & E1 & G1).
    destruct (append_grows rt h1 s1 (replicate padCount x00) (proj1 G1))
      as (s2 & h2 & E2 & G2).
    destruct (append_grows rt h2 s2
                [byte_sub encMarker (byte_of_nat padCount)] (proj1 G2))
      as (s3 & h3 & E3 & G3).
    exists (drop idx d ++ replicate padCount encPad
              ++ [byte_sub encMarker (byte_of_nat padCount)]), s3, h3.
    split; [|split].
    + unfold padCount. rewrite <- Hdl. apply encoded_last. lia.
    + assert (E12 : (r <- append rt s (drop idx d) ;;
                     append rt r (replicate padCount x00)) h = Done s2 h2)
        by (rewrite (bind_Done _ _ _ _ _ E1); exact E2).
      rewrite (bind_Done _ _ _ _ _ E12), (bind_Done _ _ _ _ _ E3).
      apply EncodeBytes_of_loop_exit. unfold encGroupSize in *. lia.
    + pose proof (grows_trans _ _ _ _ _ _ _ _ (grows_trans _ _ _ _ _ _ _ _ G1 G2) G3)
        as G.
      now rewrite <- app_assoc in G.
Qed.

Lemma EncodeBytes_of_grows h b d :
  wf h b ->
  exists e b' h',
    encoded d e /\ EncodeBytes_of rt b d h = Done b' h' /\ grows h b e h' b'.
Proof.
  intros Hwf. unfold EncodeBytes_of.
  destruct (reallocBytes_grows h b
              ((length d / encGroupSize + 1) * (encGroupSize + 1)) Hwf)
    as (s0 & h0 & E0 & G0).
  destruct (EncodeBytes_of_loop_grows (S (length d)) d 0 s0 h0 (proj1 G0))
    as (e & s1 & h1 & En & E1 & G1); [lia..|].
  exists e, s1, h1. split; [exact En|]. split.
  - rewrite (bind_Done _ _ _ _ _ E0). exact E1.
  - exact (grows_trans _ _ _ _ _ _ _ _ G0 G1).
Qed.

(** Encoding into the empty buffer: the result holds exactly the encoding. *)
Lemma EncodeBytes_of_nil h d :
  exists e b' h',
    encoded d e /\ EncodeBytes_of rt nil_slice d h = Done b' h' /\
    wf h' b' /\ bytes h' b' = e.
Proof.
  destruct (EncodeBytes_of_grows h nil_slice d (wf_nil h))
    as (e & b' & h' & En & E & (W & _ & B & _)).
  exists e, b', h'. repeat split; try assumption; try apply W.
Qed.

Lemma bytes_reslice h s (lo hi : nat) :
  lo <= hi -> hi <= len s ->
  bytes h (mkSlice (ptr s) (off s + lo) (hi - lo) (cap s - lo))
  = take (hi - lo) (drop lo (bytes h s)).
Proof.
  intros Hlo Hhi. unfold bytes. cbn [ptr off len cap].
  apply list_eq. intros j. rewrite !lookup_window.
  case_decide; [|reflexivity].
  case_decide; [|lia]. f_equal. lia.
Qed.

Lemma wf_reslice h s (lo hi : nat) :
  wf h s -> lo <= hi -> hi <= cap s ->
  wf h (mkSlice (ptr s) (off s + lo) (hi - lo) (cap s - lo)).
Proof. intros [H1 H2] Hlo Hhi. unfold wf. cbn [ptr off len cap]. lia. Qed.

Lemma reslice_Done h s (lo hi : nat) :
  lo <= hi -> hi <= cap s ->
  reslice s lo hi h
  = Done (mkSlice (ptr s) (off s + lo) (hi - lo) (cap s - lo)) h.
Proof.
  intros Hlo Hhi. unfold reslice.
  destruct (Nat.leb_spec lo hi); [|lia].
  destruct (Nat.leb_spec hi (cap s)); [reflexivity|lia].
Qed.

Lemma grows_truncate h b xs h1 b1 :
  grows h b xs h1 b1 ->
  grows h b [] h1 (mkSlice (ptr b1) (off b1) (len b) (cap b1)).
Proof.
  intros (W & L & B & F & O). unfold grows. cbn [ptr off len cap length].
  split; [destruct W; unfold wf; cbn [ptr off len cap]; lia|].
  split; [lia|]. split; [|split; assumption].
  assert (HB : length (bytes h b) = len b).
  { pose proof (length_bytes h1 b1 W) as HL.
    rewrite B, length_app in HL. lia. }
  rewrite app_nil_r. unfold bytes at 1. cbn [ptr off len cap].
  replace (take (len b) (drop (off b1) (mem h1 (ptr b1))))
    with (take (len b) (bytes h1 b1))
    by (unfold bytes; rewrite take_take; f_equal; lia).
  rewrite B. now apply take_app_length'.
Qed.

End EncodeFacts.

Section EncodeDescFacts.

Context (rt : runtime).
Implicit Types (h : heap) (b s : slice) (d e xs : list byte).

Lemma frame_bytes h b h' : wf h b -> frame h b h' -> bytes h' b = bytes h b.
Proof.
  intros [H1 H2] [Fl F]. destruct (decide (ptr b < length h)) as [Hp|Hp].
  - destruct (F _ Hp) as [_ K]. unfold bytes.
    apply list_eq. intros j. rewrite !lookup_window.
    case_decide; [|reflexivity]. apply K. lia.
  - rewrite mem_ge in H2 by lia. cbn in H2.
    unfold bytes. replace (len b) with 0 by lia. now rewrite !take_0.
Qed.

Lemma EncodeBytesDesc_of_grows h b d :
  wf h b ->
  exists e b' h',
    encoded d e /\
    EncodeBytesDesc_of rt b d h = Done b' h' /\
    grows h b (map byte_not e) h' b'.
Proof.
  intros Hwf.
  destruct (EncodeBytes_of_grows rt h b d Hwf) as (e & b1 & h1 & En & E1 & G1).
  pose proof G1 as (W1 & L1 & B1 & F1 & O1).
  pose proof (length_bytes h b Hwf) as HB.
  pose proof W1 as [W1a W1b].
  set (s0 := mkSlice (ptr b1) (off b1) (len b) (cap b1)).
  set (tail := mkSlice (ptr b1) (off b1 + len b) (len b1 - len b)
                       (cap b1 - len b)).
  assert (Wt : wf h1 tail) by (apply wf_reslice; (assumption || lia)).
  assert (Bt : bytes h1 tail = e).
  { unfold tail. rewrite bytes_reslice by lia.
    rewrite B1, drop_app_length' by lia.
    apply take_ge. lia. }
  pose proof (grows_truncate h b e h1 b1 G1) as G0. fold s0 in G0.
  assert (G2 : grows h1 s0 (map byte_not e)
                 (poke h1 (ptr b1) (off b1 + len b) (map byte_not e)) b1).
  { pose proof (poke_grows h1 s0 (map byte_not e) (proj1 G0)) as G.
    unfold s0 in G |- *. cbn [ptr off len cap] in G.
    rewrite length_map, <- L1 in G.
    destruct b1 as [p1 o1 l1 c1]. cbn [ptr off len cap] in *.
    apply G. lia. }
  exists e, b1, (poke h1 (ptr b1) (off b1 + len b) (map byte_not e)).
  split; [exact En|]. split.
  - unfold EncodeBytesDesc_of. rewrite (bind_Done _ _ _ _ _ E1).
    rewrite (bind_Done _ _ _ _ _ (reslice_Done h1 b1 (len b) (len b1)
                                    ltac:(lia) ltac:(lia))).
    fold tail. rewrite (bind_Done _ _ _ _ _ (reverseBytes_spec rt h1 tail Wt)).
    rewrite Bt. reflexivity.
  - exact (grows_trans _ _ _ _ _ _ _ _ G0 G2).
Qed.

End EncodeDescFacts.

(** * The encoder on slices

    [EncodeBytes] reads its data from the store while it writes the
    result.  It returns on every pair of well-formed slices, and what it
    appends has the length of an encoding; it appends the encoding of the
    data when the data is apart from the spare capacity it writes. *)

Section EncodeSlices.

Context (rt : runtime).
Implicit Types (h : heap) (b s data : slice) (d e xs : list byte).

Lemma bind_cong {A B} (m m' : Go A) (k : A -> Go B) (h : heap) :
  m h = m' h -> bind m k h = bind m' k h.
Proof. intros E. unfold bind. now rewrite E. Qed.

(** Reading [data[lo:hi]] as the operand of what follows. *)
Lemma read_slice {B} h data (lo hi : nat) (k : list byte -> Go B) :
  wf h data -> lo <= hi -> hi <= len data ->
  (src <- reslice data lo hi ;; xs <- contents src ;; k xs) h
  = k (take (hi - lo) (drop lo (bytes h data))) h.
Proof.
  intros [H1 H2] Hlo Hhi.
  rewrite (bind_Done _ _ _ _ _
             (reslice_Done h data lo hi Hlo ltac:(lia))).
  unfold bind at 1, contents. now rewrite bytes_reslice by assumption.
Qed.

(** Arrays keep their length along a frame, so slices stay well formed. *)
Lemma frame_wf h b h' s : frame h b h' -> wf h s -> wf h' s.
Proof.
  intros [Fl F] [H1 H2]. split; [assumption|].
  destruct (decide (ptr s < length h)) as [Hp|Hp].
  - destruct (F _ Hp) as [-> _]. assumption.
  - rewrite mem_ge in H2 by lia. cbn [length] in H2. lia.
Qed.

(** Bytes apart from the spare capacity of [b] are not written. *)
Lemma frame_bytes_apart h b h' data :
  wf h data -> frame h b h' -> apart data b -> bytes h' data = bytes h data.
Proof.
  intros [H1 H2] [Fl F] Ha. destruct (decide (ptr data < length h)) as [Hp|Hp].
  - destruct (F _ Hp) as [_ K]. unfold bytes.
    apply list_eq. intros j. rewrite !lookup_window.
    case_decide; [|reflexivity]. apply K. unfold apart in Ha. lia.
  - rewrite mem_ge in H2 by lia. cbn in H2.
    unfold bytes. replace (len data) with 0 by lia. now rewrite !take_0.
Qed.

Lemma grows_apart h b xs h' b' data :
  grows h b xs h' b' -> wf h data -> apart data b ->
  wf h' data /\ apart data b' /\ bytes h' data = bytes h data.
Proof.
  intros (W & L & B & F & O) Wd Ha.
  split; [exact (frame_wf _ _ _ _ F Wd)|].
  split; [|now apply (frame_bytes_apart h b)].
  destruct W as [W1 W2]. unfold apart in *.
  destruct O as [(Hp & Ho & Hc)|Hnew]; [lia|].
  destruct Wd as [D1 D2].
  destruct (decide (ptr data < length h)) as [Hp|Hp]; [lia|].
  rewrite mem_ge in D2 by lia. cbn [length] in D2. lia.
Qed.

(** Apart from the spare capacity, the loop is the loop on the bytes of
    the data. *)
Lemma EncodeBytes_loop_apart (fuel : nat) data (idx : nat) s h :
  wf h s -> wf h data -> apart data s ->
  EncodeBytes_loop rt fuel data idx s h
  = EncodeBytes_of_loop rt fuel (bytes h data) idx s h.
Proof.
  revert idx s h. induction fuel as [|fuel IH]; intros idx s h Ws Wd Ha;
    pose proof (length_bytes h data Wd) as HB;
    cbn [EncodeBytes_loop EncodeBytes_of_loop]; rewrite HB;
    destruct (Nat.leb_spec idx (len data)) as [Hi|Hi]; try reflexivity.
  destruct (Nat.leb_spec encGroupSize (len data - idx)) as [Hge|Hlt];
    unfold encGroupSize in *.
  - rewrite (bind_cong _ _ _ _
               (read_slice h data idx (idx + 8) (fun xs => append rt s xs)
                  Wd ltac:(lia) ltac:(lia))).
    cbv beta. replace (idx + 8 - idx) with 8 by lia.
    destruct (append_grows rt h s (take 8 (drop idx (bytes h data))) Ws)
      as (s1 & h1 & E1 & G1).
    destruct (grows_apart _ _ _ _ _ _ G1 Wd Ha) as (Wd1 & Ha1 & B1).
    destruct (append_grows rt h1 s1 [byte_sub encMarker (byte_of_nat 0)]
                (proj1 G1)) as (s2 & h2 & E2 & G2).
    destruct (grows_apart _ _ _ _ _ _ G2 Wd1 Ha1) as (Wd2 & Ha2 & B2).
    do 2 rewrite (bind_Done _ _ _ _ _ E1).
    do 2 rewrite (bind_Done _ _ _ _ _ E2).
    rewrite (IH _ _ _ (proj1 G2) Wd2 Ha2). now rewrite B2, B1.
  - set (padCount := 8 - (len data - idx)) in *.
    rewrite (bind_cong _ _ _ _
               (read_slice h data idx (len data)
                  (fun xs => r <- append rt s xs ;;
                             append rt r (replicate padCount x00))
                  Wd ltac:(lia) ltac:(lia))).
    cbv beta.
    rewrite (take_ge (drop idx (bytes h data)))
      by (rewrite length_drop, HB; lia).
    destruct (append_grows rt h s (drop idx (bytes h data)) Ws)
      as (s1 & h1 & E1 & G1).
    destruct (grows_apart _ _ _ _ _ _ G1 Wd Ha) as (Wd1 & Ha1 & B1).
    destruct (append_grows rt h1 s1 (replicate padCount x00) (proj1 G1))
      as (s2 & h2 & E2 & G2).
    destruct (grows_apart _ _ _ _ _ _ G2 Wd1 Ha1) as (Wd2 & Ha2 & B2).
    destruct (append_grows rt h2 s2
                [byte_sub encMarker (byte_of_nat padCount)] (proj1 G2))
      as (s3 & h3 & E3 & G3).
    destruct (grows_apart _ _ _ _ _ _ G3 Wd2 Ha2) as (Wd3 & Ha3 & B3).
    assert (E12 : (r <- append rt s (drop idx (bytes h data)) ;;
                   append rt r (replicate padCount x00)) h = Done s2 h2)
      by (rewrite (bind_Done _ _ _ _ _ E1); exact E2).
    do 2 rewrite (bind_Done _ _ _ _ _ E12).
    do 2 rewrite (bind_Done _ _ _ _ _ E3).
    rewrite (IH _ _ _ (proj1 G3) Wd3 Ha3). now rewrite B3, B2, B1.
Qed.

(** The loop returns whatever the data overlaps, and appends nine bytes
    for every group it starts. *)
Lemma EncodeBytes_loop_returns (fuel : nat) data (idx : nat) s h :
  wf h s -> wf h data -> idx <= len data -> len data - idx < fuel ->
  exists xs s' h',
    EncodeBytes_loop rt fuel data idx s h = Done s' h' /\
    grows h s xs h' s' /\
    length xs = 9 * ((len data - idx) / 8 + 1) /\
    wf h' data.
Proof.
  revert idx s h. induction fuel as [|fuel IH]; intros idx s h Ws Wd Hi Hf;
    [lia|].
  pose proof (length_bytes h data Wd) as HB.
  cbn [EncodeBytes_loop].
  destruct (Nat.leb_spec idx (len data)) as [_|]; [|lia].
  destruct (Nat.leb_spec encGroupSize (len data - idx)) as [Hge|Hlt];
    unfold encGroupSize in *.
  - rewrite (bind_cong _ _ _ _
               (read_slice h data idx (idx + 8) (fun xs => append rt s xs)
                  Wd ltac:(lia) ltac:(lia))).
    cbv beta. replace (idx + 8 - idx) with 8 by lia.
    set (g := take 8 (drop idx (bytes h data))).
    assert (Lg : length g = 8)
      by (unfold g; rewrite length_take, length_drop, HB; lia).
    destruct (append_grows rt h s g Ws) as (s1 & h1 & E1 & G1).
    pose proof (frame_wf _ _ _ _ (proj1 (proj2 (proj2 (proj2 G1)))) Wd) as Wd1.
    destruct (append_grows rt h1 s1 [byte_sub encMarker (byte_of_nat 0)]
                (proj1 G1)) as (s2 & h2 & E2 & G2).
    pose proof (frame_wf _ _ _ _ (proj1 (proj2 (proj2 (proj2 G2)))) Wd1) as Wd2.
    destruct (IH (idx + 8) s2 h2 (proj1 G2) Wd2)
      as (xs & s3 & h3 & E3 & G3 & L3 & Wd3); [lia..|].
    exists (g ++ [byte_sub encMarker (byte_of_nat 0)] ++ xs), s3, h3.
    split; [|split; [|split; [|exact Wd3]]].
    + rewrite (bind_Done _ _ _ _ _ E1), (bind_Done _ _ _ _ _ E2). exact E3.
    + pose proof (grows_trans _ _ _ _ _ _ _ _
                    (grows_trans _ _ _ _ _ _ _ _ G1 G2) G3) as G.
      now rewrite <- app_assoc in G.
    + rewrite !length_app, Lg, L3. cbn [length].
      replace (len data - idx) with (len data - (idx + 8) + 1 * 8) by lia.
      rewrite Nat.div_add by lia. lia.
  - set (padCount := 8 - (len data - idx)) in *.
    rewrite (bind_cong _ _ _ _
               (read_slice h data idx (len data)
                  (fun xs => r <- append rt s xs ;;
                             append rt r (replicate padCount x00))
                  Wd ltac:(lia) ltac:(lia))).
    cbv beta.
    set (g := take (len data - idx) (drop idx (bytes h data))).
    assert (Lg : length g = len data - idx)
      by (unfold g; rewrite length_take, length_drop, HB; lia).
    destruct (append_grows rt h s g Ws) as (s1 & h1 & E1 & G1).
    pose proof (frame_wf _ _ _ _ (proj1 (proj2 (proj2 (proj2 G1)))) Wd) as Wd1.
    destruct (append_grows rt h1 s1 (replicate padCount x00) (proj1 G1))
      as (s2 & h2 & E2 & G2).
    pose proof (frame_wf _ _ _ _ (proj1 (proj2 (proj2 (proj2 G2)))) Wd1) as Wd2.
    destruct (append_grows rt h2 s2
                [byte_sub encMarker (byte_of_nat padCount)] (proj1 G2))
      as (s3 & h3 & E3 & G3).
    pose proof (frame_wf _ _ _ _ (proj1 (proj2 (proj2 (proj2 G3)))) Wd2) as Wd3.
    exists (g ++ replicate padCount x00
              ++ [byte_sub encMarker (byte_of_nat padCount)]), s3, h3.
    split; [|split; [|split; [|exact Wd3]]].
    + assert (E12 : (r <- append rt s g ;;
                     append rt r (replicate padCount x00)) h = Done s2 h2)
        by (rewrite (bind_Done _ _ _ _ _ E1); exact E2).
      rewrite (bind_Done _ _ _ _ _ E12), (bind_Done _ _ _ _ _ E3).
      destruct fuel; cbn [EncodeBytes_loop];
        destruct (Nat.leb_spec (idx + 8) (len data)); (lia || reflexivity).
    + pose proof (grows_trans _ _ _ _ _ _ _ _
                    (grows_trans _ _ _ _ _ _ _ _ G1 G2) G3) as G.
      now rewrite <- app_assoc in G.
    + rewrite !length_app, Lg, length_replicate. cbn [length].
      rewrite Nat.div_small by lia. unfold padCount. lia.
Qed.

(** What [reallocBytes] returns is as far apart from the data as [b] was,
    and it is apart from the data whenever it is a fresh array. *)
Lemma reallocBytes_apart h b data (n : nat) :
  wf h b -> wf h data -> apart data b \/ cap b < n ->
  exists b0 h0,
    reallocBytes b n h = Done b0 h0 /\ grows h b [] h0 b0 /\
    wf h0 data /\ apart data b0 /\ bytes h0 data = bytes h data.
Proof.
  intros Wb Wd Ha.
  destruct (reallocBytes_grows h b n Wb) as (b0 & h0 & E0 & G0).
  exists b0, h0. split; [exact E0|]. split; [exact G0|].
  destruct (Nat.le_gt_cases n (cap b)) as [Hn|Hn].
  - destruct Ha as [Ha|Ha]; [|lia]. exact (grows_apart _ _ _ _ _ _ G0 Wd Ha).
  - rewrite reallocBytes_alloc in E0 by assumption. injection E0 as <- <-.
    split; [exact (frame_wf _ _ _ _ (frame_alloc h b _) Wd)|].
    split; [|now apply bytes_app_old].
    unfold apart. cbn [ptr off len cap]. destruct Wd as [D1 D2].
    destruct (decide (ptr data < length h)) as [Hp|Hp]; [lia|].
    rewrite mem_ge in D2 by lia. cbn [length] in D2. lia.
Qed.

(** [EncodeBytes] is [EncodeBytes_of] on the bytes of the data when the
    data is apart from the spare capacity of [b], and when that capacity is
    too small for the call to use it. *)
Lemma EncodeBytes_apart h b data :
  wf h b -> wf h data ->
  apart data b \/ cap b < 9 * (len data / 8 + 1) ->
  EncodeBytes rt b data h = EncodeBytes_of rt b (bytes h data) h.
Proof.
  intros Wb Wd Ha. unfold EncodeBytes, EncodeBytes_of, encGroupSize.
  rewrite (length_bytes h data Wd). change (8 + 1) with 9.
  destruct (reallocBytes_apart h b data ((len data / 8 + 1) * 9) Wb Wd
              ltac:(destruct Ha; [now left|right; lia]))
    as (b0 & h0 & E0 & G0 & Wd0 & Ha0 & B0).
  do 2 rewrite (bind_Done _ _ _ _ _ E0).
  rewrite (EncodeBytes_loop_apart _ _ _ _ _ (proj1 G0) Wd0 Ha0).
  now rewrite B0.
Qed.

Lemma EncodeBytesDesc_apart h b data :
  wf h b -> wf h data ->
  apart data b \/ cap b < 9 * (len data / 8 + 1) ->
  EncodeBytesDesc rt b data h = EncodeBytesDesc_of rt b (bytes h data) h.
Proof.
  intros Wb Wd Ha. unfold EncodeBytesDesc, EncodeBytesDesc_of.
  apply bind_cong. now apply EncodeBytes_apart.
Qed.

Lemma apart_nil data : apart data nil_slice.
Proof. unfold apart. cbn [len cap nil_slice]. lia. Qed.

(** The encoder returns on all well-formed slices. *)
Lemma EncodeBytes_returns h b data :
  wf h b -> wf h data ->
  exists xs b' h',
    EncodeBytes rt b data h = Done b' h' /\
    grows h b xs h' b' /\
    length xs = 9 * (len data / 8 + 1) /\
    wf h' data.
Proof.
  intros Wb Wd. unfold EncodeBytes.
  destruct (reallocBytes_grows h b
              ((len data / encGroupSize + 1) * (encGroupSize + 1)) Wb)
    as (s0 & h0 & E0 & G0).
  pose proof (frame_wf _ _ _ _ (proj1 (proj2 (proj2 (proj2 G0)))) Wd) as Wd0.
  destruct (EncodeBytes_loop_returns (S (len data)) data 0 s0 h0
              (proj1 G0) Wd0)
    as (xs & s1 & h1 & E1 & G1 & L1 & Wd1); [lia..|].
  exists xs, s1, h1. split; [|split; [|split; [|exact Wd1]]].
  - rewrite (bind_Done _ _ _ _ _ E0). exact E1.
  - exact (grows_trans _ _ _ _ _ _ _ _ G0 G1).
  - now rewrite L1, Nat.sub_0_r.
Qed.

(** The encoder on slices appends the encoding of the bytes of the data. *)
Lemma EncodeBytes_grows h b data :
  wf h b -> wf h data ->
  apart data b \/ cap b < 9 * (len data / 8 + 1) ->
  exists e b' h',
    encoded (bytes h data) e /\
    EncodeBytes rt b data h = Done b' h' /\
    grows h b e h' b'.
Proof.
  intros Wb Wd Ha. rewrite (EncodeBytes_apart h b data Wb Wd Ha).
  now apply EncodeBytes_of_grows.
Qed.

Lemma EncodeBytes_nil h data :
  wf h data ->
  exists e b' h',
    encoded (bytes h data) e /\
    EncodeBytes rt nil_slice data h = Done b' h' /\
    wf h' b' /\ bytes h' b' = e.
Proof.
  intros Wd.
  rewrite (EncodeBytes_apart h nil_slice data (wf_nil h) Wd
             (or_introl (apart_nil data))).
  apply EncodeBytes_of_nil.
Qed.

End EncodeSlices.

Section EncodeDescSlices.

Context (rt : runtime).
Implicit Types (h : heap) (b s data : slice) (d e xs : list byte).

(** The last steps of [EncodeBytesDesc]: the bytes appended by
    [EncodeBytes] are complemented where they lie. *)
Lemma EncodeBytesDesc_tail h b xs (h1 : heap) (b1 : slice) :
  wf h b -> grows h b xs h1 b1 ->
  exists h',
    (tail <- reslice b1 (len b) (len b1) ;; reverseBytes rt tail ;;; ret b1) h1
    = Done b1 h' /\
    grows h b (map byte_not xs) h' b1.
Proof.
  intros Hwf G1.
  pose proof G1 as (W1 & L1 & B1 & F1 & O1).
  pose proof (length_bytes h b Hwf) as HB.
  pose proof W1 as [W1a W1b].
  set (s0 := mkSlice (ptr b1) (off b1) (len b) (cap b1)).
  set (tail := mkSlice (ptr b1) (off b1 + len b) (len b1 - len b)
                       (cap b1 - len b)).
  assert (Wt : wf h1 tail) by (apply wf_reslice; (assumption || lia)).
  assert (Bt : bytes h1 tail = xs).
  { unfold tail. rewrite bytes_reslice by lia.
    rewrite B1, drop_app_length' by lia.
    apply take_ge. lia. }
  pose proof (grows_truncate h b xs h1 b1 G1) as G0. fold s0 in G0.
  assert (G2 : grows h1 s0 (map byte_not xs)
                 (poke h1 (ptr b1) (off b1 + len b) (map byte_not xs)) b1).
  { pose proof (poke_grows h1 s0 (map byte_not xs) (proj1 G0)) as G.
    unfold s0 in G |- *. cbn [ptr off len cap] in G.
    rewrite length_map, <- L1 in G.
    destruct b1 as [p1 o1 l1 c1]. cbn [ptr off len cap] in *.
    apply G. lia. }
  exists (poke h1 (ptr b1) (off b1 + len b) (map byte_not xs)).
  split.
  - rewrite (bind_Done _ _ _ _ _ (reslice_Done h1 b1 (len b) (len b1)
                                    ltac:(lia) ltac:(lia))).
    fold tail. rewrite (bind_Done _ _ _ _ _ (reverseBytes_spec rt h1 tail Wt)).
    rewrite Bt. reflexivity.
  - exact (grows_trans _ _ _ _ _ _ _ _ G0 G2).
Qed.

Lemma EncodeBytesDesc_returns h b data :
  wf h b -> wf h data ->
  exists xs b' h',
    EncodeBytesDesc rt b data h = Done b' h' /\
    grows h b (map byte_not xs) h' b' /\
    length xs = 9 * (len data / 8 + 1).
Proof.
  intros Wb Wd.
  destruct (EncodeBytes_returns rt h b data Wb Wd)
    as (xs & b1 & h1 & E1 & G1 & L1 & _).
  destruct (EncodeBytesDesc_tail h b xs h1 b1 Wb G1) as (h' & E2 & G2).
  exists xs, b1, h'. split; [|split; assumption].
  unfold EncodeBytesDesc. rewrite (bind_Done _ _ _ _ _ E1). exact E2.
Qed.

Lemma EncodeBytesDesc_grows h b data :
  wf h b -> wf h data ->
  apart data b \/ cap b < 9 * (len data / 8 + 1) ->
  exists e b' h',
    encoded (bytes h data) e /\
    EncodeBytesDesc rt b data h = Done b' h' /\
    grows h b (map byte_not e) h' b'.
Proof.
  intros Wb Wd Ha. rewrite (EncodeBytesDesc_apart rt h b data Wb Wd Ha).
  now apply EncodeBytesDesc_of_grows.
Qed.

(** C7, amended: [EncodeBytesDesc(b, data)] returns a buffer that begins
    with the original bytes of [b] and is longer by the size of an
    encoding; the caller's view of [b] is unchanged, and so is every byte
    of the store that existed before the call, apart from the spare
    capacity of [b] that received the new bytes.  When the data does not
    lie in the spare capacity of [b], or that capacity is too small to be
    used, the appended bytes are the per-byte complement of the bytes of
    [EncodeBytes([], data)]: only the bytes produced by this call are
    complemented. *)
Theorem EncodeBytesDesc_frame h b data :
  wf h b -> wf h data ->
  exists b' h',
    EncodeBytesDesc rt b data h = Done b' h' /\
    len b' = len b + 9 * (len data / 8 + 1) /\
    take (len b) (bytes h' b') = bytes h b /\
    bytes h' b = bytes h b /\
    frame h b h' /\
    (apart data b \/ cap b < 9 * (len data / 8 + 1) ->
     exists r h1,
       EncodeBytes rt nil_slice data h = Done r h1 /\
       bytes h' b' = bytes h b ++ map byte_not (bytes h1 r)).
Proof.
  intros Wb Wd. pose proof (length_bytes h b Wb) as HB.
  destruct (EncodeBytesDesc_returns h b data Wb Wd)
    as (xs & b' & h' & E & (W & L & B & F & O) & Lx).
  exists b', h'. split; [exact E|].
  split; [rewrite L, length_map; lia|].
  split; [rewrite B; now apply take_app_length'|].
  split; [now apply frame_bytes|]. split; [exact F|].
  intros Ha.
  destruct (EncodeBytesDesc_grows h b data Wb Wd Ha)
    as (e & b2 & h2 & En & E2 & (_ & _ & B2 & _)).
  rewrite E2 in E. injection E as <- <-.
  destruct (EncodeBytes_nil rt h data Wd) as (e0 & r & h1 & En0 & E0 & _ & B0).
  rewrite (encoded_fun _ _ _ En0 En) in B0.
  exists r, h1. split; [exact E0|]. now rewrite B0.
Qed.

End EncodeDescSlices.

Lemma EncodeBytesDesc_frame_witness :
  exists b' h' r h1,
    EncodeBytesDesc rt_amd64 (mkSlice 0 1 2 10) (mkSlice 1 0 2 2)
      [[x00; x01; x02; x03; x04; x05; x06; x07; x08; x09; x0a; x0b];
       [x07; x08]]
    = Done b' h' /\
    EncodeBytes rt_amd64 nil_slice (mkSlice 1 0 2 2)
      [[x00; x01; x02; x03; x04; x05; x06; x07; x08; x09; x0a; x0b];
       [x07; x08]]
    = Done r h1 /\
    bytes h' b' = [x01; x02] ++ map byte_not (bytes h1 r) /\
    bytes h' (mkSlice 0 1 2 10) = [x01; x02] /\
    bytes h' b' = [x01; x02; xf8; xf7; xff; xff; xff; xff; xff; xff; x06].
Proof.
  destruct (EncodeBytesDesc_frame rt_amd64
              [[x00; x01; x02; x03; x04; x05; x06; x07; x08; x09; x0a; x0b];
               [x07; x08]]
              (mkSlice 0 1 2 10) (mkSlice 1 0 2 2))
    as (b' & h' & E & L & T & Bb & F & K).
  - unfold wf. simpl. lia.
  - unfold wf. simpl. lia.
  - destruct K as (r & h1 & E0 & B); [left; unfold apart; simpl; lia|].
    exists b', h', r, h1.
    split; [exact E|]. split; [exact E0|]. split; [exact B|].
    split; [exact Bb|].
    vm_compute in E. inversion E. reflexivity.
Defined.

(** C7 as the spec states it fails when the data lies in the spare
    capacity of [b]: encoding the first nine bytes of an array into the
    same array, from its start, overwrites the ninth byte with a marker
    before the second round reads it. *)
Lemma EncodeBytesDesc_frame_overlap :
  exists b' h' r h1,
    EncodeBytesDesc rt_amd64 (mkSlice 0 0 0 18) (mkSlice 0 0 9 9)
      [[x01; x02; x03; x04; x05; x06; x07; x08; x09;
        x00; x00; x00; x00; x00; x00; x00; x00; x00]]
    = Done b' h' /\
    EncodeBytes rt_amd64 nil_slice (mkSlice 0 0 9 9)
      [[x01; x02; x03; x04; x05; x06; x07; x08; x09;
        x00; x00; x00; x00; x00; x00; x00; x00; x00]]
    = Done r h1 /\
    bytes h1 r = [x01; x02; x03; x04; x05; x06; x07; x08; xff;
                  x09; x00; x00; x00; x00; x00; x00; x00; xf8] /\
    bytes h' b' = map byte_not
                    [x01; x02; x03; x04; x05; x06; x07; x08; xff;
                     xff; x00; x00; x00; x00; x00; x00; x00; xf8] /\
    bytes h' b' <> [] ++ map byte_not (bytes h1 r).
Proof.
  eexists _, _, _, _.
  split; [vm_compute; reflexivity|].
  split; [vm_compute; reflexivity|].
  split; [vm_compute; reflexivity|].
  split; [vm_compute; reflexivity|].
  vm_compute. discriminate.
Qed.

(** C6, which the code does not satisfy: [reallocBytes] compares the
    required additional capacity with the whole capacity of [b], not with
    its spare capacity.  A full nine-byte buffer asked for nine more bytes
    is returned as it is, with capacity 9 and not at least 18. *)
Lemma reallocBytes_capacity_short :
  let h := [[x00; x00; x00; x00; x00; x00; x00; x00; xf7]] in
  let b := mkSlice 0 0 9 9 in
  wf h b /\
  reallocBytes b 9 h = Done b h /\
  cap b < len b + 9.
Proof.
  cbn zeta. split; [unfold wf; simpl; lia|].
  split; [reflexivity|simpl; lia].
Qed.

(** * Order *)

Section OrderFacts.

Implicit Types (a b g d e x y u v : list byte).

Lemma bytes_Compare_lex a b : bytes_Compare a b = Z_of_comparison (lex a b).
Proof.
  revert b. induction a as [|c a IH]; intros [|c' b]; cbn; try reflexivity.
  destruct (Byte.to_N c ?= Byte.to_N c')%N; try reflexivity. apply IH.
Qed.

Lemma Z_of_comparison_opp (c : comparison) :
  Z_of_comparison (CompOpp c) = (- Z_of_comparison c)%Z.
Proof. now destruct c. Qed.

Lemma lex_refl a : lex a a = Eq.
Proof.
  induction a as [|c a IH]; cbn; [reflexivity|].
  now rewrite N.compare_refl.
Qed.

Lemma lex_antisym a b : lex b a = CompOpp (lex a b).
Proof.
  revert b. induction a as [|c a IH]; intros [|c' b]; cbn; try reflexivity.
  rewrite (N.compare_antisym (Byte.to_N c) (Byte.to_N c')).
  destruct (Byte.to_N c ?= Byte.to_N c')%N; cbn; try reflexivity. apply IH.
Qed.

Lemma lex_app x y u v :
  length x = length y ->
  lex (x ++ u) (y ++ v) = match lex x y with Eq => lex u v | c => c end.
Proof.
  revert y. induction x as [|c x IH]; intros [|c' y] Hl; cbn in *;
    try discriminate; [reflexivity|].
  destruct (Byte.to_N c ?= Byte.to_N c')%N; try reflexivity.
  apply IH. lia.
Qed.

Lemma compare_byte_not (c c' : byte) :
  (Byte.to_N (byte_not c) ?= Byte.to_N (byte_not c'))%N
  = CompOpp (Byte.to_N c ?= Byte.to_N c')%N.
Proof.
  rewrite !to_N_byte_not.
  pose proof (Byte.to_N_bounded c). pose proof (Byte.to_N_bounded c').
  destruct (N.compare_spec (Byte.to_N c) (Byte.to_N c')) as [E|E|E]; cbn.
  - rewrite E. apply N.compare_refl.
  - apply N.compare_gt_iff. lia.
  - apply N.compare_lt_iff. lia.
Qed.

Lemma lex_not x y :
  length x = length y ->
  lex (map byte_not x) (map byte_not y) = CompOpp (lex x y).
Proof.
  revert y. induction x as [|c x IH]; intros [|c' y] Hl; cbn in *;
    try discriminate; [reflexivity|].
  rewrite compare_byte_not.
  destruct (Byte.to_N c ?= Byte.to_N c')%N; cbn; try reflexivity.
  apply IH. lia.
Qed.

Lemma lex_zeros_not_Gt (n : nat) y :
  length y = n -> lex (replicate n x00) y <> Gt.
Proof.
  revert y. induction n as [|n IH]; intros [|c y] Hl;
    cbn [replicate lex length] in *; try discriminate.
  change (Byte.to_N x00) with 0%N.
  destruct (N.compare_spec 0 (Byte.to_N c)) as [E|E|E]; try discriminate.
  - apply IH. lia.
  - lia.
Qed.

(** Comparing strings of at most [n] bytes through their zero-padded
    forms: the padded forms decide, and the lengths break a tie. *)
Lemma lex_padded (n : nat) a b :
  length a <= n -> length b <= n ->
  lex a b
  = match lex (a ++ replicate (n - length a) x00)
              (b ++ replicate (n - length b) x00) with
    | Eq => Nat.compare (length a) (length b)
    | c => c
    end.
Proof.
  revert a b. induction n as [|n IH]; intros a b Ha Hb.
  - destruct a, b; cbn in *; try lia. reflexivity.
  - destruct a as [|c a], b as [|c' b]; cbn [length app Nat.sub].
    + rewrite !lex_refl. reflexivity.
    + change (lex [] (c' :: b)) with Lt.
      cbn [replicate lex]. change (Byte.to_N x00) with 0%N.
      destruct (N.compare_spec 0 (Byte.to_N c')) as [E|E|E].
      * pose proof (lex_zeros_not_Gt n (b ++ replicate (n - length b) x00)) as Hz.
        cbn in Hb. rewrite length_app, length_replicate in Hz.
        specialize (Hz ltac:(lia)).
        destruct (lex (replicate n x00) (b ++ replicate (n - length b) x00));
          (reflexivity || congruence).
      * reflexivity.
      * lia.
    + change (lex (c :: a) []) with Gt.
      cbn [replicate lex]. change (Byte.to_N x00) with 0%N.
      destruct (N.compare_spec (Byte.to_N c) 0) as [E|E|E].
      * pose proof (lex_zeros_not_Gt n (a ++ replicate (n - length a) x00)) as Hz.
        cbn in Ha. rewrite length_app, length_replicate in Hz.
        specialize (Hz ltac:(lia)).
        rewrite (lex_antisym (replicate n x00)).
        destruct (lex (replicate n x00) (a ++ replicate (n - length a) x00));
          cbn; (reflexivity || congruence).
      * lia.
      * reflexivity.
    + cbn [lex]. cbn in Ha, Hb.
      destruct (Byte.to_N c ?= Byte.to_N c')%N; try reflexivity.
      rewrite (IH a b) by lia. reflexivity.
Qed.

Lemma lex_shorter a g d :
  length a < length g -> lex a (g ++ d) = lex a g.
Proof.
  revert g. induction a as [|c a IH]; intros [|c' g] Hl; cbn in *; try lia.
  - reflexivity.
  - destruct (Byte.to_N c ?= Byte.to_N c')%N; try reflexivity.
    apply IH. lia.
Qed.

Lemma to_N_marker (k : nat) :
  k <= 8 ->
  Byte.to_N (byte_sub encMarker (byte_of_nat k)) = (255 - N.of_nat k)%N.
Proof.
  intros Hk. unfold byte_sub, byte_of_nat. rewrite !to_N_byte_of_N.
  change (Byte.to_N encMarker) with 255%N.
  rewrite (N.mod_small (N.of_nat k)) by lia.
  replace (255 + 256 - N.of_nat k)%N with ((255 - N.of_nat k) + 1 * 256)%N by lia.
  rewrite N.Div0.mod_add. apply N.mod_small. lia.
Qed.

End OrderFacts.

Section EncodedOrder.

Implicit Types (a b g d e x y u v : list byte).

Lemma lex_marker_last (k k' : nat) :
  k < 8 -> k' < 8 ->
  lex [byte_sub encMarker (byte_of_nat (encGroupSize - k))]
      [byte_sub encMarker (byte_of_nat (encGroupSize - k'))]
  = Nat.compare k k'.
Proof.
  intros Hk Hk'. unfold encGroupSize. cbn [lex].
  rewrite !to_N_marker by lia.
  destruct (Nat.compare_spec k k') as [E|E|E].
  - subst. now rewrite N.compare_refl.
  - replace (_ ?= _)%N with Lt; [reflexivity|].
    symmetry. apply N.compare_lt_iff. lia.
  - replace (_ ?= _)%N with Gt; [reflexivity|].
    symmetry. apply N.compare_gt_iff. lia.
Qed.

(** A last group against a full group: the last group sorts first unless
    its data bytes already decide. *)
Lemma encoded_order_last_more a g d e :
  length a < encGroupSize -> length g = encGroupSize ->
  let ea := a ++ replicate (encGroupSize - length a) encPad
              ++ [byte_sub encMarker (byte_of_nat (encGroupSize - length a))] in
  let eb := g ++ [encMarker] ++ e in
  lex ea eb = lex a (g ++ d) /\
  lex (map byte_not ea) (map byte_not eb) = CompOpp (lex a (g ++ d)).
Proof.
  intros Ha Hg ea eb. unfold encGroupSize, encPad in *.
  set (m := byte_sub encMarker (byte_of_nat (8 - length a))) in *.
  assert (Hm : Byte.to_N m = (255 - N.of_nat (8 - length a))%N)
    by (apply to_N_marker; lia).
  assert (Hp : length (a ++ replicate (8 - length a) x00) = length g)
    by (rewrite length_app, length_replicate; lia).
  assert (E1 : lex a (g ++ d)
               = match lex (a ++ replicate (8 - length a) x00) g with
                 | Eq => Lt
                 | c => c
                 end).
  { rewrite lex_shorter by lia. rewrite (lex_padded 8 a g) by lia.
    rewrite Hg, Nat.sub_diag. cbn [replicate]. rewrite app_nil_r.
    destruct (lex _ g); try reflexivity.
    apply Nat.compare_lt_iff. lia. }
  subst ea eb. rewrite (app_assoc a). split.
  - rewrite lex_app by assumption. rewrite E1.
    destruct (lex _ g); try reflexivity.
    cbn [app lex]. rewrite Hm. change (Byte.to_N encMarker) with 255%N.
    replace (_ ?= _)%N with Lt; [reflexivity|].
    symmetry. apply N.compare_lt_iff. lia.
  - rewrite (map_app byte_not (a ++ replicate (8 - length a) x00)).
    rewrite (map_app byte_not g).
    rewrite lex_app by (now rewrite !length_map).
    rewrite lex_not by assumption. rewrite E1.
    destruct (lex _ g); try reflexivity.
    cbn [app lex map CompOpp]. rewrite to_N_byte_not, Hm.
    change (Byte.to_N (byte_not encMarker)) with 0%N.
    replace (_ ?= _)%N with Gt; [reflexivity|].
    symmetry. apply N.compare_gt_iff. lia.
Qed.

(** Order of the encodings, and of their complements. *)
Lemma encoded_order a ea b eb :
  encoded a ea -> encoded b eb ->
  lex ea eb = lex a b /\
  lex (map byte_not ea) (map byte_not eb) = CompOpp (lex a b).
Proof.
  intros Ha. revert b eb.
  induction Ha as [a Hla|g d e Hg Hd IH]; intros b eb Hb.
  - inversion Hb as [b0 Hlb|g' d' e' Hg' Hd']; subst.
    + assert (E : lex (a ++ replicate (encGroupSize - length a) encPad
                       ++ [byte_sub encMarker
                             (byte_of_nat (encGroupSize - length a))])
                      (b ++ replicate (encGroupSize - length b) encPad
                       ++ [byte_sub encMarker
                             (byte_of_nat (encGroupSize - length b))])
                  = lex a b).
      { rewrite (app_assoc a), (app_assoc b).
        rewrite lex_app
          by (rewrite !length_app, !length_replicate;
              unfold encGroupSize in *; lia).
        rewrite lex_marker_last by assumption.
        unfold encGroupSize, encPad in *.
        now rewrite (lex_padded 8 a b) by lia. }
      split; [exact E|].
      rewrite lex_not; [now rewrite E|].
      rewrite !length_app, !length_replicate. cbn [length].
      unfold encGroupSize in *. lia.
    + now apply encoded_order_last_more.
  - inversion Hb as [b0 Hlb|g' d' e' Hg' Hd']; subst.
    + destruct (encoded_order_last_more b g d e Hlb Hg) as [E1 E2].
      cbn zeta in E1, E2. split.
      * rewrite lex_antisym, E1. now rewrite <- lex_antisym.
      * rewrite lex_antisym, E2.
        now rewrite (lex_antisym b (g ++ d)).
    + destruct (IH d' e' Hd') as [E1 E2]. split.
      * rewrite !lex_app by congruence.
        destruct (lex g g'); try reflexivity.
        cbn [app lex]. now rewrite N.compare_refl.
      * rewrite !map_app, !lex_app by (rewrite ?length_map; congruence).
        rewrite lex_not by congruence.
        destruct (lex g g'); try reflexivity.
        cbn [app lex map CompOpp]. now rewrite N.compare_refl.
Qed.

End EncodedOrder.

Section OrderClaims.

Context (rt : runtime).

(** C1: the three-way bytewise comparison of [EncodeBytes([], a)] and
    [EncodeBytes([], b)] equals that of [a] and [b], for all byte strings
    [a] and [b], wherever they are stored (both calls return, whatever the
    store they start in). *)
Theorem EncodeBytes_preserves_order (a b : slice) (ha hb : heap) :
  wf ha a -> wf hb b ->
  exists ea ha' eb hb',
    EncodeBytes rt nil_slice a ha = Done ea ha' /\
    EncodeBytes rt nil_slice b hb = Done eb hb' /\
    bytes_Compare (bytes ha' ea) (bytes hb' eb)
    = bytes_Compare (bytes ha a) (bytes hb b).
Proof.
  intros Wa Wb.
  destruct (EncodeBytes_nil rt ha a Wa) as (xa & ea & ha' & Ena & Ea & _ & Ba).
  destruct (EncodeBytes_nil rt hb b Wb) as (xb & eb & hb' & Enb & Eb & _ & Bb).
  exists ea, ha', eb, hb'. split; [exact Ea|]. split; [exact Eb|].
  rewrite Ba, Bb, !bytes_Compare_lex.
  now rewrite (proj1 (encoded_order _ xa _ xb Ena Enb)).
Qed.

Lemma EncodeBytesDesc_of_nil (h : heap) (d : list byte) :
  exists e b' h',
    encoded d e /\ EncodeBytesDesc_of rt nil_slice d h = Done b' h' /\
    wf h' b' /\ bytes h' b' = map byte_not e.
Proof.
  destruct (EncodeBytesDesc_of_grows rt h nil_slice d (wf_nil h))
    as (e & b' & h' & En & E & (W & _ & B & _)).
  exists e, b', h'. repeat split; try assumption; try apply W.
Qed.

Lemma EncodeBytesDesc_nil (h : heap) (data : slice) :
  wf h data ->
  exists e b' h',
    encoded (bytes h data) e /\
    EncodeBytesDesc rt nil_slice data h = Done b' h' /\
    wf h' b' /\ bytes h' b' = map byte_not e.
Proof.
  intros Wd.
  rewrite (EncodeBytesDesc_apart rt h nil_slice data (wf_nil h) Wd
             (or_introl (apart_nil data))).
  apply EncodeBytesDesc_of_nil.
Qed.

(** C3: the three-way bytewise comparison of [a] and [b] is the negation of
    that of [EncodeBytesDesc([], a)] and [EncodeBytesDesc([], b)], for all
    byte strings [a] and [b], wherever they are stored. *)
Theorem EncodeBytesDesc_reverses_order (a b : slice) (ha hb : heap) :
  wf ha a -> wf hb b ->
  exists ea ha' eb hb',
    EncodeBytesDesc rt nil_slice a ha = Done ea ha' /\
    EncodeBytesDesc rt nil_slice b hb = Done eb hb' /\
    bytes_Compare (bytes ha a) (bytes hb b)
    = (- bytes_Compare (bytes ha' ea) (bytes hb' eb))%Z.
Proof.
  intros Wa Wb.
  destruct (EncodeBytesDesc_nil ha a Wa) as (xa & ea & ha' & Ena & Ea & _ & Ba).
  destruct (EncodeBytesDesc_nil hb b Wb) as (xb & eb & hb' & Enb & Eb & _ & Bb).
  exists ea, ha', eb, hb'. split; [exact Ea|]. split; [exact Eb|].
  rewrite Ba, Bb, !bytes_Compare_lex.
  rewrite (proj2 (encoded_order _ xa _ xb Ena Enb)).
  rewrite Z_of_comparison_opp. lia.
Qed.

End OrderClaims.

Lemma EncodeBytes_preserves_order_witness :
  exists ea ha' eb hb',
    EncodeBytes rt_amd64 nil_slice (mkSlice 0 1 3 3)
      [[x2a; x01; x02; x03]] = Done ea ha' /\
    EncodeBytes rt_amd64 nil_slice (mkSlice 0 0 9 9)
      [[x01; x02; x03; x00; x00; x00; x00; x00; x00]] = Done eb hb' /\
    bytes_Compare (bytes ha' ea) (bytes hb' eb) = (-1)%Z.
Proof.
  destruct (EncodeBytes_preserves_order rt_amd64
              (mkSlice 0 1 3 3) (mkSlice 0 0 9 9) [[x2a; x01; x02; x03]]
              [[x01; x02; x03; x00; x00; x00; x00; x00; x00]])
    as (ea & ha' & eb & hb' & Ea & Eb & C).
  - unfold wf. simpl. lia.
  - unfold wf. simpl. lia.
  - exists ea, ha', eb, hb'. split; [exact Ea|]. split; [exact Eb|exact C].
Defined.

Lemma EncodeBytesDesc_reverses_order_witness :
  exists ea ha' eb hb',
    EncodeBytesDesc rt_amd64 nil_slice (mkSlice 0 1 3 3)
      [[x2a; x01; x02; x03]] = Done ea ha' /\
    EncodeBytesDesc rt_amd64 nil_slice (mkSlice 0 0 9 9)
      [[x01; x02; x03; x00; x00; x00; x00; x00; x00]] = Done eb hb' /\
    bytes_Compare (bytes ha' ea) (bytes hb' eb) = 1%Z.
Proof.
  destruct (EncodeBytesDesc_reverses_order rt_amd64
              (mkSlice 0 1 3 3) (mkSlice 0 0 9 9) [[x2a; x01; x02; x03]]
              [[x01; x02; x03; x00; x00; x00; x00; x00; x00]])
    as (ea & ha' & eb & hb' & Ea & Eb & C).
  - unfold wf. simpl. lia.
  - unfold wf. simpl. lia.
  - exists ea, ha', eb, hb'. split; [exact Ea|]. split; [exact Eb|].
    change (bytes_Compare
              (bytes [[x2a; x01; x02; x03]] (mkSlice 0 1 3 3))
              (bytes [[x01; x02; x03; x00; x00; x00; x00; x00; x00]]
                     (mkSlice 0 0 9 9))) with (-1)%Z in C.
    lia.
Defined.

(** * Decoding *)

Section DecodeStep.

Context (rt : runtime).
Implicit Types (h : heap) (b s data : slice) (v xs : list byte).

Lemma to_N_byte_sub (x y : byte) :
  (Byte.to_N y <= Byte.to_N x)%N ->
  Byte.to_N (byte_sub x y) = (Byte.to_N x - Byte.to_N y)%N.
Proof.
  intros Hle. unfold byte_sub. rewrite to_N_byte_of_N.
  pose proof (Byte.to_N_bounded x).
  replace (Byte.to_N x + 256 - Byte.to_N y)%N
    with ((Byte.to_N x - Byte.to_N y) + 1 * 256)%N by lia.
  rewrite N.Div0.mod_add. apply N.mod_small. lia.
Qed.

(** The pad count and the real group size computed from a marker. *)
Lemma padCount_marker (marker : byte) :
  Byte.to_N (byte_sub encMarker marker) = (255 - Byte.to_N marker)%N.
Proof.
  pose proof (Byte.to_N_bounded marker).
  rewrite to_N_byte_sub; [reflexivity|]. change (Byte.to_N encMarker) with 255%N.
  lia.
Qed.

Lemma realGroupSize_marker (marker : byte) :
  byte_gtb (byte_sub encMarker marker) (byte_of_nat encGroupSize) = false ->
  nat_of_byte (byte_sub (byte_of_nat encGroupSize) (byte_sub encMarker marker))
  = 8 - nat_of_byte (byte_sub encMarker marker) /\
  nat_of_byte (byte_sub encMarker marker) <= 8.
Proof.
  unfold byte_gtb, nat_of_byte. intros Hg. apply N.ltb_ge in Hg.
  change (Byte.to_N (byte_of_nat encGroupSize)) with 8%N in *.
  rewrite to_N_byte_sub
    by (change (Byte.to_N (byte_of_nat encGroupSize)) with 8%N; lia).
  change (Byte.to_N (byte_of_nat encGroupSize)) with 8%N. lia.
Qed.

Lemma bytes_sub h b (lo n c : nat) :
  lo + n <= len b ->
  bytes h (mkSlice (ptr b) (off b + lo) n c) = take n (drop lo (bytes h b)).
Proof.
  intros Hl. unfold bytes. cbn [ptr off len cap].
  apply list_eq. intros j. rewrite !lookup_window.
  case_decide; [|reflexivity].
  case_decide; [|lia]. f_equal. lia.
Qed.

Lemma nth_bytes h b (i : nat) :
  i < len b ->
  nth (off b + i) (mem h (ptr b)) x00 = nth i (bytes h b) x00.
Proof.
  intros Hi. rewrite !nth_lookup. unfold bytes. rewrite lookup_window.
  case_decide; [reflexivity|lia].
Qed.

Lemma view_length rev h b : wf h b -> length (view rev h b) = len b.
Proof.
  intros Hwf. unfold view. destruct rev; rewrite ?length_map;
    now apply length_bytes.
Qed.

(** After the first group was read, the store shows the interpreted bytes
    in the first nine positions of [b] and the old bytes behind them. *)
Lemma bytes_touched rev h b :
  wf h b -> 9 <= len b ->
  bytes (touched rev h b 9) b = take 9 (view rev h b) ++ drop 9 (bytes h b).
Proof.
  intros Hwf Hl. pose proof (length_bytes h b Hwf) as HB.
  unfold touched, view. destruct rev.
  - unfold complemented. rewrite bytes_poke_prefix
      by (rewrite ?length_map, ?length_take; (assumption || lia)).
    rewrite length_map, length_take, HB.
    replace (9 `min` len b) with 9 by lia.
    now rewrite <- fmap_take.
  - now rewrite take_drop.
Qed.

Lemma wf_touched rev h b s (n : nat) :
  wf h b -> wf h s -> wf (touched rev h b n) s.
Proof.
  intros Hb [H1 H2]. unfold touched. destruct rev; [|now split].
  split; [assumption|]. now rewrite length_mem_complemented.
Qed.

Lemma bytes_touched_other rev h b s (n : nat) :
  ptr s <> ptr b -> bytes (touched rev h b n) s = bytes h s.
Proof.
  intros Hne. unfold touched. destruct rev; [|reflexivity].
  unfold complemented. apply bytes_poke_ne. congruence.
Qed.

Lemma reverse_group (rev : bool) h b :
  wf h b -> 9 <= len b ->
  (if rev then reverseBytes rt (mkSlice (ptr b) (off b + 0) (9 - 0) (cap b - 0))
   else ret tt) h
  = Done tt (touched rev h b 9).
Proof.
  intros Hwf Hl. pose proof Hwf as [H1 H2]. destruct rev; [|reflexivity].
  rewrite reverseBytes_spec by (unfold wf; cbn [ptr off len cap]; lia).
  cbn [ptr off]. rewrite bytes_sub by lia.
  unfold touched, complemented. now rewrite drop_0, Nat.add_0_r.
Qed.

End DecodeStep.

Section DecodeLoop.

Context (rt : runtime).
Implicit Types (h : heap) (b s data : slice) (v xs : list byte).

(** What a slice of the group being read shows, before and after the
    payload of the group was appended to the output. *)
Lemma group_window (rev : bool) h b (lo n c : nat) :
  wf h b -> 9 <= len b -> lo + n <= 9 ->
  bytes (touched rev h b 9) (mkSlice (ptr b) (off b + lo) n c)
  = take n (drop lo (view rev h b)).
Proof.
  intros Hwf Hl Hn. rewrite bytes_sub by lia. rewrite bytes_touched by assumption.
  pose proof (view_length rev h b Hwf) as Hv.
  apply list_eq. intros j. rewrite !lookup_window.
  case_decide; [|reflexivity].
  rewrite lookup_app_l by (rewrite length_take; lia).
  rewrite lookup_take. case_decide; [reflexivity|lia].
Qed.

Lemma group_window_poke (rev : bool) h b (p i : nat) xs (lo n c : nat) :
  wf h b -> 9 <= len b -> lo + n <= 9 -> p <> ptr b ->
  bytes (poke (touched rev h b 9) p i xs) (mkSlice (ptr b) (off b + lo) n c)
  = take n (drop lo (view rev h b)).
Proof.
  intros Hwf Hl Hn Hp. rewrite bytes_poke_ne by (cbn [ptr]; congruence).
  now apply group_window.
Qed.

Lemma marker_read (rev : bool) h b :
  wf h b -> 9 <= len b ->
  nth (off b + 8) (mem (touched rev h b 9) (ptr b)) x00
  = nth 8 (view rev h b) x00.
Proof.
  intros Hwf Hl. rewrite nth_bytes by lia. rewrite bytes_touched by assumption.
  pose proof (view_length rev h b Hwf) as Hv.
  rewrite !nth_lookup. rewrite lookup_app_l by (rewrite length_take; lia).
  rewrite lookup_take. case_decide; [reflexivity|lia].
Qed.

Lemma index_Done h b (i : nat) :
  i < len b -> index b i h = Done (nth (off b + i) (mem h (ptr b)) x00) h.
Proof.
  intros Hi. unfold index. destruct (Nat.ltb_spec i (len b)); [reflexivity|lia].
Qed.

Lemma contents_Done h b : contents b h = Done (bytes h b) h.
Proof. reflexivity. Qed.

Ltac run E :=
  rewrite (bind_Done _ _ _ _ _ E); cbv beta; cbn [ptr off len cap].

(** One iteration of the decoding loop on a buffer of at least nine
    bytes. *)
Lemma decode_step (fuel : nat) (rev : bool) b data h :
  wf h b -> wf h data -> ptr data <> ptr b ->
  len data + len b <= cap data -> 9 <= len b ->
  let v := view rev h b in
  let h1 := touched rev h b 9 in
  let marker := nth 8 v x00 in
  let padCount := byte_sub encMarker marker in
  let rgs := nat_of_byte (byte_sub (byte_of_nat encGroupSize) padCount) in
  let h2 := poke h1 (ptr data) (off data + len data) (take rgs v) in
  let data2 := mkSlice (ptr data) (off data) (len data + rgs) (cap data) in
  let b2 := mkSlice (ptr b) (off b + 9) (len b - 9) (cap b - 9) in
  decodeBytes_loop rt (S fuel) rev b data h
  = if byte_gtb padCount (byte_of_nat encGroupSize)
    then Done (inl (ErrInvalidMarker (take 9 v))) h1
    else if negb (Byte.eqb marker encMarker)
         then if negb (bytes_Count (take (8 - rgs) (drop rgs v)) encPad
                       =? nat_of_byte padCount)
              then Done (inl (ErrInvalidPadding (take 9 v))) h2
              else Done (inr (b2, data2)) h2
         else decodeBytes_loop rt fuel rev b2 data2 h2.
Proof.
  intros Hwf Hwd Hne Hcap Hl v h1 marker padCount rgs h2 data2 b2.
  pose proof Hwf as [Hb1 Hb2]. pose proof Hwd as [Hd1 Hd2].
  pose proof (view_length rev h b Hwf) as Hv. fold v in Hv.
  cbn [decodeBytes_loop]. unfold encGroupSize in *. change (8 + 1) with 9.
  destruct (Nat.ltb_spec (len b) 9) as [|_]; [lia|].
  run (reslice_Done h b 0 9 ltac:(lia) ltac:(lia)).
  run (reverse_group rt rev h b Hwf Hl). fold h1.
  run (reslice_Done h1 (mkSlice (ptr b) (off b + 0) (9 - 0) (cap b - 0)) 0 8
         ltac:(lia) ltac:(cbn [cap]; lia)).
  run (index_Done h1 (mkSlice (ptr b) (off b + 0) (9 - 0) (cap b - 0)) 8
         ltac:(cbn [len]; lia)).
  rewrite !Nat.add_0_r, !Nat.sub_0_r.
  assert (Hmk : nth (off b + 8) (mem h1 (ptr b)) x00 = marker)
    by (now apply marker_read).
  rewrite !Hmk. fold padCount. fold rgs.
  destruct (byte_gtb padCount (byte_of_nat 8)) eqn:Hgt.
  { run (contents_Done h1 (mkSlice (ptr b) (off b) 9 (cap b))).
    unfold ret. do 3 f_equal.
    unfold h1. rewrite <- (Nat.add_0_r (off b)).
    rewrite group_window by (assumption || lia). now rewrite drop_0. }
  destruct (realGroupSize_marker marker Hgt) as [Hr Hp].
  change (rgs = 8 - nat_of_byte padCount) in Hr.
  change (nat_of_byte padCount <= 8) in Hp.
  assert (Hrl : length (take rgs v) = rgs) by (rewrite length_take; lia).
  run (reslice_Done h1 (mkSlice (ptr b) (off b) 8 (cap b)) 0 rgs
         ltac:(lia) ltac:(cbn [cap]; lia)).
  rewrite !Nat.sub_0_r.
  run (contents_Done h1 (mkSlice (ptr b) (off b + 0) rgs (cap b))).
  unfold h1 at 1. rewrite group_window by (assumption || lia).
  rewrite drop_0. fold v h1.
  run (append_inplace rt h1 data (take rgs v) ltac:(lia)).
  rewrite Hrl. fold h2 data2.
  run (reslice_Done h2 b 9 (len b) ltac:(lia) ltac:(lia)). fold b2.
  destruct (negb (Byte.eqb marker encMarker)); [|reflexivity].
  run (reslice_Done h2 (mkSlice (ptr b) (off b) 8 (cap b)) rgs 8
         ltac:(lia) ltac:(cbn [cap]; lia)).
  run (contents_Done h2 (mkSlice (ptr b) (off b + rgs) (8 - rgs) (cap b - rgs))).
  unfold h2 at 1, h1 at 1.
  rewrite group_window_poke by (assumption || lia). fold v.
  destruct (negb (bytes_Count (take (8 - rgs) (drop rgs v)) encPad
                  =? nat_of_byte padCount)); [|reflexivity].
  run (contents_Done h2 (mkSlice (ptr b) (off b) 9 (cap b))).
  unfold ret. do 3 f_equal.
  unfold h2, h1. rewrite <- (Nat.add_0_r (off b)).
  rewrite group_window_poke by (assumption || lia). now rewrite drop_0.
Qed.

End DecodeLoop.

Section DecodeSpec.

Context (rt : runtime).
Implicit Types (h : heap) (b s data : slice) (v xs : list byte).

(** The bytes behind the first group, as the next iteration sees them. *)
Lemma view_rest (rev : bool) h b (p i : nat) xs :
  wf h b -> 9 <= len b -> p <> ptr b ->
  view rev (poke (touched rev h b 9) p i xs)
       (mkSlice (ptr b) (off b + 9) (len b - 9) (cap b - 9))
  = drop 9 (view rev h b).
Proof.
  intros Hwf Hl Hp. pose proof (length_bytes h b Hwf) as HB.
  pose proof (view_length rev h b Hwf) as Hv.
  assert (E : bytes (poke (touched rev h b 9) p i xs)
                (mkSlice (ptr b) (off b + 9) (len b - 9) (cap b - 9))
              = drop 9 (bytes h b)).
  { rewrite bytes_poke_ne by (cbn [ptr]; congruence).
    rewrite bytes_sub by lia. rewrite bytes_touched by assumption.
    rewrite drop_app_length' by (rewrite length_take; lia).
    apply take_ge. rewrite length_drop. lia. }
  unfold view at 1. rewrite E. unfold view.
  destruct rev; [now rewrite fmap_drop|reflexivity].
Qed.

(** Composition of the effects of one iteration with those of the rest of
    the loop. *)
Lemma touched_compose (rev : bool) h b data xs ys (k : nat) :
  wf h b -> wf h data -> ptr data <> ptr b ->
  9 + 9 * k <= len b -> len data + length xs <= cap data ->
  let h2 := poke (touched rev h b 9) (ptr data) (off data + len data) xs in
  let b2 := mkSlice (ptr b) (off b + 9) (len b - 9) (cap b - 9) in
  poke (touched rev h2 b2 (9 * k)) (ptr data)
       (off data + (len data + length xs)) ys
  = poke (touched rev h b (9 * S k)) (ptr data) (off data + len data)
         (xs ++ ys).
Proof.
  intros Hwf Hwd Hne Hk Hx h2 b2. pose proof Hwd as [Hd1 Hd2].
  pose proof (length_bytes h b Hwf) as HB.
  assert (Hb2 : bytes h2 b2 = drop 9 (bytes h b)).
  { pose proof (view_rest false h b (ptr data) (off data + len data) xs
                  Hwf ltac:(lia) Hne) as E.
    unfold view, touched in E. unfold h2, b2.
    destruct rev; [|exact E].
    unfold touched. rewrite bytes_poke_ne by (cbn [ptr]; congruence).
    rewrite bytes_sub by lia. unfold complemented.
    rewrite bytes_poke_prefix
      by (rewrite ?length_map, ?length_take; (assumption || lia)).
    rewrite length_map, length_take, HB.
    replace (9 `min` len b) with 9 by lia.
    rewrite drop_app_length' by (rewrite length_map, length_take; lia).
    apply take_ge. rewrite length_drop. lia. }
  rewrite Nat.add_assoc.
  destruct rev; unfold touched.
  - unfold complemented at 1. rewrite Hb2. unfold b2 at 1 2. cbn [ptr off].
    unfold h2, touched.
    rewrite poke_comm by congruence.
    replace (9 * S k) with (9 + 9 * k) by lia.
    rewrite poke_poke_app
      by (rewrite length_mem_complemented by assumption; lia).
    rewrite poke_comm by congruence.
    now rewrite complemented_write by (assumption || lia).
  - unfold h2, touched. apply poke_poke_app. lia.
Qed.

(** [decodeBytes_loop] computes [decode_groups] on the interpreted bytes:
    it returns, its result is the error or the two slices, and the store is
    the initial one with the groups read complemented in place (descending
    decode only) and the payload written behind the output slice. *)
Lemma decodeBytes_loop_spec (fuel : nat) (rev : bool) b data h :
  wf h b -> wf h data -> ptr data <> ptr b ->
  len data + len b <= cap data -> len b < fuel ->
  exists k out err,
    decode_groups fuel (view rev h b) = (k, out, err) /\
    9 * k <= len b /\
    decodeBytes_loop rt fuel rev b data h
    = Done (match err with
            | Some e => inl e
            | None =>
                inr (mkSlice (ptr b) (off b + 9 * k) (len b - 9 * k)
                             (cap b - 9 * k),
                     mkSlice (ptr data) (off data) (len data + length out)
                             (cap data))
            end)
           (poke (touched rev h b (9 * k)) (ptr data) (off data + len data)
                 out).
Proof.
  revert b data h. induction fuel as [|fuel IH];
    intros b data h Hwf Hwd Hne Hcap Hf; [lia|].
  pose proof (view_length rev h b Hwf) as Hv.
  pose proof Hwf as [Hb1 Hb2]. pose proof Hwd as [Hd1 Hd2].
  destruct (Nat.lt_ge_cases (len b) 9) as [Hl|Hl].
  { exists 0, [], (Some ErrInsufficientBytes).
    cbn [decode_groups decodeBytes_loop]. unfold encGroupSize.
    change (8 + 1) with 9. rewrite Hv.
    destruct (Nat.ltb_spec (len b) 9) as [_|]; [|lia].
    split; [reflexivity|]. split; [lia|].
    rewrite poke_nil. unfold ret, touched.
    destruct rev; [now rewrite complemented_0|reflexivity]. }
  rewrite decode_step by assumption.
  cbn [decode_groups]. unfold encGroupSize. change (8 + 1) with 9. rewrite Hv.
  destruct (Nat.ltb_spec (len b) 9) as [|_]; [lia|].
  set (v := view rev h b) in *.
  set (marker := nth 8 v x00).
  set (padCount := byte_sub encMarker marker).
  set (rgs := nat_of_byte (byte_sub (byte_of_nat 8) padCount)).
  destruct (byte_gtb padCount (byte_of_nat 8)) eqn:Hgt.
  { exists 1, [], (Some (ErrInvalidMarker (take 9 v))).
    split; [reflexivity|]. split; [lia|]. now rewrite poke_nil. }
  destruct (realGroupSize_marker marker Hgt) as [Hr Hp].
  change (rgs = 8 - nat_of_byte padCount) in Hr.
  change (nat_of_byte padCount <= 8) in Hp.
  assert (Hrl : length (take rgs v) = rgs) by (rewrite length_take; lia).
  destruct (negb (Byte.eqb marker encMarker)).
  { destruct (negb (bytes_Count (take (8 - rgs) (drop rgs v)) encPad
                    =? nat_of_byte padCount)).
    - exists 1, (take rgs v), (Some (ErrInvalidPadding (take 9 v))).
      split; [reflexivity|]. split; [lia|reflexivity].
    - exists 1, (take rgs v), None.
      split; [reflexivity|]. split; [lia|]. now rewrite Hrl. }
  set (h2 := poke (touched rev h b 9) (ptr data) (off data + len data)
                  (take rgs v)).
  set (b2 := mkSlice (ptr b) (off b + 9) (len b - 9) (cap b - 9)).
  set (data2 := mkSlice (ptr data) (off data) (len data + rgs) (cap data)).
  assert (Hw2 : wf h2 b2).
  { unfold wf, b2, h2. cbn [ptr off len cap].
    rewrite mem_poke_ne by assumption.
    pose proof (wf_touched rev h b b 9 Hwf Hwf) as [_ K]. lia. }
  assert (Hwd2 : wf h2 data2).
  { unfold wf, data2, h2. cbn [ptr off len cap].
    pose proof (wf_touched rev h b data 9 Hwf Hwd) as [_ K].
    rewrite length_mem_poke by lia. lia. }
  destruct (IH b2 data2 h2 Hw2 Hwd2 Hne)
    as (k & out & err & Ed & Hk & El);
    [unfold data2, b2; cbn [len cap]; lia..|].
  assert (Ev : view rev h2 b2 = drop 9 v)
    by (apply view_rest; assumption).
  rewrite Ev in Ed. rewrite Ed.
  exists (S k), (take rgs v ++ out), err.
  split; [reflexivity|].
  unfold b2 in Hk. cbn [len] in Hk.
  split; [lia|].
  rewrite El. f_equal.
  - destruct err; [reflexivity|].
    unfold b2, data2. cbn [ptr off len cap]. rewrite length_app, Hrl.
    replace (off b + 9 + 9 * k) with (off b + 9 * S k) by lia.
    replace (len b - 9 - 9 * k) with (len b - 9 * S k) by lia.
    replace (cap b - 9 - 9 * k) with (cap b - 9 * S k) by lia.
    now rewrite Nat.add_assoc.
  - unfold data2. cbn [ptr off len cap]. rewrite <- Hrl at 1.
    apply touched_compose; (assumption || lia).
Qed.

End DecodeSpec.

(** * The group decoder on byte strings *)

Section DecodeGroups.

Implicit Types (g d e t v out : list byte).

Lemma nth_group g (m : byte) t : length g = 8 -> nth 8 (g ++ m :: t) x00 = m.
Proof.
  intros Hg. rewrite nth_lookup, lookup_app_r by lia.
  now rewrite Hg, Nat.sub_diag.
Qed.

Lemma drop_group g (m : byte) t : length g = 8 -> drop 9 (g ++ m :: t) = t.
Proof.
  intros Hg. change (g ++ m :: t) with (g ++ [m] ++ t).
  rewrite app_assoc. apply drop_app_length'.
  rewrite length_app, Hg. reflexivity.
Qed.

Lemma bytes_Count_le v (c : byte) : bytes_Count v c <= length v.
Proof.
  induction v as [|x v IH]; cbn [bytes_Count length]; [lia|].
  destruct (Byte.eqb x c); lia.
Qed.

Lemma bytes_Count_all v (c : byte) :
  bytes_Count v c = length v -> v = replicate (length v) c.
Proof.
  induction v as [|x v IH]; cbn [bytes_Count length replicate]; [reflexivity|].
  pose proof (bytes_Count_le v c) as Hle.
  destruct (Byte.eqb x c) eqn:E; [|lia].
  intros Hc. apply Byte.byte_dec_bl in E. subst x. f_equal. apply IH. lia.
Qed.

Lemma bytes_Count_replicate (n : nat) (c : byte) :
  bytes_Count (replicate n c) c = n.
Proof.
  induction n as [|n IH]; cbn [bytes_Count replicate]; [reflexivity|].
  rewrite (Byte.byte_dec_lb (eq_refl c)). lia.
Qed.

(** A group with marker 255 is passed on whole and decoding goes on. *)
Lemma decode_groups_more (fuel : nat) g t :
  length g = 8 ->
  decode_groups (S fuel) (g ++ encMarker :: t)
  = let '(k, out, err) := decode_groups fuel t in (S k, g ++ out, err).
Proof.
  intros Hg. cbn [decode_groups]. unfold encGroupSize. change (8 + 1) with 9.
  destruct (Nat.ltb_spec (length (g ++ encMarker :: t)) 9) as [Hl|_];
    [rewrite length_app in Hl; cbn in Hl; lia|].
  rewrite nth_group, drop_group by assumption.
  change (byte_gtb (byte_sub encMarker encMarker) (byte_of_nat 8)) with false.
  change (negb (Byte.eqb encMarker encMarker)) with false.
  change (nat_of_byte (byte_sub (byte_of_nat 8) (byte_sub encMarker encMarker)))
    with 8.
  cbv iota. now rewrite take_app_length' by lia.
Qed.

(** The marker of a last group with [n] data bytes. *)
Lemma marker_last (n : nat) :
  n < 8 ->
  let m := byte_sub encMarker (byte_of_nat (8 - n)) in
  byte_gtb (byte_sub encMarker m) (byte_of_nat 8) = false /\
  Byte.eqb m encMarker = false /\
  nat_of_byte (byte_sub encMarker m) = 8 - n /\
  nat_of_byte (byte_sub (byte_of_nat 8) (byte_sub encMarker m)) = n.
Proof.
  intros Hn.
  do 8 (destruct n as [|n]; [vm_compute; repeat split|]). lia.
Qed.

Lemma decode_groups_last (fuel : nat) d t :
  length d < 8 ->
  decode_groups (S fuel)
    (d ++ replicate (8 - length d) encPad
       ++ byte_sub encMarker (byte_of_nat (8 - length d)) :: t)
  = (1, d, None).
Proof.
  intros Hd. destruct (marker_last (length d) Hd) as (M1 & M2 & M3 & M4).
  cbv zeta in *.
  set (m := byte_sub encMarker (byte_of_nat (8 - length d))) in *.
  rewrite app_assoc.
  assert (Hg : length (d ++ replicate (8 - length d) encPad) = 8)
    by (rewrite length_app, length_replicate; lia).
  cbn [decode_groups]. unfold encGroupSize. change (8 + 1) with 9.
  destruct (Nat.ltb_spec
              (length ((d ++ replicate (8 - length d) encPad) ++ m :: t)) 9)
    as [Hl|_]; [rewrite length_app in Hl; cbn in Hl; lia|].
  rewrite nth_group by assumption. rewrite M1, M2, M3, M4. cbn [negb].
  rewrite <- !app_assoc.
  rewrite take_app_length, drop_app_length.
  rewrite take_app_length' by (now rewrite length_replicate).
  rewrite bytes_Count_replicate, Nat.eqb_refl. reflexivity.
Qed.

(** Decoding an encoding followed by any bytes: the payload, and exactly
    the bytes of the encoding are read. *)
Lemma decode_groups_encoded d e :
  encoded d e ->
  forall t (fuel : nat),
    length e < 9 * fuel ->
    exists k, 9 * k = length e /\ decode_groups fuel (e ++ t) = (k, d, None).
Proof.
  induction 1 as [d Hd|g d e Hg He IH]; intros t fuel Hf.
  - destruct fuel as [|fuel]; [lia|]. exists 1. unfold encGroupSize in *. split.
    + rewrite !length_app, length_replicate. cbn [length]. lia.
    + rewrite <- !app_assoc. cbn [app]. now apply decode_groups_last.
  - destruct fuel as [|fuel]; [lia|]. unfold encGroupSize in *.
    rewrite !length_app in Hf. cbn [length] in Hf.
    destruct (IH t fuel ltac:(lia)) as (k & Hk & Ek).
    exists (S k). split.
    + rewrite !length_app. cbn [length]. lia.
    + rewrite <- !app_assoc. cbn [app].
      rewrite decode_groups_more by assumption. now rewrite Ek.
Qed.

(** What the decoder accepts is an encoding of what it returns. *)
Lemma decode_groups_canonical (fuel : nat) v (k : nat) out :
  decode_groups fuel v = (k, out, None) -> length v < 9 * fuel ->
  exists e, encoded out e /\ length e = 9 * k /\ v = e ++ drop (9 * k) v.
Proof.
  revert v k out. induction fuel as [|fuel IH]; intros v k out E Hf; [lia|].
  cbn [decode_groups] in E. unfold encGroupSize in E. change (8 + 1) with 9 in E.
  destruct (Nat.ltb_spec (length v) 9) as [|Hl]; [discriminate|].
  set (marker := nth 8 v x00) in *.
  set (padCount := byte_sub encMarker marker) in *.
  set (rgs := nat_of_byte (byte_sub (byte_of_nat 8) padCount)) in *.
  destruct (byte_gtb padCount (byte_of_nat 8)) eqn:Hgt; [discriminate|].
  destruct (realGroupSize_marker marker Hgt) as [Hr Hp].
  change (rgs = 8 - nat_of_byte padCount) in Hr.
  change (nat_of_byte padCount <= 8) in Hp.
  assert (Hv : v = take 8 v ++ marker :: drop 9 v).
  { rewrite <- (take_drop 8 v) at 1. f_equal.
    destruct (lookup_lt_is_Some_2 v 8 ltac:(lia)) as [x Hx].
    rewrite (drop_S _ _ _ Hx). f_equal.
    unfold marker. rewrite nth_lookup, Hx. reflexivity. }
  assert (Hg : length (take 8 v) = 8) by (rewrite length_take; lia).
  pose proof (padCount_marker marker) as Hpm. fold padCount in Hpm.
  destruct (Byte.eqb marker encMarker) eqn:Hm; cbn [negb] in E.
  - apply Byte.byte_dec_bl in Hm.
    assert (rgs = 8) as Hr8.
    { unfold nat_of_byte in Hr. rewrite Hr, Hpm, Hm.
      change (Byte.to_N encMarker) with 255%N. lia. }
    destruct (decode_groups fuel (drop 9 v)) as [[k' out'] err'] eqn:Ed.
    injection E as <- <- ->.
    destruct (IH (drop 9 v) k' out' Ed) as (e' & En & Le & Ev).
    { rewrite length_drop. lia. }
    exists (take 8 v ++ [encMarker] ++ e'). rewrite Hr8. split; [|split].
    + apply encoded_more; assumption.
    + rewrite !length_app, Hg, Le. cbn [length]. lia.
    + rewrite Hv at 1. rewrite Hm. rewrite <- !app_assoc. cbn [app].
      do 2 f_equal. rewrite Ev at 1. f_equal.
      rewrite drop_drop. f_equal. lia.
  - destruct (Nat.eqb_spec
                (bytes_Count (take (8 - rgs) (drop rgs v)) encPad)
                (nat_of_byte padCount)) as [Hc|]; [|discriminate].
    cbn [negb] in E. injection E as <- <-.
    assert (Hne : Byte.to_N marker <> 255%N).
    { intros Hx. apply Byte.eqb_false in Hm. apply Hm.
      apply to_N_inj. now rewrite Hx. }
    pose proof (Byte.to_N_bounded marker) as Hmb.
    assert (Hpc : nat_of_byte padCount = 8 - rgs) by lia.
    assert (Hrgs : rgs < 8) by (unfold nat_of_byte in *; lia).
    assert (Hlt : length (take rgs v) = rgs) by (rewrite length_take; lia).
    assert (Hpad : take (8 - rgs) (drop rgs v) = replicate (8 - rgs) encPad).
    { rewrite Hpc in Hc.
      assert (Hlp : length (take (8 - rgs) (drop rgs v)) = 8 - rgs)
        by (rewrite length_take, length_drop; lia).
      rewrite <- Hlp in Hc at 2. apply bytes_Count_all in Hc.
      now rewrite Hlp in Hc. }
    assert (Hmk : marker
                  = byte_sub encMarker (byte_of_nat (8 - length (take rgs v)))).
    { apply to_N_inj. rewrite to_N_marker by lia. rewrite Hlt.
      unfold nat_of_byte in *. lia. }
    exists (take rgs v ++ replicate (encGroupSize - length (take rgs v)) encPad
              ++ [byte_sub encMarker
                    (byte_of_nat (encGroupSize - length (take rgs v)))]).
    split; [|split].
    + apply encoded_last. unfold encGroupSize. lia.
    + unfold encGroupSize. rewrite !length_app, length_replicate, Hlt.
      cbn [length]. lia.
    + unfold encGroupSize. rewrite <- Hmk, Hlt, <- Hpad.
      rewrite <- !app_assoc. cbn [app]. rewrite Nat.mul_1_r.
      rewrite (app_assoc (take rgs v)), take_take_drop.
      replace (rgs + (8 - rgs)) with 8 by lia. exact Hv.
Qed.

End DecodeGroups.

Section DecodeBytesSpec.

Context (rt : runtime).
Implicit Types (h : heap) (b s data : slice) (v xs out : list byte).

Lemma length_touched (rev : bool) h b (n : nat) :
  length (touched rev h b n) = length h.
Proof. unfold touched. destruct rev; [apply length_complemented|reflexivity]. Qed.

Lemma wf_app_old h s (a : list byte) : wf h s -> wf (h ++ [a]) s.
Proof.
  intros [H1 H2]. split; [assumption|].
  destruct (decide (ptr s < length h)) as [Hp|Hp].
  - now rewrite mem_app_old.
  - rewrite mem_ge in H2 by lia. cbn in H2. lia.
Qed.

Lemma touched_app_old (rev : bool) h b (a : list byte) (n : nat) :
  wf h b -> ptr b < length h ->
  touched rev (h ++ [a]) b n = touched rev h b n ++ [a].
Proof.
  intros Hwf Hp. unfold touched. destruct rev; [|reflexivity].
  unfold complemented. rewrite bytes_app_old by assumption.
  now apply poke_app_old.
Qed.

Lemma poke_last (H : heap) (a out : list byte) (n : nat) :
  n = length H ->
  poke (H ++ [a]) n 0 out = H ++ [out ++ drop (length out) a].
Proof.
  intros ->. unfold poke. rewrite mem_app_new.
  rewrite insert_app_r_alt by reflexivity. rewrite Nat.sub_diag.
  cbn [insert list_insert]. now rewrite take_0.
Qed.

(** What [decodeBytes] returns and what it leaves in the store. *)
Lemma decodeBytes_spec (rev : bool) b h :
  wf h b ->
  exists k out err,
    decode_groups (S (len b)) (view rev h b) = (k, out, err) /\
    9 * k <= len b /\
    decodeBytes rt b rev h
    = Done (match err with
            | Some e => inl e
            | None =>
                inr (mkSlice (ptr b) (off b + 9 * k) (len b - 9 * k)
                             (cap b - 9 * k),
                     mkSlice (length h) 0 (length out) (len b))
            end)
           (touched rev h b (9 * k)
              ++ [out ++ replicate (len b - length out) x00]).
Proof.
  intros Hwf. pose proof Hwf as [H1 H2].
  pose proof (view_length rev h b Hwf) as Hv.
  unfold decodeBytes.
  assert (Em : make 0 (len b) h
               = Done (mkSlice (length h) 0 0 (len b))
                      (h ++ [replicate (len b) x00])) by reflexivity.
  rewrite (bind_Done _ _ _ _ _ Em).
  destruct (Nat.lt_ge_cases (len b) 9) as [Hl|Hl].
  { exists 0, [], (Some ErrInsufficientBytes).
    cbn [decode_groups decodeBytes_loop]. unfold encGroupSize.
    change (8 + 1) with 9. rewrite Hv.
    destruct (Nat.ltb_spec (len b) 9) as [_|]; [|lia].
    split; [reflexivity|]. split; [lia|].
    unfold ret. cbn [length app]. rewrite Nat.sub_0_r. f_equal. f_equal.
    unfold touched. destruct rev; [now rewrite complemented_0|reflexivity]. }
  assert (Hp : ptr b < length h) by (apply wf_ptr_lt; [assumption|lia]).
  set (h0 := h ++ [replicate (len b) x00]).
  set (data0 := mkSlice (length h) 0 0 (len b)).
  assert (Hw0 : wf h0 b) by (now apply wf_app_old).
  assert (Hwd : wf h0 data0).
  { unfold wf, data0, h0. cbn [ptr off len cap].
    rewrite mem_app_new, length_replicate. lia. }
  destruct (decodeBytes_loop_spec rt (S (len b)) rev b data0 h0 Hw0 Hwd)
    as (k & out & err & Ed & Hk & El);
    [unfold data0; cbn [ptr len cap]; lia..|].
  assert (Ev : view rev h0 b = view rev h b)
    by (unfold view, h0; now rewrite bytes_app_old).
  rewrite Ev in Ed. exists k, out, err.
  split; [exact Ed|]. split; [exact Hk|].
  rewrite El. unfold data0. cbn [ptr off len cap Nat.add]. f_equal.
  unfold h0. rewrite touched_app_old by assumption.
  rewrite poke_last by (now rewrite length_touched).
  now rewrite drop_replicate.
Qed.

Lemma decode_groups_bounds (fuel : nat) v (k : nat) out (err : option error) :
  decode_groups (S fuel) v = (k, out, err) ->
  (9 <= length v -> 1 <= k) /\ (err = None -> 1 <= k).
Proof.
  cbn [decode_groups]. unfold encGroupSize. change (8 + 1) with 9.
  destruct (Nat.ltb_spec (length v) 9) as [Hl|Hl].
  { intros E. injection E as <- <- <-. split; (lia || discriminate). }
  destruct (byte_gtb _ _) eqn:Hgt.
  { intros E. injection E as <- <- <-. split; lia. }
  destruct (negb (Byte.eqb _ _)).
  - destruct (negb (_ =? _)); intros E; injection E as <- <- <-; split; lia.
  - destruct (decode_groups fuel (drop 9 v)) as [[k' out'] err'].
    intros E. injection E as <- <- <-. split; lia.
Qed.

End DecodeBytesSpec.

Section RoundTrip.

Context (rt : runtime).
Implicit Types (h : heap) (b s data : slice) (d e t v xs out : list byte).

Lemma mem_app_new' (H : heap) (a : list byte) (n : nat) :
  n = length H -> mem (H ++ [a]) n = a.
Proof. intros ->. apply mem_app_new. Qed.

(** The slices returned by a decode, read in the final store. *)
Lemma decodeBytes_result (rev : bool) h b (k : nat) out :
  wf h b -> 9 * k <= len b ->
  let h' := touched rev h b (9 * k)
              ++ [out ++ replicate (len b - length out) x00] in
  bytes h' (mkSlice (length h) 0 (length out) (len b)) = out /\
  bytes h' (mkSlice (ptr b) (off b + 9 * k) (len b - 9 * k) (cap b - 9 * k))
  = drop (9 * k) (bytes h b) /\
  bytes h' b
  = (if rev then map byte_not (take (9 * k) (bytes h b))
     else take (9 * k) (bytes h b)) ++ drop (9 * k) (bytes h b).
Proof.
  intros Hwf Hk h'. pose proof Hwf as [H1 H2].
  pose proof (length_bytes h b Hwf) as HB.
  assert (Hwt : wf (touched rev h b (9 * k)) b) by (now apply wf_touched).
  split; [|split].
  - unfold bytes, h'. cbn [ptr off len cap].
    rewrite mem_app_new' by (now rewrite length_touched).
    rewrite drop_0. apply take_app_length.
  - unfold h'. rewrite bytes_app_old
      by (apply wf_reslice with (hi := len b); (assumption || lia)).
    assert (E : bytes (touched rev h b (9 * k))
                  (mkSlice (ptr b) (off b + 9 * k) (len b - 9 * k)
                           (cap b - 9 * k))
                = bytes h (mkSlice (ptr b) (off b + 9 * k) (len b - 9 * k)
                                   (cap b - 9 * k))).
    { unfold touched. destruct rev; [|reflexivity].
      unfold complemented. apply bytes_poke_disjoint.
      - rewrite length_map, length_take, HB. lia.
      - right. cbn [off]. rewrite length_map, length_take, HB. lia. }
    rewrite E, bytes_sub by lia. apply take_ge. rewrite length_drop. lia.
  - unfold h'. rewrite bytes_app_old by assumption.
    unfold touched. destruct rev; [|now rewrite take_drop].
    unfold complemented. rewrite bytes_poke_prefix
      by (rewrite ?length_map, ?length_take; (assumption || lia)).
    rewrite length_map, length_take, HB. do 2 f_equal. lia.
Qed.

(** Decoding a buffer that the decoder interprets as an encoding of [d]
    followed by further bytes. *)
Lemma decodeBytes_encoded (rev : bool) h b d e v :
  wf h b -> encoded d e -> view rev h b = e ++ v ->
  exists rest data h',
    decodeBytes rt b rev h = Done (inr (rest, data)) h' /\
    bytes h' rest = drop (length e) (bytes h b) /\
    bytes h' data = d.
Proof.
  intros Hwf En Ev.
  pose proof (view_length rev h b Hwf) as Hv.
  destruct (decodeBytes_spec rt rev b h Hwf) as (k & out & err & Ed & Hk & E).
  destruct (decode_groups_encoded d e En v (S (len b))) as (k' & Hk' & Ed').
  { rewrite <- Hv, Ev, length_app. lia. }
  rewrite Ev, Ed' in Ed. injection Ed as <- <- <-.
  destruct (decodeBytes_result rev h b k' d Hwf Hk) as (R1 & R2 & _).
  eexists _, _, _. split; [exact E|].
  split; [now rewrite R2, Hk'|exact R1].
Qed.

(** C2: [DecodeBytes] applied to [EncodeBytes([], d)] followed by any
    bytes [t] returns without error, with remainder [t] and payload [d]:
    for the buffer that [append] makes of the two, and for every buffer
    that holds these bytes.  [d] is the content of any well-formed slice
    [src]. *)
Theorem DecodeBytes_EncodeBytes (src : slice) (t : list byte) (h0 : heap) :
  wf h0 src ->
  exists r h1 buf h2 rest data h3,
    EncodeBytes rt nil_slice src h0 = Done r h1 /\
    append rt r t h1 = Done buf h2 /\
    DecodeBytes rt buf h2 = Done (inr (rest, data)) h3 /\
    bytes h3 rest = t /\
    bytes h3 data = bytes h0 src /\
    forall h b,
      wf h b -> bytes h b = bytes h1 r ++ t ->
      exists rest' data' h',
        DecodeBytes rt b h = Done (inr (rest', data')) h' /\
        bytes h' rest' = t /\
        bytes h' data' = bytes h0 src.
Proof.
  intros Ws.
  destruct (EncodeBytes_nil rt h0 src Ws) as (e & r & h1 & En & E1 & W1 & B1).
  destruct (append_grows rt h1 r t W1) as (buf & h2 & E2 & (W2 & _ & B2 & _)).
  assert (G : forall h b,
             wf h b -> bytes h b = e ++ t ->
             exists rest' data' h',
               DecodeBytes rt b h = Done (inr (rest', data')) h' /\
               bytes h' rest' = t /\ bytes h' data' = bytes h0 src).
  { intros h b Hwf Hb.
    destruct (decodeBytes_encoded false h b _ e t Hwf En Hb)
      as (rest & data & h' & E & R & D).
    exists rest, data, h'. split; [exact E|]. split; [|exact D].
    now rewrite R, Hb, drop_app_length. }
  rewrite B1 in B2. destruct (G h2 buf W2 B2) as (rest & data & h3 & E3 & R & D).
  exists r, h1, buf, h2, rest, data, h3. rewrite B1.
  repeat (split; [assumption|]). exact G.
Qed.

(** C4: [DecodeBytesDesc] applied to [EncodeBytesDesc([], d)] returns
    without error, with an empty remainder and payload [d]; [d] is the
    content of any well-formed slice [src]. *)
Theorem DecodeBytesDesc_EncodeBytesDesc (src : slice) (h0 : heap) :
  wf h0 src ->
  exists r h1 rest data h2,
    EncodeBytesDesc rt nil_slice src h0 = Done r h1 /\
    DecodeBytesDesc rt r h1 = Done (inr (rest, data)) h2 /\
    bytes h2 rest = [] /\
    bytes h2 data = bytes h0 src.
Proof.
  intros Ws.
  destruct (EncodeBytesDesc_nil rt h0 src Ws)
    as (e & r & h1 & En & E1 & W1 & B1).
  assert (Ev : view true h1 r = e ++ []).
  { unfold view. now rewrite B1, map_byte_not_involutive, app_nil_r. }
  destruct (decodeBytes_encoded true h1 r _ e [] W1 En Ev)
    as (rest & data & h2 & E & R & D).
  exists r, h1, rest, data, h2.
  split; [exact E1|]. split; [exact E|]. split; [|exact D].
  rewrite R, B1. rewrite <- (length_map byte_not e).
  apply drop_all.
Qed.

End RoundTrip.

Lemma DecodeBytes_EncodeBytes_witness :
  exists r h1 buf h2 rest data h3,
    EncodeBytes rt_amd64 nil_slice (mkSlice 0 1 3 3) [[x63; x01; x02; x03]]
    = Done r h1 /\
    append rt_amd64 r [x2a; x2b] h1 = Done buf h2 /\
    DecodeBytes rt_amd64 buf h2 = Done (inr (rest, data)) h3 /\
    bytes h3 rest = [x2a; x2b] /\
    bytes h3 data = [x01; x02; x03].
Proof.
  destruct (DecodeBytes_EncodeBytes rt_amd64 (mkSlice 0 1 3 3) [x2a; x2b]
              [[x63; x01; x02; x03]])
    as (r & h1 & buf & h2 & rest & data & h3 & E1 & E2 & E3 & R & D & _).
  - unfold wf. simpl. lia.
  - exists r, h1, buf, h2, rest, data, h3.
    split; [exact E1|]. split; [exact E2|]. split; [exact E3|].
    split; [exact R|exact D].
Defined.

Lemma DecodeBytesDesc_EncodeBytesDesc_witness :
  exists r h1 rest data h2,
    EncodeBytesDesc rt_amd64 nil_slice (mkSlice 0 1 3 3)
      [[x63; x01; x02; x03]]
    = Done r h1 /\
    DecodeBytesDesc rt_amd64 r h1 = Done (inr (rest, data)) h2 /\
    bytes h2 rest = [] /\
    bytes h2 data = [x01; x02; x03].
Proof.
  destruct (DecodeBytesDesc_EncodeBytesDesc rt_amd64 (mkSlice 0 1 3 3)
              [[x63; x01; x02; x03]])
    as (r & h1 & rest & data & h2 & E1 & E2 & R & D).
  - unfold wf. simpl. lia.
  - exists r, h1, rest, data, h2.
    split; [exact E1|]. split; [exact E2|]. split; [exact R|exact D].
Defined.

Section Canonical.

Context (rt : runtime).
Implicit Types (h : heap) (b s data : slice) (d e t v xs out : list byte).

Lemma decodeBytes_success (rev : bool) h b (rest data : slice) (h' : heap) :
  wf h b ->
  decodeBytes rt b rev h = Done (inr (rest, data)) h' ->
  exists k out,
    decode_groups (S (len b)) (view rev h b) = (k, out, None) /\
    9 * k <= len b /\
    bytes h' data = out /\
    bytes h' rest = drop (9 * k) (bytes h b) /\
    h' = touched rev h b (9 * k) ++ [out ++ replicate (len b - length out) x00].
Proof.
  intros Hwf E.
  destruct (decodeBytes_spec rt rev b h Hwf) as (k & out & err & Ed & Hk & E').
  rewrite E' in E. destruct err as [x|]; [discriminate|].
  injection E as <- <- <-.
  destruct (decodeBytes_result rev h b k out Hwf Hk) as (R1 & R2 & _).
  exists k, out. repeat (split; [assumption|]). reflexivity.
Qed.

Lemma EncodeBytes_nil_encoded h0 (src : slice) (r : slice) (h1 : heap) :
  wf h0 src ->
  EncodeBytes rt nil_slice src h0 = Done r h1 ->
  encoded (bytes h0 src) (bytes h1 r).
Proof.
  intros Ws E.
  destruct (EncodeBytes_nil rt h0 src Ws) as (e & r' & h1' & En & E' & _ & B).
  rewrite E' in E. injection E as <- <-. now rewrite B.
Qed.

(** C10: ascending decode accepts only canonical encodings.  When
    [DecodeBytes(b)] succeeds with remainder [rest] and payload [data], the
    bytes of [b] are those of [EncodeBytes([], data)] followed by those of
    [rest], wherever the payload is held when it is encoded again;
    consequently [DecodeBytes] reports an error on every strict prefix of
    an encoded value. *)
Theorem DecodeBytes_canonical :
  (forall h b rest data h',
     wf h b ->
     DecodeBytes rt b h = Done (inr (rest, data)) h' ->
     forall h0 (src : slice),
       wf h0 src -> bytes h0 src = bytes h' data ->
       exists r h1,
         EncodeBytes rt nil_slice src h0 = Done r h1 /\
         bytes h b = bytes h1 r ++ bytes h' rest) /\
  (forall (src : slice) h0 r h1 h b t,
     wf h0 src ->
     EncodeBytes rt nil_slice src h0 = Done r h1 ->
     wf h b -> t <> [] -> bytes h b ++ t = bytes h1 r ->
     exists err h', DecodeBytes rt b h = Done (inl err) h').
Proof.
  split.
  - intros h b rest data h' Hwf E h0 src Ws Hs.
    destruct (decodeBytes_success false h b rest data h' Hwf E)
      as (k & out & Ed & Hk & D & R & _).
    pose proof (view_length false h b Hwf) as Hv. unfold view in *.
    destruct (decode_groups_canonical _ _ _ _ Ed ltac:(lia))
      as (e & En & Le & Ev).
    destruct (EncodeBytes_nil rt h0 src Ws) as (e0 & r & h1 & En0 & E0 & _ & B0).
    rewrite Hs, D in En0.
    rewrite (encoded_fun _ _ _ En0 En) in B0.
    exists r, h1. rewrite R, B0. split; [exact E0|exact Ev].
  - intros src h0 r h1 h b t Ws E Hwf Ht Hb.
    pose proof (EncodeBytes_nil_encoded h0 src r h1 Ws E) as En.
    destruct (decodeBytes_spec rt false b h Hwf) as (k & out & err & Ed & Hk & E').
    unfold DecodeBytes. rewrite E'.
    destruct err as [x|]; [eauto|]. exfalso.
    pose proof (view_length false h b Hwf) as Hv. unfold view in *.
    destruct (decode_groups_canonical _ _ _ _ Ed ltac:(lia))
      as (e' & En' & Le' & Ev').
    set (e := bytes h1 r) in *.
    set (rest := drop (9 * k) (bytes h b)) in *.
    assert (He : e = e' ++ (rest ++ t)) by (now rewrite <- Hb, Ev', <- app_assoc).
    remember (S (length e)) as F eqn:HF.
    destruct (decode_groups_encoded _ e En [] F ltac:(lia))
      as (k1 & Hk1 & Ed1).
    destruct (decode_groups_encoded out e' En' (rest ++ t) F)
      as (k2 & Hk2 & Ed2).
    { rewrite HF, He, length_app. lia. }
    rewrite app_nil_r in Ed1. rewrite He in Ed1 at 1.
    rewrite Ed2 in Ed1. injection Ed1 as Hkk _.
    apply (f_equal length) in He. rewrite !length_app in He.
    destruct t; [congruence|cbn in He; lia].
Qed.

End Canonical.

Lemma DecodeBytes_canonical_witness :
  exists rest data h' r h1,
    DecodeBytes rt_amd64 (mkSlice 0 0 11 11)
      [[x01; x02; x03; x00; x00; x00; x00; x00; xfa; x2a; x2b]]
    = Done (inr (rest, data)) h' /\
    bytes h' data = [x01; x02; x03] /\
    EncodeBytes rt_amd64 nil_slice data h' = Done r h1 /\
    [x01; x02; x03; x00; x00; x00; x00; x00; xfa; x2a; x2b]
    = bytes h1 r ++ bytes h' rest.
Proof.
  set (h := [[x01; x02; x03; x00; x00; x00; x00; x00; xfa; x2a; x2b]]).
  set (b := mkSlice 0 0 11 11).
  destruct (DecodeBytes rt_amd64 b h) as [[x|[rest data]] h'| |] eqn:E;
    try (vm_compute in E; discriminate).
  assert (Hwf : wf h b) by (unfold wf; simpl; lia).
  assert (Wd : wf h' data)
    by (vm_compute in E; inversion E; unfold wf; simpl; lia).
  destruct (proj1 (DecodeBytes_canonical rt_amd64) h b rest data h' Hwf E
              h' data Wd eq_refl)
    as (r & h1 & E1 & B).
  exists rest, data, h', r, h1.
  split; [reflexivity|]. split; [|split; [exact E1|exact B]].
  vm_compute in E. now inversion E.
Defined.

Section InPlace.

Context (rt : runtime).
Implicit Types (h : heap) (b s data : slice) (d e t v xs out : list byte).

Lemma byte_not_ne (x : byte) : byte_not x <> x.
Proof.
  intros E. apply (f_equal Byte.to_N) in E. rewrite to_N_byte_not in E.
  pose proof (Byte.to_N_bounded x). lia.
Qed.

(** A decode that succeeds found a valid marker in the first group. *)
Lemma decode_groups_first_marker (fuel : nat) v (k : nat) out :
  decode_groups (S fuel) v = (k, out, None) ->
  9 <= length v /\
  byte_gtb (byte_sub encMarker (nth 8 v x00)) (byte_of_nat 8) = false.
Proof.
  cbn [decode_groups]. unfold encGroupSize. change (8 + 1) with 9.
  destruct (Nat.ltb_spec (length v) 9) as [Hl|Hl]; [discriminate|].
  destruct (byte_gtb _ _) eqn:Hgt; [discriminate|]. now split.
Qed.

(** A group whose marker is the complement of a valid marker is rejected. *)
Lemma decode_groups_complemented_marker (fuel : nat) v (m : byte) :
  9 <= length v ->
  byte_gtb (byte_sub encMarker m) (byte_of_nat 8) = false ->
  nth 8 v x00 = byte_not m ->
  decode_groups (S fuel) v = (1, [], Some (ErrInvalidMarker (take 9 v))).
Proof.
  intros Hl Hm Hn. cbn [decode_groups]. unfold encGroupSize.
  change (8 + 1) with 9.
  destruct (Nat.ltb_spec (length v) 9) as [|_]; [lia|].
  rewrite Hn.
  assert (Hgt : byte_gtb (byte_sub encMarker (byte_not m)) (byte_of_nat 8)
                = true).
  { unfold byte_gtb in *. apply N.ltb_ge in Hm. apply N.ltb_lt.
    rewrite padCount_marker in *. rewrite to_N_byte_not.
    change (Byte.to_N (byte_of_nat 8)) with 8%N in *.
    pose proof (Byte.to_N_bounded m). lia. }
  now rewrite Hgt.
Qed.

Lemma nth_map_byte_not v (i : nat) :
  i < length v -> nth i (map byte_not v) x00 = byte_not (nth i v x00).
Proof.
  intros Hi. rewrite !nth_lookup, list_lookup_fmap.
  destruct (lookup_lt_is_Some_2 v i Hi) as [x ->]. reflexivity.
Qed.

(** C9: [DecodeBytesDesc] overwrites, in the caller's buffer, every group
    it reads with the complement of the group, also when it reports an
    error: if [k] groups were read, the first [9 * k] bytes of the buffer
    are complemented and the rest is unchanged, and [k] is at least 1 as
    soon as the buffer has nine bytes.  After a successful decode the
    buffer no longer holds its descending encoding, and decoding the same
    buffer again reports an error.  [DecodeBytes] leaves every array of the
    store as it was and only adds the array of its output. *)
Theorem DecodeBytesDesc_overwrites_input h b :
  wf h b ->
  (exists k out err res h',
     decode_groups (S (len b)) (map byte_not (bytes h b)) = (k, out, err) /\
     DecodeBytesDesc rt b h = Done res h' /\
     9 * k <= len b /\
     (9 <= len b -> 1 <= k) /\
     bytes h' b
     = map byte_not (take (9 * k) (bytes h b)) ++ drop (9 * k) (bytes h b) /\
     (1 <= k -> bytes h' b <> bytes h b) /\
     (forall rest data,
        res = inr (rest, data) ->
        exists x h'', DecodeBytesDesc rt b h' = Done (inl x) h'')) /\
  (exists res hs, DecodeBytes rt b h = Done res (h ++ hs)).
Proof.
  intros Hwf. pose proof (length_bytes h b Hwf) as HB. split.
  - destruct (decodeBytes_spec rt true b h Hwf) as (k & out & err & Ed & Hk & E).
    unfold view in Ed.
    destruct (decodeBytes_result true h b k out Hwf Hk) as (_ & _ & R3).
    cbv zeta in R3.
    destruct (decode_groups_bounds _ _ _ _ _ Ed) as [K1 K2].
    rewrite length_map, HB in K1.
    eexists k, out, err, _, _. split; [exact Ed|]. split; [exact E|].
    split; [exact Hk|]. split; [exact K1|]. split; [exact R3|]. split.
    + intros Hk1 Heq. rewrite R3 in Heq.
      destruct (bytes h b) as [|x l] eqn:EB; [cbn in HB; lia|].
      replace (9 * k) with (S (9 * k - 1)) in Heq by lia.
      cbn in Heq. injection Heq as Hx _. now apply byte_not_ne in Hx.
    + intros rest data Hres. destruct err as [x|]; [discriminate|].
      set (h' := touched true h b (9 * k)
                   ++ [out ++ replicate (len b - length out) x00]) in *.
      assert (Hwf' : wf h' b)
        by (apply wf_app_old; now apply wf_touched).
      destruct (decode_groups_first_marker _ _ _ _ Ed) as [Hl Hm].
      rewrite length_map, HB in Hl. specialize (K1 Hl).
      rewrite nth_map_byte_not in Hm by lia.
      destruct (decodeBytes_spec rt true b h' Hwf')
        as (k2 & out2 & err2 & Ed2 & Hk2 & E2).
      rewrite (decode_groups_complemented_marker (len b) (view true h' b)
                 (byte_not (nth 8 (bytes h b) x00))) in Ed2.
      * injection Ed2 as <- <- <-. eexists _, _. exact E2.
      * now rewrite view_length.
      * exact Hm.
      * unfold view. rewrite R3, byte_not_involutive.
        rewrite map_app, map_byte_not_involutive.
        rewrite !nth_lookup, lookup_app_l by (rewrite length_take; lia).
        rewrite lookup_take. case_decide; [reflexivity|lia].
  - destruct (decodeBytes_spec rt false b h Hwf) as (k & out & err & _ & _ & E).
    unfold DecodeBytes. rewrite E. eexists _, _. reflexivity.
Qed.

End InPlace.

Lemma DecodeBytesDesc_overwrites_input_witness :
  exists rest data h' e h'',
    DecodeBytesDesc rt_amd64 (mkSlice 0 0 9 9)
      [[xfe; xfd; xff; xff; xff; xff; xff; xff; x06]]
    = Done (inr (rest, data)) h' /\
    bytes h' data = [x01; x02] /\
    bytes h' (mkSlice 0 0 9 9)
    = [x01; x02; x00; x00; x00; x00; x00; x00; xf9] /\
    DecodeBytesDesc rt_amd64 (mkSlice 0 0 9 9) h' = Done (inl e) h''.
Proof.
  set (h := [[xfe; xfd; xff; xff; xff; xff; xff; xff; x06]]).
  set (b := mkSlice 0 0 9 9).
  assert (Hwf : wf h b) by (unfold wf; simpl; lia).
  destruct (DecodeBytesDesc_overwrites_input rt_amd64 h b Hwf)
    as [(k & out & err & res & h' & Ed & E & _ & _ & _ & _ & Again) _].
  assert (Er : exists rest data,
             res = inr (rest, data) /\ bytes h' data = [x01; x02] /\
             bytes h' b = [x01; x02; x00; x00; x00; x00; x00; x00; xf9]).
  { vm_compute in E. inversion E. eexists _, _. repeat split. }
  destruct Er as (rest & data & -> & D & B).
  destruct (Again rest data eq_refl) as (e & h'' & E2).
  exists rest, data, h', e, h''. repeat split; assumption.
Defined.

(** * The compact encoding *)

Section Compact.

Context (rt : runtime).
Context (DecodeVarint : slice -> Go (error + slice * Z)).
Implicit Types (h : heap) (b s : slice).

(** A failure of the length decoder is passed on, wrapped. *)
Lemma DecodeCompactBytes_varint_error b h (err : error) (h1 : heap) :
  DecodeVarint b h = Done (inl err) h1 ->
  DecodeCompactBytes rt DecodeVarint b h = Done (inl (ErrTrace err)) h1.
Proof.
  intros E. unfold DecodeCompactBytes. now rewrite (bind_Done _ _ _ _ _ E).
Qed.

(** A length that exceeds the remaining bytes is an error. *)
Lemma DecodeCompactBytes_too_long b h (b' : slice) (n : Z) (h1 : heap) :
  DecodeVarint b h = Done (inr (b', n)) h1 ->
  (Z.of_nat (len b') < n)%Z ->
  DecodeCompactBytes rt DecodeVarint b h
  = Done (inl (ErrInsufficientLength n)) h1.
Proof.
  intros E Hn. unfold DecodeCompactBytes. rewrite (bind_Done _ _ _ _ _ E).
  destruct (Z.ltb_spec (Z.of_nat (len b')) n); [reflexivity|lia].
Qed.

(** A negative length passes the length test and the call panics: in
    [make] when [int(n)] is negative, else in the slice expression
    [b[:n]]. *)
Lemma DecodeCompactBytes_negative b h (b' : slice) (n : Z) (h1 : heap) :
  DecodeVarint b h = Done (inr (b', n)) h1 ->
  (n < 0)%Z ->
  DecodeCompactBytes rt DecodeVarint b h = Panic.
Proof.
  intros E Hn. unfold DecodeCompactBytes. rewrite (bind_Done _ _ _ _ _ E).
  destruct (Z.ltb_spec (Z.of_nat (len b')) n) as [|_]; [lia|].
  unfold bind at 1. unfold make_int, make, panic.
  destruct (Z.ltb_spec (int_of_int64 (GOARCH rt) n) 0); [reflexivity|].
  destruct (_ <=? _); [|reflexivity].
  unfold bind at 1, reslice_int.
  destruct (Z.leb_spec 0 n) as [|_]; [lia|].
  now rewrite andb_false_r.
Qed.

(** A valid length: exactly [n] bytes are copied into a fresh array and
    the bytes behind them are the remainder. *)
Lemma DecodeCompactBytes_valid b h (b' : slice) (n : Z) (h1 : heap) :
  DecodeVarint b h = Done (inr (b', n)) h1 ->
  wf h1 b' ->
  (0 <= n <= Z.of_nat (len b'))%Z ->
  int_of_int64 (GOARCH rt) n = n ->
  exists rest data h2,
    DecodeCompactBytes rt DecodeVarint b h = Done (inr (rest, data)) h2 /\
    ptr data = length h1 /\
    bytes h2 data = take (Z.to_nat n) (bytes h1 b') /\
    bytes h2 rest = drop (Z.to_nat n) (bytes h1 b') /\
    h2 = h1 ++ [take (Z.to_nat n) (bytes h1 b')].
Proof.
  intros E Hwf Hn Hint. pose proof Hwf as [H1 H2].
  pose proof (length_bytes h1 b' Hwf) as HB.
  set (m := Z.to_nat n). assert (Hm : m <= len b') by lia.
  unfold DecodeCompactBytes. rewrite (bind_Done _ _ _ _ _ E).
  destruct (Z.ltb_spec (Z.of_nat (len b')) n) as [|_]; [lia|].
  rewrite Hint.
  assert (Em : make_int n h1
               = Done (mkSlice (length h1) 0 m m) (h1 ++ [replicate m x00])).
  { unfold make_int, make. destruct (Z.ltb_spec n 0); [lia|]. fold m.
    now rewrite Nat.leb_refl. }
  rewrite (bind_Done _ _ _ _ _ Em).
  set (h' := h1 ++ [replicate m x00]).
  assert (Es : reslice_int b' 0 n h'
               = Done (mkSlice (ptr b') (off b' + 0) (m - 0) (cap b' - 0)) h').
  { unfold reslice_int. destruct (Z.leb_spec 0 n); [|lia]. cbn [Z.leb andb].
    fold m. apply reslice_Done; lia. }
  rewrite (bind_Done _ _ _ _ _ Es).
  rewrite (bind_Done _ _ _ _ _ (contents_Done h' _)).
  assert (Eb : bytes h' (mkSlice (ptr b') (off b' + 0) (m - 0) (cap b' - 0))
               = take m (bytes h1 b')).
  { rewrite bytes_sub by lia. unfold h'. rewrite bytes_app_old by assumption.
    now rewrite Nat.sub_0_r, drop_0. }
  rewrite Eb.
  assert (Lt : length (take m (bytes h1 b')) = m)
    by (rewrite length_take; lia).
  unfold bind at 1, copy at 1. cbn [ptr off len cap].
  rewrite Lt, Nat.min_id, take_take, Nat.min_id.
  unfold h' at 1. rewrite poke_last by reflexivity.
  rewrite Lt, drop_replicate, Nat.sub_diag. cbn [replicate].
  rewrite app_nil_r.
  set (h2 := h1 ++ [take m (bytes h1 b')]).
  assert (Er : reslice_int b' n (Z.of_nat (len b')) h2
               = Done (mkSlice (ptr b') (off b' + m) (len b' - m) (cap b' - m))
                      h2).
  { unfold reslice_int. destruct (Z.leb_spec 0 n); [|lia].
    destruct (Z.leb_spec 0 (Z.of_nat (len b'))); [|lia]. cbn [andb].
    fold m. rewrite Nat2Z.id. apply reslice_Done; lia. }
  rewrite (bind_Done _ _ _ _ _ Er).
  eexists _, _, _. split; [reflexivity|]. cbn [ptr].
  split; [reflexivity|]. split; [|split; [|reflexivity]].
  - unfold bytes at 1, h2. cbn [ptr off len cap].
    rewrite mem_app_new, drop_0. apply take_ge. lia.
  - unfold h2. rewrite bytes_app_old
      by (apply wf_reslice with (hi := len b'); (assumption || lia)).
    rewrite bytes_sub by lia. apply take_ge. rewrite length_drop. lia.
Qed.

End Compact.

(** C5, which the code does not satisfy: the one-byte buffer [0x01] is
    the varint of -1; [DecodeCompactBytes] panics on it instead of
    returning an error. *)
Lemma DecodeCompactBytes_negative_length_panics :
  DecodeVarint_binary (mkSlice 0 0 1 1) [[x01]]
  = Done (inr (mkSlice 0 1 0 0, (-1)%Z)) [[x01]] /\
  DecodeCompactBytes rt_amd64 DecodeVarint_binary (mkSlice 0 0 1 1) [[x01]]
  = Panic.
Proof.
  assert (E : DecodeVarint_binary (mkSlice 0 0 1 1) [[x01]]
              = Done (inr (mkSlice 0 1 0 0, (-1)%Z)) [[x01]])
    by reflexivity.
  split; [exact E|].
  apply (DecodeCompactBytes_negative rt_amd64 DecodeVarint_binary _ _ _ _ _ E).
  lia.
Qed.

(** * The encoded forms given in the source comments *)

Section Vectors.

Example EncodeBytes_of_empty :
  encoding_of [] = Some [x00; x00; x00; x00; x00; x00; x00; x00; xf7].
Proof. reflexivity. Qed.

Example EncodeBytes_of_123 :
  encoding_of [x01; x02; x03]
  = Some [x01; x02; x03; x00; x00; x00; x00; x00; xfa].
Proof. reflexivity. Qed.

Example EncodeBytes_of_1230 :
  encoding_of [x01; x02; x03; x00]
  = Some [x01; x02; x03; x00; x00; x00; x00; x00; xfb].
Proof. reflexivity. Qed.

Example EncodeBytes_of_12345678 :
  encoding_of [x01; x02; x03; x04; x05; x06; x07; x08]
  = Some [x01; x02; x03; x04; x05; x06; x07; x08; xff;
          x00; x00; x00; x00; x00; x00; x00; x00; xf7].
Proof. reflexivity. Qed.

(** A corrupted pad byte is reported as invalid padding, and a buffer cut
    inside a group as insufficient bytes. *)
Example DecodeBytes_invalid_padding :
  exists h',
    DecodeBytes rt_amd64 (mkSlice 0 0 9 9)
      [[x01; x02; x03; x00; x09; x00; x00; x00; xfa]]
    = Done (inl (ErrInvalidPadding
                   [x01; x02; x03; x00; x09; x00; x00; x00; xfa])) h'.
Proof. eexists. vm_compute. reflexivity. Qed.

Example DecodeBytes_truncated :
  exists h',
    DecodeBytes rt_amd64 (mkSlice 0 0 12 12)
      [[x01; x02; x03; x04; x05; x06; x07; x08; xff; x00; x00; x00]]
    = Done (inl ErrInsufficientBytes) h'.
Proof. eexists. vm_compute. reflexivity. Qed.

End Vectors.

(** * Further properties of the encoder *)

Section EncodeMore.

Context (rt : runtime).
Implicit Types (h : heap) (b s : slice) (d e xs : list byte).

Lemma encoded_length d e : encoded d e -> length e = 9 * (length d / 8 + 1).
Proof.
  induction 1 as [d Hd|g d e Hg He IH]; unfold encGroupSize in *.
  - rewrite !length_app, length_replicate. cbn [length].
    rewrite Nat.div_small by lia. lia.
  - rewrite !length_app, IH, Hg. cbn [length].
    replace (8 + length d) with (1 * 8 + length d) by lia.
    rewrite Nat.div_add_l by lia. lia.
Qed.

Lemma encoded_total d : exists e, encoded d e.
Proof.
  destruct (EncodeBytes_of_nil rt [] d) as (e & _ & _ & En & _). now exists e.
Qed.

(** X1: [EncodeBytes(b, data)] returns a buffer that holds the bytes of [b]
    followed by the bytes of [EncodeBytes([], data)], when the data does not
    lie in the spare capacity of [b] or that capacity is too small to be
    used; the caller's view of [b] and every byte of the store outside the
    spare capacity of [b] are left as they were. *)
Theorem EncodeBytes_appends h b (data : slice) :
  wf h b -> wf h data ->
  apart data b \/ cap b < 9 * (len data / 8 + 1) ->
  exists b' h' r h1,
    EncodeBytes rt b data h = Done b' h' /\
    EncodeBytes rt nil_slice data h = Done r h1 /\
    wf h' b' /\
    bytes h' b' = bytes h b ++ bytes h1 r /\
    bytes h' b = bytes h b /\
    frame h b h'.
Proof.
  intros Hwf Wd Ha.
  destruct (EncodeBytes_grows rt h b data Hwf Wd Ha)
    as (e & b' & h' & En & E & (W & L & B & F & O)).
  destruct (EncodeBytes_nil rt h data Wd) as (e0 & r & h1 & En0 & E0 & W0 & B0).
  rewrite (encoded_fun _ _ _ En0 En) in B0.
  exists b', h', r, h1. rewrite B0.
  split; [exact E|]. split; [exact E0|]. split; [exact W|].
  split; [exact B|]. split; [now apply frame_bytes|exact F].
Qed.

(** X2: what [EncodeBytes] appends is [len(data)/8 + 1] groups of nine
    bytes: at least one group, also for empty data, and wherever the data
    lies. *)
Theorem EncodeBytes_length h b (data : slice) :
  wf h b -> wf h data ->
  exists b' h',
    EncodeBytes rt b data h = Done b' h' /\
    len b' = len b + 9 * (len data / 8 + 1).
Proof.
  intros Hwf Wd.
  destruct (EncodeBytes_returns rt h b data Hwf Wd)
    as (xs & b' & h' & E & (W & L & B & F & O) & Lx & _).
  exists b', h'. split; [exact E|]. now rewrite L, Lx.
Qed.

End EncodeMore.

Lemma EncodeBytes_appends_witness :
  exists b' h' r h1,
    EncodeBytes rt_amd64 (mkSlice 0 0 2 12) (mkSlice 0 12 1 1)
      [[x2a; x2b; x00; x00; x00; x00; x00; x00; x00; x00; x00; x00; x07]]
    = Done b' h' /\
    EncodeBytes rt_amd64 nil_slice (mkSlice 0 12 1 1)
      [[x2a; x2b; x00; x00; x00; x00; x00; x00; x00; x00; x00; x00; x07]]
    = Done r h1 /\
    bytes h' b' = [x2a; x2b] ++ bytes h1 r /\
    bytes h' (mkSlice 0 0 2 12) = [x2a; x2b].
Proof.
  destruct (EncodeBytes_appends rt_amd64
              [[x2a; x2b; x00; x00; x00; x00; x00; x00; x00; x00; x00; x00;
                x07]]
              (mkSlice 0 0 2 12) (mkSlice 0 12 1 1))
    as (b' & h' & r & h1 & E & E0 & _ & B & Bb & _).
  - unfold wf. simpl. lia.
  - unfold wf. simpl. lia.
  - left. unfold apart. simpl. lia.
  - exists b', h', r, h1. repeat split; assumption.
Defined.

Lemma EncodeBytes_length_witness :
  exists b' h',
    EncodeBytes rt_amd64 (mkSlice 0 0 0 18) (mkSlice 0 0 9 9)
      [[x01; x02; x03; x04; x05; x06; x07; x08; x09;
        x00; x00; x00; x00; x00; x00; x00; x00; x00]]
    = Done b' h' /\
    len b' = 18.
Proof.
  destruct (EncodeBytes_length rt_amd64
              [[x01; x02; x03; x04; x05; x06; x07; x08; x09;
                x00; x00; x00; x00; x00; x00; x00; x00; x00]]
              (mkSlice 0 0 0 18) (mkSlice 0 0 9 9))
    as (b' & h' & E & L).
  - unfold wf. simpl. lia.
  - unfold wf. simpl. lia.
  - exists b', h'. split; [exact E|exact L].
Defined.

Section EncodeInPlace.

Context (rt : runtime).
Implicit Types (h : heap) (b s : slice) (d e xs : list byte).

Lemma wf_extend h s xs :
  wf h s -> len s + length xs <= cap s ->
  wf (poke h (ptr s) (off s + len s) xs)
     (mkSlice (ptr s) (off s) (len s + length xs) (cap s)).
Proof. intros Hwf Hl. apply (poke_grows h s xs Hwf Hl). Qed.

Lemma append_two_inplace h s xs ys :
  wf h s -> len s + (length xs + length ys) <= cap s ->
  (r <- append rt s xs ;; append rt r ys) h
  = Done (mkSlice (ptr s) (off s) (len s + length (xs ++ ys)) (cap s))
         (poke h (ptr s) (off s + len s) (xs ++ ys)).
Proof.
  intros Hwf Hl. pose proof Hwf as [H1 H2].
  rewrite (bind_Done _ _ _ _ _ (append_inplace rt h s xs ltac:(lia))).
  rewrite append_inplace by (cbn [len cap]; lia). cbn [ptr off len cap].
  rewrite Nat.add_assoc, poke_poke_app by lia.
  now rewrite length_app, Nat.add_assoc.
Qed.

(** With enough spare capacity the loop of [EncodeBytes_of] writes the
    encoding behind the buffer, in place. *)
Lemma EncodeBytes_of_loop_inplace (fuel : nat) d (idx : nat) s h e :
  wf h s -> idx <= length d -> length d - idx < fuel ->
  encoded (drop idx d) e -> len s + length e <= cap s ->
  EncodeBytes_of_loop rt fuel d idx s h
  = Done (mkSlice (ptr s) (off s) (len s + length e) (cap s))
         (poke h (ptr s) (off s + len s) e).
Proof.
  revert idx s h e. induction fuel as [|fuel IH];
    intros idx s h e Hwf Hi Hf En Hc; [lia|].
  pose proof Hwf as [H1 H2].
  cbn [EncodeBytes_of_loop].
  destruct (Nat.leb_spec idx (length d)) as [_|]; [|lia].
  assert (Hdl : length (drop idx d) = length d - idx) by apply length_drop.
  destruct (Nat.leb_spec encGroupSize (length d - idx)) as [Hge|Hlt];
    unfold encGroupSize in *.
  - destruct (encoded_total rt (drop (idx + 8) d)) as [e' En'].
    assert (Ee : e = (take 8 (drop idx d) ++ [encMarker]) ++ e').
    { apply (encoded_fun (drop idx d)); [exact En|].
      rewrite <- (take_drop 8 (drop idx d)) at 1. rewrite <- app_assoc.
      apply encoded_more.
      - rewrite length_take, Hdl. unfold encGroupSize. lia.
      - now rewrite drop_drop. }
    assert (Lg : length (take 8 (drop idx d) ++ [encMarker]) = 9)
      by (rewrite length_app, length_take, Hdl; cbn [length]; lia).
    rewrite Ee, length_app, Lg in Hc.
    assert (L8 : length (take 8 (drop idx d)) = 8)
      by (rewrite length_take, Hdl; lia).
    rewrite (bind_Done _ _ _ _ _
               (append_inplace rt h s (take 8 (drop idx d)) ltac:(lia))).
    rewrite (bind_Done _ _ _ _ _
               (append_inplace rt
                  (poke h (ptr s) (off s + len s) (take 8 (drop idx d)))
                  (mkSlice (ptr s) (off s)
                     (len s + length (take 8 (drop idx d))) (cap s))
                  [byte_sub encMarker (byte_of_nat 0)]
                  ltac:(cbn [len cap length]; lia))).
    cbn [ptr off len cap].
    change (byte_sub encMarker (byte_of_nat 0)) with encMarker.
    rewrite Nat.add_assoc, poke_poke_app by lia.
    rewrite <- Nat.add_assoc, <- (length_app _ [encMarker]).
    set (g := take 8 (drop idx d) ++ [encMarker]) in *.
    pose proof (wf_extend h s g Hwf ltac:(lia)) as Hw2.
    rewrite (IH (idx + 8) _ _ e' Hw2) by (cbn [len cap]; (assumption || lia)).
    cbn [ptr off len cap].
    rewrite Nat.add_assoc, poke_poke_app by lia.
    now rewrite Ee, length_app, Nat.add_assoc.
  - set (padCount := 8 - (length d - idx)) in *.
    set (m := byte_sub encMarker (byte_of_nat padCount)).
    assert (Ee : e = (drop idx d ++ replicate padCount x00) ++ [m]).
    { apply (encoded_fun (drop idx d)); [exact En|].
      rewrite <- app_assoc. unfold m, padCount. rewrite <- Hdl.
      apply encoded_last. unfold encGroupSize. lia. }
    assert (Lg : length (drop idx d ++ replicate padCount x00) = 8)
      by (rewrite length_app, length_replicate, Hdl; unfold padCount; lia).
    rewrite Ee, length_app, Lg in Hc. cbn [length] in Hc.
    rewrite (bind_Done _ _ _ _ _
               (append_two_inplace h s (drop idx d) (replicate padCount x00)
                  Hwf ltac:(rewrite <- length_app, Lg; lia))).
    rewrite (bind_Done _ _ _ _ _
               (append_inplace rt
                  (poke h (ptr s) (off s + len s)
                     (drop idx d ++ replicate padCount x00))
                  (mkSlice (ptr s) (off s)
                     (len s + length (drop idx d ++ replicate padCount x00))
                     (cap s))
                  [m] ltac:(cbn [len cap length]; lia))).
    cbn [ptr off len cap].
    rewrite Nat.add_assoc, poke_poke_app by lia.
    rewrite EncodeBytes_of_loop_exit by lia.
    rewrite Ee, (length_app _ [m]). now rewrite Nat.add_assoc.
Qed.

(** Into the [nil] buffer the encoder allocates once, whatever the growth
    policy of the run-time system. *)
Lemma EncodeBytes_of_nil_allocates_once (h : heap) d :
  exists e,
    EncodeBytes_of rt nil_slice d h
    = Done (mkSlice (length h) 0 (length e) (length e)) (h ++ [e]) /\
    encoded d e /\
    length e = 9 * (length d / 8 + 1).
Proof.
  destruct (encoded_total rt d) as [e En].
  pose proof (encoded_length d e En) as Le.
  exists e. split; [|split; assumption].
  unfold EncodeBytes_of, encGroupSize. change (8 + 1) with 9.
  set (n := (length d / 8 + 1) * 9). assert (Hn : n = length e) by lia.
  rewrite (bind_Done _ _ _ _ _
             (reallocBytes_alloc h nil_slice n (wf_nil h)
                ltac:(cbn [cap nil_slice]; lia))).
  assert (B0 : bytes h nil_slice = []) by (unfold bytes; now rewrite take_0).
  rewrite B0. cbn [app len nil_slice Nat.add].
  assert (Hw : wf (h ++ [replicate n x00]) (mkSlice (length h) 0 0 n)).
  { unfold wf. cbn [ptr off len cap]. rewrite mem_app_new, length_replicate. lia. }
  rewrite (EncodeBytes_of_loop_inplace (S (length d)) d 0 _ _ e Hw)
    by (cbn [len cap]; (assumption || lia)).
  cbn [ptr off len cap Nat.add]. rewrite poke_last by reflexivity.
  rewrite drop_replicate, Hn, Nat.sub_diag. cbn [replicate].
  now rewrite app_nil_r.
Qed.

(** With enough spare capacity the encoder writes in place. *)
Lemma EncodeBytes_of_in_place h b d :
  wf h b ->
  len b + 9 * (length d / 8 + 1) <= cap b ->
  exists e,
    encoded d e /\
    EncodeBytes_of rt b d h
    = Done (mkSlice (ptr b) (off b) (len b + length e) (cap b))
           (poke h (ptr b) (off b + len b) e).
Proof.
  intros Hwf Hc. destruct (encoded_total rt d) as [e En].
  pose proof (encoded_length d e En) as Le.
  exists e. split; [exact En|].
  unfold EncodeBytes_of, encGroupSize. change (8 + 1) with 9.
  rewrite (bind_Done _ _ _ _ _
             (reallocBytes_keep h b ((length d / 8 + 1) * 9) ltac:(lia))).
  apply EncodeBytes_of_loop_inplace; (assumption || lia).
Qed.

(** X3: encoding into the [nil] buffer allocates once: the store grows
    by one array that holds the encoding and nothing else, and the returned
    slice covers all of it.  [append] never has to grow the buffer, whatever
    the growth policy of the run-time system. *)
Theorem EncodeBytes_nil_allocates_once (h : heap) (data : slice) :
  wf h data ->
  exists e,
    EncodeBytes rt nil_slice data h
    = Done (mkSlice (length h) 0 (length e) (length e)) (h ++ [e]) /\
    encoded (bytes h data) e /\
    length e = 9 * (len data / 8 + 1).
Proof.
  intros Wd.
  destruct (EncodeBytes_of_nil_allocates_once h (bytes h data))
    as (e & E & En & Le).
  exists e. rewrite (length_bytes h data Wd) in Le.
  split; [|split; assumption].
  rewrite (EncodeBytes_apart rt h nil_slice data (wf_nil h) Wd
             (or_introl (apart_nil data))).
  exact E.
Qed.

(** X4: when the spare capacity of [b] holds the encoding and the data does
    not lie in it, [EncodeBytes] writes the encoding in place: no array is
    added to the store, and the result is the slice [b] with a larger
    length. *)
Theorem EncodeBytes_in_place h b (data : slice) :
  wf h b -> wf h data ->
  apart data b ->
  len b + 9 * (len data / 8 + 1) <= cap b ->
  exists e,
    encoded (bytes h data) e /\
    EncodeBytes rt b data h
    = Done (mkSlice (ptr b) (off b) (len b + length e) (cap b))
           (poke h (ptr b) (off b + len b) e).
Proof.
  intros Hwf Wd Ha Hc.
  rewrite (EncodeBytes_apart rt h b data Hwf Wd (or_introl Ha)).
  apply EncodeBytes_of_in_place; [exact Hwf|].
  now rewrite (length_bytes h data Wd).
Qed.

End EncodeInPlace.

Lemma EncodeBytes_nil_allocates_once_witness :
  exists e,
    EncodeBytes rt_amd64 nil_slice (mkSlice 0 1 1 1) [[x2a; x07]]
    = Done (mkSlice 1 0 (length e) (length e)) ([[x2a; x07]] ++ [e]) /\
    length e = 9.
Proof.
  destruct (EncodeBytes_nil_allocates_once rt_amd64 [[x2a; x07]]
              (mkSlice 0 1 1 1)) as (e & E & _ & L).
  - unfold wf. simpl. lia.
  - exists e. split; [exact E|exact L].
Defined.

Lemma EncodeBytes_in_place_witness :
  EncodeBytes rt_amd64 (mkSlice 0 1 1 11) (mkSlice 0 12 1 1)
    [[x00; x2a; x00; x00; x00; x00; x00; x00; x00; x00; x00; x00; x07]]
  = Done (mkSlice 0 1 10 11)
      [[x00; x2a; x07; x00; x00; x00; x00; x00; x00; x00; xf8; x00; x07]].
Proof.
  destruct (EncodeBytes_in_place rt_amd64
              [[x00; x2a; x00; x00; x00; x00; x00; x00; x00; x00; x00; x00; x07]]
              (mkSlice 0 1 1 11) (mkSlice 0 12 1 1)) as (e & En & E).
  - unfold wf. simpl. lia.
  - unfold wf. simpl. lia.
  - unfold apart. simpl. lia.
  - simpl. lia.
  - rewrite E. clear E.
    change (bytes _ (mkSlice 0 12 1 1)) with [x07] in En.
    inversion En as [d0 Hd|g d0 e0 Hg He]; subst.
    + reflexivity.
    + destruct g as [|x [|y g]]; [discriminate| |discriminate].
      cbn in Hg. discriminate.
Defined.

(** * Further properties of the decoder *)

Section DecodeMore.

Context (rt : runtime).
Implicit Types (h : heap) (b s : slice) (d e t v xs out : list byte).

(** At most eight payload bytes come out of each group read. *)
Lemma decode_groups_out_length (fuel : nat) v (k : nat) out (err : option error) :
  decode_groups fuel v = (k, out, err) -> length out <= 8 * k.
Proof.
  revert v k out err. induction fuel as [|fuel IH]; intros v k out err.
  { cbn. intros E. injection E as <- <- <-. cbn. lia. }
  cbn [decode_groups]. unfold encGroupSize. change (8 + 1) with 9.
  destruct (Nat.ltb_spec (length v) 9) as [Hl|Hl].
  { intros E. injection E as <- <- <-. cbn. lia. }
  destruct (byte_gtb _ _) eqn:Hgt.
  { intros E. injection E as <- <- <-. cbn. lia. }
  destruct (realGroupSize_marker _ Hgt) as [Hr Hp]. unfold encGroupSize in Hr.
  destruct (negb (Byte.eqb _ _)).
  - destruct (negb (_ =? _)); intros E; injection E as <- <- <-;
      rewrite length_take; lia.
  - destruct (decode_groups fuel (drop 9 v)) as [[k' out'] err'] eqn:Ed.
    intros E. injection E as <- <- <-.
    apply IH in Ed. rewrite length_app, length_take. lia.
Qed.

(** The errors of the group decoder. *)
Lemma decode_groups_errors (fuel : nat) v (k : nat) out (x : error) :
  decode_groups fuel v = (k, out, Some x) ->
  x = ErrInsufficientBytes \/
  (exists g, x = ErrInvalidMarker g /\ length g = 9) \/
  (exists g, x = ErrInvalidPadding g /\ length g = 9).
Proof.
  revert v k out. induction fuel as [|fuel IH]; intros v k out; [discriminate|].
  cbn [decode_groups]. unfold encGroupSize. change (8 + 1) with 9.
  destruct (Nat.ltb_spec (length v) 9) as [Hl|Hl].
  { intros E. injection E as <- <- <-. now left. }
  assert (L9 : length (take 9 v) = 9) by (rewrite length_take; lia).
  destruct (byte_gtb _ _) eqn:Hgt.
  { intros E. injection E as <- <- <-. right. left. eauto. }
  destruct (negb (Byte.eqb _ _)).
  - destruct (negb (_ =? _)); intros E; [|discriminate].
    injection E as <- <- <-. right. right. eauto.
  - destruct (decode_groups fuel (drop 9 v)) as [[k' out'] err'] eqn:Ed.
    intros E. injection E as <- <- ->. now apply IH in Ed.
Qed.

(** The two slices of a successful decode: the remainder is the input
    slice behind the groups read, the payload lies in the one array that
    the call added to the store. *)
Lemma decodeBytes_slices (rev : bool) h b (rest data : slice) (h' : heap) :
  wf h b ->
  decodeBytes rt b rev h = Done (inr (rest, data)) h' ->
  exists k out,
    decode_groups (S (len b)) (view rev h b) = (k, out, None) /\
    1 <= k /\ 9 * k <= len b /\ length out <= 8 * k /\
    rest = mkSlice (ptr b) (off b + 9 * k) (len b - 9 * k) (cap b - 9 * k) /\
    data = mkSlice (length h) 0 (length out) (len b) /\
    h' = touched rev h b (9 * k)
           ++ [out ++ replicate (len b - length out) x00] /\
    wf h' rest /\ wf h' data /\ wf h' b /\
    bytes h' data = out /\
    bytes h' rest = drop (9 * k) (bytes h b).
Proof.
  intros Hwf E.
  destruct (decodeBytes_spec rt rev b h Hwf) as (k & out & err & Ed & Hk & E').
  rewrite E' in E. destruct err as [x|]; [discriminate|].
  injection E as <- <- <-.
  destruct (decodeBytes_result rev h b k out Hwf Hk) as (R1 & R2 & _).
  destruct (decode_groups_bounds _ _ _ _ _ Ed) as [_ K].
  pose proof (decode_groups_out_length _ _ _ _ _ Ed) as Lo.
  pose proof Hwf as [H1 H2].
  assert (Wb : wf (touched rev h b (9 * k)) b) by (now apply wf_touched).
  exists k, out. split; [exact Ed|]. split; [now apply K|].
  split; [exact Hk|]. split; [exact Lo|].
  split; [reflexivity|]. split; [reflexivity|]. split; [reflexivity|].
  split; [|split; [|split; [|split; assumption]]].
  - apply wf_app_old.
    apply wf_reslice with (hi := len b); (assumption || lia).
  - unfold wf. cbn [ptr off len cap].
    rewrite mem_app_new' by (now rewrite length_touched).
    rewrite length_app, length_replicate. lia.
  - now apply wf_app_old.
Qed.

(** Into the [nil] buffer: the result is a full slice of a fresh array. *)
Lemma EncodeBytes_nil_full h (src : slice) :
  wf h src ->
  exists e,
    encoded (bytes h src) e /\
    EncodeBytes rt nil_slice src h
    = Done (mkSlice (length h) 0 (length e) (length e)) (h ++ [e]).
Proof.
  intros Ws.
  destruct (EncodeBytes_of_nil_allocates_once rt h (bytes h src))
    as (e & E & En & _).
  exists e. split; [exact En|].
  rewrite (EncodeBytes_apart rt h nil_slice src (wf_nil h) Ws
             (or_introl (apart_nil src))).
  exact E.
Qed.

(** X5: framing.  Two values encoded one after the other into the same
    buffer are recovered in order by two decodes, the remainder of the
    first feeding the second; the second decode leaves the first payload
    intact and ends with an empty remainder. *)
Theorem DecodeBytes_framing (v1 v2 : slice) (h0 : heap) :
  wf h0 v1 -> wf h0 v2 ->
  exists b1 h1 b2 h2 r1 p1 h3 r2 p2 h4,
    EncodeBytes rt nil_slice v1 h0 = Done b1 h1 /\
    EncodeBytes rt b1 v2 h1 = Done b2 h2 /\
    DecodeBytes rt b2 h2 = Done (inr (r1, p1)) h3 /\
    bytes h3 p1 = bytes h0 v1 /\
    DecodeBytes rt r1 h3 = Done (inr (r2, p2)) h4 /\
    bytes h4 p2 = bytes h0 v2 /\
    bytes h4 p1 = bytes h0 v1 /\
    bytes h4 r2 = [].
Proof.
  intros Wv1 Wv2.
  destruct (EncodeBytes_nil_full h0 v1 Wv1) as (e1 & En1 & E1).
  set (b1 := mkSlice (length h0) 0 (length e1) (length e1)) in *.
  set (h1 := h0 ++ [e1]) in *.
  assert (W1 : wf h1 b1).
  { unfold wf, b1, h1. cbn [ptr off len cap]. rewrite mem_app_new. lia. }
  assert (B1 : bytes h1 b1 = e1).
  { unfold bytes, b1, h1. cbn [ptr off len]. rewrite mem_app_new, drop_0.
    now apply take_ge. }
  assert (Wv2' : wf h1 v2) by (now apply wf_app_old).
  assert (Bv2 : bytes h1 v2 = bytes h0 v2) by (now apply bytes_app_old).
  assert (Ha : apart v2 b1) by (unfold apart, b1; cbn [len cap]; lia).
  destruct (EncodeBytes_grows rt h1 b1 v2 W1 Wv2' (or_introl Ha))
    as (e2 & b2 & h2 & En2 & E2 & (W2 & _ & B2 & _)).
  rewrite Bv2 in En2. rewrite B1 in B2.
  destruct (decodeBytes_encoded rt false h2 b2 _ e1 e2 W2 En1 B2)
    as (r1 & d1 & h3 & E3 & R3 & D3).
  rewrite B2, drop_app_length in R3.
  destruct (decodeBytes_slices false h2 b2 r1 d1 h3 W2 E3)
    as (k & out & _ & _ & _ & _ & _ & _ & _ & Wr & Wd & _ & _ & _).
  assert (Ev : view false h3 r1 = e2 ++ []) by (unfold view; now rewrite app_nil_r).
  destruct (decodeBytes_encoded rt false h3 r1 _ e2 [] Wr En2 Ev)
    as (r2 & d2 & h4 & E4 & R4 & D4).
  destruct (decodeBytes_slices false h3 r1 r2 d2 h4 Wr E4)
    as (k' & out' & _ & _ & _ & _ & _ & _ & Hh & _).
  exists b1, h1, b2, h2, r1, d1, h3, r2, d2, h4.
  split; [exact E1|]. split; [exact E2|]. split; [exact E3|].
  split; [exact D3|]. split; [exact E4|]. split; [exact D4|]. split.
  - rewrite Hh. unfold touched. now rewrite bytes_app_old.
  - rewrite R4, R3. apply drop_all.
Qed.

End DecodeMore.

Lemma DecodeBytes_framing_witness :
  exists b1 h1 b2 h2 r1 p1 h3 r2 p2 h4,
    EncodeBytes rt_amd64 nil_slice (mkSlice 0 0 2 2) [[x01; x02; x03]]
    = Done b1 h1 /\
    EncodeBytes rt_amd64 b1 (mkSlice 0 2 1 1) h1 = Done b2 h2 /\
    DecodeBytes rt_amd64 b2 h2 = Done (inr (r1, p1)) h3 /\
    bytes h3 p1 = [x01; x02] /\
    DecodeBytes rt_amd64 r1 h3 = Done (inr (r2, p2)) h4 /\
    bytes h4 p2 = [x03] /\
    bytes h4 p1 = [x01; x02] /\
    bytes h4 r2 = [].
Proof.
  destruct (DecodeBytes_framing rt_amd64 (mkSlice 0 0 2 2) (mkSlice 0 2 1 1)
              [[x01; x02; x03]])
    as (b1 & h1 & b2 & h2 & r1 & p1 & h3 & r2 & p2 & h4 & K).
  - unfold wf. simpl. lia.
  - unfold wf. simpl. lia.
  - exists b1, h1, b2, h2, r1, p1, h3, r2, p2, h4. exact K.
Defined.

Section DecodeErrors.

Context (rt : runtime).
Implicit Types (h : heap) (b s : slice) (d e t v xs out : list byte).

(** A strict prefix of an encoding runs out of bytes: every group that is
    complete in the prefix has marker 255. *)
Lemma decode_groups_truncated d e :
  encoded d e ->
  forall v t (fuel : nat),
    v ++ t = e -> t <> [] -> length v < 9 * fuel ->
    exists k out, decode_groups fuel v = (k, out, Some ErrInsufficientBytes).
Proof.
  induction 1 as [d Hd|g d e Hg He IH]; intros v t fuel Hv Ht Hf;
    (destruct fuel as [|fuel]; [lia|]); unfold encGroupSize in *.
  - exists 0, []. cbn [decode_groups]. unfold encGroupSize. change (8 + 1) with 9.
    apply (f_equal length) in Hv.
    rewrite !length_app, length_replicate in Hv. cbn [length] in Hv.
    destruct t as [|x t]; [congruence|]. cbn [length] in Hv.
    destruct (Nat.ltb_spec (length v) 9); [reflexivity|lia].
  - destruct (Nat.lt_ge_cases (length v) 9) as [Hl|Hl].
    + exists 0, []. cbn [decode_groups]. unfold encGroupSize.
      change (8 + 1) with 9.
      destruct (Nat.ltb_spec (length v) 9); [reflexivity|lia].
    + assert (E9 : take 9 v = g ++ [encMarker]).
      { rewrite <- (take_app_le v t 9) by lia. rewrite Hv.
        rewrite app_assoc. apply take_app_length'.
        rewrite length_app, Hg. reflexivity. }
      assert (Er : drop 9 v ++ t = e).
      { rewrite <- (drop_app_le v t 9) by lia. rewrite Hv.
        rewrite app_assoc. apply drop_app_length'.
        rewrite length_app, Hg. reflexivity. }
      destruct (IH (drop 9 v) t fuel Er Ht) as (k & out & Ed).
      { rewrite length_drop. lia. }
      exists (S k), (g ++ out).
      rewrite <- (take_drop 9 v), E9, <- app_assoc. cbn [app].
      rewrite decode_groups_more by assumption. now rewrite Ed.
Qed.

(** X6: truncation.  [DecodeBytes] reports insufficient bytes, and no
    other error, on every buffer that holds a strict prefix of the bytes of
    [EncodeBytes([], d)]. *)
Theorem DecodeBytes_prefix_insufficient (src : slice) (h0 : heap) (r : slice)
    (h1 : heap) h b t :
  wf h0 src ->
  EncodeBytes rt nil_slice src h0 = Done r h1 ->
  wf h b -> t <> [] -> bytes h b ++ t = bytes h1 r ->
  exists h', DecodeBytes rt b h = Done (inl ErrInsufficientBytes) h'.
Proof.
  intros Ws E Hwf Ht Hb.
  pose proof (EncodeBytes_nil_encoded rt h0 src r h1 Ws E) as En.
  pose proof (view_length false h b Hwf) as Hv.
  destruct (decodeBytes_spec rt false b h Hwf) as (k & out & err & Ed & Hk & E').
  destruct (decode_groups_truncated _ _ En (view false h b) t (S (len b)) Hb Ht)
    as (k' & out' & Ed'); [lia|].
  rewrite Ed' in Ed. injection Ed as <- <- <-.
  eexists. exact E'.
Qed.

(** X7: [DecodeBytesDesc] applied to [EncodeBytesDesc([], d)] followed by
    any bytes [t] returns payload [d] and remainder [t]: the bytes behind
    the value are neither complemented nor consumed. *)
Theorem DecodeBytesDesc_trailing (src : slice) (t : list byte) (h0 : heap) :
  wf h0 src ->
  exists r h1 buf h2 rest data h3,
    EncodeBytesDesc rt nil_slice src h0 = Done r h1 /\
    append rt r t h1 = Done buf h2 /\
    DecodeBytesDesc rt buf h2 = Done (inr (rest, data)) h3 /\
    bytes h3 rest = t /\
    bytes h3 data = bytes h0 src.
Proof.
  intros Ws.
  destruct (EncodeBytesDesc_nil rt h0 src Ws)
    as (e & r & h1 & En & E1 & W1 & B1).
  destruct (append_grows rt h1 r t W1) as (buf & h2 & E2 & (W2 & _ & B2 & _)).
  rewrite B1 in B2.
  assert (Ev : view true h2 buf = e ++ map byte_not t).
  { unfold view. now rewrite B2, map_app, map_byte_not_involutive. }
  destruct (decodeBytes_encoded rt true h2 buf _ e _ W2 En Ev)
    as (rest & data & h3 & E3 & R & D).
  exists r, h1, buf, h2, rest, data, h3.
  split; [exact E1|]. split; [exact E2|]. split; [exact E3|].
  split; [|exact D].
  rewrite R, B2, <- (length_map byte_not e). apply drop_app_length.
Qed.

(** X8: descending decode accepts only canonical encodings.  When
    [DecodeBytesDesc(b)] succeeds, the bytes that [b] held before the call
    are those of [EncodeBytesDesc([], payload)] followed by the bytes of the
    remainder, wherever the payload is held when it is encoded again. *)
Theorem DecodeBytesDesc_canonical h b (rest data : slice) (h' h0 : heap)
    (src : slice) :
  wf h b ->
  DecodeBytesDesc rt b h = Done (inr (rest, data)) h' ->
  wf h0 src -> bytes h0 src = bytes h' data ->
  exists r h1,
    EncodeBytesDesc rt nil_slice src h0 = Done r h1 /\
    bytes h b = bytes h1 r ++ bytes h' rest.
Proof.
  intros Hwf E Ws Hs.
  destruct (decodeBytes_slices rt true h b rest data h' Hwf E)
    as (k & out & Ed & _ & Hk & _ & _ & _ & _ & _ & _ & _ & D & R).
  pose proof (view_length true h b Hwf) as Hv.
  destruct (decode_groups_canonical _ _ _ _ Ed ltac:(lia))
    as (e & En & Le & Ev).
  destruct (EncodeBytesDesc_nil rt h0 src Ws)
    as (e0 & r & h1 & En0 & E0 & _ & B0).
  rewrite Hs, D in En0.
  rewrite (encoded_fun _ _ _ En0 En) in B0.
  exists r, h1. rewrite R, B0. split; [exact E0|].
  unfold view in Ev. apply (f_equal (map byte_not)) in Ev.
  rewrite map_byte_not_involutive, map_app, <- fmap_drop in Ev.
  now rewrite map_byte_not_involutive in Ev.
Qed.

(** X9: on every well-formed buffer [decodeBytes] returns: it does not
    panic, whatever the bytes are.  It adds exactly one array to the store,
    and its errors are the three of the source.  A buffer of fewer than
    nine bytes, the empty one included, is reported as insufficient and
    nothing of the store is written. *)
Theorem decodeBytes_returns (rev : bool) h b :
  wf h b ->
  exists res h',
    decodeBytes rt b rev h = Done res h' /\
    length h' = S (length h) /\
    (len b < 9 ->
     res = inl ErrInsufficientBytes /\ h' = h ++ [replicate (len b) x00]) /\
    (forall x, res = inl x ->
       x = ErrInsufficientBytes \/
       (exists g, x = ErrInvalidMarker g /\ length g = 9) \/
       (exists g, x = ErrInvalidPadding g /\ length g = 9)).
Proof.
  intros Hwf. pose proof (view_length rev h b Hwf) as Hv.
  destruct (decodeBytes_spec rt rev b h Hwf) as (k & out & err & Ed & Hk & E).
  eexists _, _. split; [exact E|]. split; [|split].
  - rewrite length_app, length_touched. cbn [length]. lia.
  - intros Hl. cbn [decode_groups] in Ed. unfold encGroupSize in Ed.
    change (8 + 1) with 9 in Ed. rewrite Hv in Ed.
    destruct (Nat.ltb_spec (len b) 9) as [_|]; [|lia].
    injection Ed as <- <- <-. split; [reflexivity|].
    cbn [length app]. rewrite Nat.sub_0_r. f_equal.
    unfold touched. destruct rev; [apply complemented_0|reflexivity].
  - intros x Hx. destruct err as [y|]; [|discriminate].
    injection Hx as <-. exact (decode_groups_errors _ _ _ _ _ Ed).
Qed.

(** X10: the slices of a successful decode.  The remainder is the input
    slice behind the bytes consumed, not a copy; the payload lies in a fresh
    array, so it shares no memory with the input; and the number of bytes
    consumed is nine for every started group of eight payload bytes. *)
Theorem decodeBytes_slices_shape (rev : bool) h b (rest data : slice) (h' : heap) :
  wf h b ->
  decodeBytes rt b rev h = Done (inr (rest, data)) h' ->
  let consumed := 9 * (len data / 8 + 1) in
  consumed <= len b /\
  rest = mkSlice (ptr b) (off b + consumed) (len b - consumed)
                 (cap b - consumed) /\
  ptr data = length h /\ off data = 0 /\ cap data = len b /\
  length h' = S (length h).
Proof.
  intros Hwf E. pose proof (view_length rev h b Hwf) as Hv.
  destruct (decodeBytes_slices rt rev h b rest data h' Hwf E)
    as (k & out & Ed & _ & Hk & _ & -> & -> & -> & _).
  destruct (decode_groups_canonical _ _ _ _ Ed ltac:(lia))
    as (e & En & Le & _).
  pose proof (encoded_length out e En) as Le'.
  cbn [ptr off len cap]. cbv zeta.
  assert (Ek : 9 * (length out / 8 + 1) = 9 * k) by lia.
  rewrite Ek. split; [exact Hk|]. split; [reflexivity|].
  repeat split. rewrite length_app, length_touched. cbn [length]. lia.
Qed.

End DecodeErrors.

Lemma DecodeBytes_prefix_insufficient_witness :
  exists h',
    DecodeBytes rt_amd64 (mkSlice 0 0 5 5) [[x01; x00; x00; x00; x00]]
    = Done (inl ErrInsufficientBytes) h'.
Proof.
  destruct (EncodeBytes rt_amd64 nil_slice (mkSlice 0 0 1 1) [[x01]])
    as [r h1| |] eqn:E; try (vm_compute in E; discriminate).
  apply (DecodeBytes_prefix_insufficient rt_amd64 (mkSlice 0 0 1 1) [[x01]]
           r h1 [[x01; x00; x00; x00; x00]] (mkSlice 0 0 5 5)
           [x00; x00; x00; xf8]).
  - unfold wf. simpl. lia.
  - exact E.
  - unfold wf. simpl. lia.
  - discriminate.
  - vm_compute in E. inversion E. reflexivity.
Defined.

Lemma DecodeBytesDesc_trailing_witness :
  exists r h1 buf h2 rest data h3,
    EncodeBytesDesc rt_amd64 nil_slice (mkSlice 0 1 3 3)
      [[x63; x01; x02; x03]]
    = Done r h1 /\
    append rt_amd64 r [x2a; x2b] h1 = Done buf h2 /\
    DecodeBytesDesc rt_amd64 buf h2 = Done (inr (rest, data)) h3 /\
    bytes h3 rest = [x2a; x2b] /\
    bytes h3 data = [x01; x02; x03].
Proof.
  destruct (DecodeBytesDesc_trailing rt_amd64 (mkSlice 0 1 3 3) [x2a; x2b]
              [[x63; x01; x02; x03]])
    as (r & h1 & buf & h2 & rest & data & h3 & K).
  - unfold wf. simpl. lia.
  - exists r, h1, buf, h2, rest, data, h3. exact K.
Defined.

Lemma DecodeBytesDesc_canonical_witness :
  exists rest data h' r h1,
    DecodeBytesDesc rt_amd64 (mkSlice 0 0 11 11)
      [[xfe; xfd; xfc; xff; xff; xff; xff; xff; x05; x2a; x2b]]
    = Done (inr (rest, data)) h' /\
    bytes h' data = [x01; x02; x03] /\
    EncodeBytesDesc rt_amd64 nil_slice data h' = Done r h1 /\
    [xfe; xfd; xfc; xff; xff; xff; xff; xff; x05; x2a; x2b]
    = bytes h1 r ++ bytes h' rest.
Proof.
  set (h := [[xfe; xfd; xfc; xff; xff; xff; xff; xff; x05; x2a; x2b]]).
  set (b := mkSlice 0 0 11 11).
  destruct (DecodeBytesDesc rt_amd64 b h) as [[x|[rest data]] h'| |] eqn:E;
    try (vm_compute in E; discriminate).
  assert (Hwf : wf h b) by (unfold wf; simpl; lia).
  assert (Wd : wf h' data)
    by (vm_compute in E; inversion E; unfold wf; simpl; lia).
  destruct (DecodeBytesDesc_canonical rt_amd64 h b rest data h' h' data
              Hwf E Wd eq_refl)
    as (r & h1 & E1 & B).
  exists rest, data, h', r, h1.
  split; [reflexivity|]. split; [|split; [exact E1|exact B]].
  vm_compute in E. now inversion E.
Defined.

Lemma decodeBytes_returns_witness :
  exists h',
    decodeBytes rt_amd64 (mkSlice 0 1 3 4) true [[x2a; x01; x02; x03; x63]]
    = Done (inl ErrInsufficientBytes) h' /\
    h' = [[x2a; x01; x02; x03; x63]; [x00; x00; x00]].
Proof.
  destruct (decodeBytes_returns rt_amd64 true
              [[x2a; x01; x02; x03; x63]] (mkSlice 0 1 3 4))
    as (res & h' & E & _ & Hs & _).
  - unfold wf. simpl. lia.
  - destruct Hs as [-> ->]; [simpl; lia|].
    exists ([[x2a; x01; x02; x03; x63]] ++ [replicate 3 x00]).
    split; [exact E|reflexivity].
Defined.

Lemma decodeBytes_slices_shape_witness :
  exists rest data h',
    decodeBytes rt_amd64 (mkSlice 0 1 10 11) false
      [[x63; x01; x02; x03; x00; x00; x00; x00; x00; xfa; x2a; x2b]]
    = Done (inr (rest, data)) h' /\
    rest = mkSlice 0 10 1 2 /\ ptr data = 1 /\ cap data = 10.
Proof.
  set (h := [[x63; x01; x02; x03; x00; x00; x00; x00; x00; xfa; x2a; x2b]]).
  set (b := mkSlice 0 1 10 11).
  destruct (decodeBytes rt_amd64 b false h) as [[x|[rest data]] h'| |] eqn:E;
    try (vm_compute in E; discriminate).
  assert (Hwf : wf h b) by (unfold wf; simpl; lia).
  destruct (decodeBytes_slices_shape rt_amd64 false h b rest data h' Hwf E)
    as (_ & R & P & _ & C & _).
  exists rest, data, h'. split; [reflexivity|].
  split; [|split; [exact P|exact C]].
  rewrite R. vm_compute in E. now inversion E.
Defined.

(** * Further properties of the helpers *)

Section HelperMore.

Context (rt : runtime).
Implicit Types (h : heap) (b s : slice) (d e t v xs ys out : list byte).

(** Writing a window a second time replaces what the first write put. *)
Lemma poke_overwrite h (p i : nat) xs ys :
  length ys = length xs -> i + length xs <= length (mem h p) ->
  poke (poke h p i xs) p i ys = poke h p i ys.
Proof.
  intros Hl Hle. destruct (decide (p < length h)) as [Hp|Hp].
  - unfold poke at 1. rewrite mem_poke_eq by assumption.
    unfold poke. rewrite list_insert_insert_eq. f_equal.
    rewrite take_app_length' by (rewrite length_take; lia).
    f_equal. f_equal.
    rewrite drop_app_add' by (rewrite length_take; lia).
    rewrite Hl. now rewrite drop_app_length' by reflexivity.
  - rewrite mem_ge in Hle by lia. cbn [length] in Hle.
    destruct xs; [|cbn in Hle; lia]. destruct ys; [|discriminate].
    now rewrite !poke_nil.
Qed.

(** Writing the bytes a slice already shows changes nothing. *)
Lemma poke_self h s : wf h s -> poke h (ptr s) (off s) (bytes h s) = h.
Proof.
  intros Hwf. pose proof (length_bytes h s Hwf) as HB. destruct Hwf as [H1 H2].
  unfold poke. rewrite HB. unfold bytes.
  assert (E : take (off s) (mem h (ptr s))
              ++ take (len s) (drop (off s) (mem h (ptr s)))
              ++ drop (off s + len s) (mem h (ptr s)) = mem h (ptr s)).
  { rewrite <- drop_drop, take_drop. apply take_drop. }
  rewrite E. unfold mem. destruct (h !! ptr s) as [a|] eqn:Ea.
  - cbn. now apply list_insert_id.
  - apply list_insert_ge. now apply lookup_ge_None.
Qed.

(** X11: [reverseBytes] is an involution on the store: applied twice to the
    same slice it gives back the store it started from, byte for byte, on
    every build target. *)
Theorem reverseBytes_involutive h s :
  wf h s ->
  exists h1,
    reverseBytes rt s h = Done tt h1 /\
    bytes h1 s = map byte_not (bytes h s) /\
    reverseBytes rt s h1 = Done tt h.
Proof.
  intros Hwf. pose proof (length_bytes h s Hwf) as HB.
  set (h1 := poke h (ptr s) (off s) (map byte_not (bytes h s))).
  assert (W1 : wf h1 s).
  { destruct Hwf as [H1 H2]. split; [assumption|]. unfold h1.
    rewrite length_mem_poke; [assumption|]. rewrite length_map, HB. lia. }
  assert (B1 : bytes h1 s = map byte_not (bytes h s)).
  { unfold h1. rewrite bytes_poke_prefix by (rewrite ?length_map; lia || assumption).
    rewrite length_map, drop_ge by lia. apply app_nil_r. }
  exists h1. split; [now apply reverseBytes_spec|]. split; [exact B1|].
  rewrite reverseBytes_spec by assumption. f_equal.
  rewrite B1, map_byte_not_involutive. unfold h1.
  rewrite poke_overwrite.
  - now apply poke_self.
  - now rewrite length_map.
  - rewrite length_map, HB. destruct Hwf. lia.
Qed.

(** X12: what [reallocBytes(b, n)] guarantees.  The result shows the bytes
    of [b] and has capacity at least [n]; when [b] already has capacity [n]
    it is [b] itself and nothing is allocated; otherwise it is the start of
    a fresh array of [len(b) + n] bytes, and the arrays that existed are
    unchanged. *)
Theorem reallocBytes_contract h b (n : nat) :
  wf h b ->
  exists b' h',
    reallocBytes b n h = Done b' h' /\
    wf h' b' /\ len b' = len b /\ bytes h' b' = bytes h b /\ n <= cap b' /\
    (n <= cap b -> b' = b /\ h' = h) /\
    (cap b < n ->
     b' = mkSlice (length h) 0 (len b) (len b + n) /\
     h' = h ++ [bytes h b ++ replicate n x00]).
Proof.
  intros Hwf. pose proof (length_bytes h b Hwf) as HB.
  destruct (Nat.le_gt_cases n (cap b)) as [Hn|Hn].
  - exists b, h. rewrite reallocBytes_keep by assumption.
    repeat split; try apply Hwf; try assumption; lia.
  - eexists _, _. rewrite reallocBytes_alloc by assumption.
    split; [reflexivity|]. cbn [len cap].
    assert (M : mem (h ++ [bytes h b ++ replicate n x00]) (length h)
                = bytes h b ++ replicate n x00) by apply mem_app_new.
    split; [|split; [reflexivity|split; [|split; [lia|split; [lia|]]]]].
    + unfold wf. cbn [ptr off len cap]. rewrite M, length_app, length_replicate.
      lia.
    + unfold bytes at 1. cbn [ptr off len]. rewrite M, drop_0.
      now rewrite take_app_length' by lia.
    + intros _. split; reflexivity.
Qed.

End HelperMore.

Lemma reverseBytes_involutive_witness :
  exists h1,
    reverseBytes rt_amd64 (mkSlice 0 1 9 9)
      [[x2a; x01; x02; x03; x04; x05; x06; x07; x08; x09; x63]]
    = Done tt h1 /\
    reverseBytes rt_amd64 (mkSlice 0 1 9 9) h1
    = Done tt [[x2a; x01; x02; x03; x04; x05; x06; x07; x08; x09; x63]].
Proof.
  destruct (reverseBytes_involutive rt_amd64
              [[x2a; x01; x02; x03; x04; x05; x06; x07; x08; x09; x63]]
              (mkSlice 0 1 9 9)) as (h1 & E1 & _ & E2).
  - unfold wf. simpl. lia.
  - exists h1. split; assumption.
Defined.

Lemma reallocBytes_contract_witness :
  exists b' h',
    reallocBytes (mkSlice 0 1 2 3) 5 [[x2a; x01; x02; x03]] = Done b' h' /\
    bytes h' b' = [x01; x02] /\ 5 <= cap b'.
Proof.
  destruct (reallocBytes_contract [[x2a; x01; x02; x03]] (mkSlice 0 1 2 3) 5)
    as (b' & h' & E & _ & _ & B & C & _).
  - unfold wf. simpl. lia.
  - exists b', h'. split; [exact E|]. split; [exact B|exact C].
Defined.

(** * Encodings as keys *)

Section Keys.

Context (rt : runtime).
Implicit Types (h : heap) (s : slice) (a b d e t u v x y : list byte).

(** No encoding is a prefix of another one, and the encoding determines the
    value. *)
Lemma encoded_prefix_free a ea b eb u v :
  encoded a ea -> encoded b eb -> ea ++ u = eb ++ v -> a = b /\ u = v.
Proof.
  intros Ha Hb E.
  set (F := S (length ea + length eb)).
  destruct (decode_groups_encoded a ea Ha u F) as (k & Hk & Da); [unfold F; lia|].
  destruct (decode_groups_encoded b eb Hb v F) as (k' & Hk' & Db); [unfold F; lia|].
  rewrite E, Db in Da. injection Da as <- <-. split; [reflexivity|].
  apply (app_inj_1 ea eb u v); [lia|exact E].
Qed.

Lemma lex_Eq_inv a b : lex a b = Eq -> a = b.
Proof.
  revert b. induction a as [|p a IH]; intros [|q b]; cbn [lex];
    try discriminate; [reflexivity|].
  destruct (Byte.to_N p ?= Byte.to_N q)%N eqn:C; try discriminate.
  intros E. apply N.compare_eq in C. apply to_N_inj in C. subst q.
  now rewrite (IH b E).
Qed.

(** Two strings of which neither is a prefix of the other compare the same
    whatever follows them. *)
Lemma lex_app_apart x y u v :
  (forall t, x ++ t <> y) -> (forall t, y ++ t <> x) ->
  lex (x ++ u) (y ++ v) = lex x y.
Proof.
  revert y. induction x as [|p x IH]; intros [|q y] H1 H2.
  - now destruct (H1 []).
  - now destruct (H1 (q :: y)).
  - now destruct (H2 (p :: x)).
  - cbn [app lex]. destruct (Byte.to_N p ?= Byte.to_N q)%N eqn:C; try reflexivity.
    apply N.compare_eq in C. apply to_N_inj in C. subst q.
    apply IH; intros t E; [apply (H1 t)|apply (H2 t)]; cbn [app]; now rewrite E.
Qed.

Lemma encoded_order_app a ea b eb u v :
  encoded a ea -> encoded b eb ->
  lex (ea ++ u) (eb ++ v) = match lex a b with Eq => lex u v | c => c end.
Proof.
  intros Ha Hb. destruct (encoded_order a ea b eb Ha Hb) as [Ho _].
  destruct (lex a b) eqn:C.
  - apply lex_Eq_inv in C. subst b. rewrite (encoded_fun _ _ _ Hb Ha).
    rewrite lex_app by reflexivity. now rewrite lex_refl.
  - rewrite <- Ho. apply lex_app_apart; intros t E.
    + rewrite <- (app_nil_r eb) in E.
      destruct (encoded_prefix_free _ _ _ _ _ _ Ha Hb E) as [-> _].
      rewrite lex_refl in C. discriminate.
    + rewrite <- (app_nil_r ea) in E.
      destruct (encoded_prefix_free _ _ _ _ _ _ Hb Ha E) as [-> _].
      rewrite lex_refl in C. discriminate.
  - rewrite <- Ho. apply lex_app_apart; intros t E.
    + rewrite <- (app_nil_r eb) in E.
      destruct (encoded_prefix_free _ _ _ _ _ _ Ha Hb E) as [-> _].
      rewrite lex_refl in C. discriminate.
    + rewrite <- (app_nil_r ea) in E.
      destruct (encoded_prefix_free _ _ _ _ _ _ Hb Ha E) as [-> _].
      rewrite lex_refl in C. discriminate.
Qed.

(** X13: the encoding is prefix free.  If the bytes of [EncodeBytes([], a)]
    followed by [u] equal those of [EncodeBytes([], b)] followed by [v],
    then [a = b] and [u = v]; so the encoding is injective, and no encoded
    value is the beginning of another. *)
Theorem EncodeBytes_prefix_free (a b : slice) u v (ha hb : heap)
    (ra rb : slice) (h1 h2 : heap) :
  wf ha a -> wf hb b ->
  EncodeBytes rt nil_slice a ha = Done ra h1 ->
  EncodeBytes rt nil_slice b hb = Done rb h2 ->
  bytes h1 ra ++ u = bytes h2 rb ++ v ->
  bytes ha a = bytes hb b /\ u = v.
Proof.
  intros Wa Wb Ea Eb E.
  exact (encoded_prefix_free _ _ _ _ _ _
           (EncodeBytes_nil_encoded rt ha a ra h1 Wa Ea)
           (EncodeBytes_nil_encoded rt hb b rb h2 Wb Eb) E).
Qed.

(** Two values encoded one after the other into the [nil] buffer. *)
Lemma EncodeBytes_two (h : heap) (x y : slice) :
  wf h x -> wf h y ->
  exists ex ey r1 h1 r2 h2,
    encoded (bytes h x) ex /\ encoded (bytes h y) ey /\
    EncodeBytes rt nil_slice x h = Done r1 h1 /\
    EncodeBytes rt r1 y h1 = Done r2 h2 /\
    bytes h2 r2 = ex ++ ey.
Proof.
  intros Wx Wy.
  destruct (EncodeBytes_nil_full rt h x Wx) as (ex & Enx & E1).
  set (r1 := mkSlice (length h) 0 (length ex) (length ex)) in *.
  set (h1 := h ++ [ex]) in *.
  assert (W1 : wf h1 r1).
  { unfold wf, r1, h1. cbn [ptr off len cap]. rewrite mem_app_new. lia. }
  assert (B1 : bytes h1 r1 = ex).
  { unfold bytes, r1, h1. cbn [ptr off len]. rewrite mem_app_new, drop_0.
    now apply take_ge. }
  assert (Wy' : wf h1 y) by (now apply wf_app_old).
  assert (By : bytes h1 y = bytes h y) by (now apply bytes_app_old).
  assert (Ha : apart y r1) by (unfold apart, r1; cbn [len cap]; lia).
  destruct (EncodeBytes_grows rt h1 r1 y W1 Wy' (or_introl Ha))
    as (ey & r2 & h2 & Eny & E2 & (_ & _ & B2 & _)).
  rewrite By in Eny. rewrite B1 in B2.
  now exists ex, ey, r1, h1, r2, h2.
Qed.

(** X14: keys of two columns.  Encoding [a1] and then [a2] into one buffer,
    and likewise [b1] and [b2], gives buffers whose bytewise comparison is
    the comparison of the pairs: that of [a1] and [b1], and that of [a2] and
    [b2] when these are equal. *)
Theorem EncodeBytes_pair_order (a1 a2 b1 b2 : slice) (ha hb : heap) :
  wf ha a1 -> wf ha a2 -> wf hb b1 -> wf hb b2 ->
  exists r1 h1 r2 h2 s1 k1 s2 k2,
    EncodeBytes rt nil_slice a1 ha = Done r1 h1 /\
    EncodeBytes rt r1 a2 h1 = Done r2 h2 /\
    EncodeBytes rt nil_slice b1 hb = Done s1 k1 /\
    EncodeBytes rt s1 b2 k1 = Done s2 k2 /\
    bytes_Compare (bytes h2 r2) (bytes k2 s2)
    = (if (bytes_Compare (bytes ha a1) (bytes hb b1) =? 0)%Z
       then bytes_Compare (bytes ha a2) (bytes hb b2)
       else bytes_Compare (bytes ha a1) (bytes hb b1)).
Proof.
  intros Wa1 Wa2 Wb1 Wb2.
  destruct (EncodeBytes_two ha a1 a2 Wa1 Wa2)
    as (ea1 & ea2 & r1 & h1 & r2 & h2 & Na1 & Na2 & E1 & E2 & B2).
  destruct (EncodeBytes_two hb b1 b2 Wb1 Wb2)
    as (eb1 & eb2 & s1 & k1 & s2 & k2 & Nb1 & Nb2 & F1 & F2 & C2).
  exists r1, h1, r2, h2, s1, k1, s2, k2.
  repeat (split; [assumption|]).
  rewrite B2, C2, !bytes_Compare_lex.
  rewrite (encoded_order_app _ _ _ _ _ _ Na1 Nb1).
  destruct (encoded_order _ _ _ _ Na2 Nb2) as [-> _].
  now destruct (lex (bytes ha a1) (bytes hb b1)).
Qed.

End Keys.

Lemma EncodeBytes_prefix_free_witness :
  exists ra h1 rb h2,
    EncodeBytes rt_amd64 nil_slice (mkSlice 0 0 1 1) [[x01]] = Done ra h1 /\
    EncodeBytes rt_amd64 nil_slice (mkSlice 0 1 1 1) [[x63; x01]]
    = Done rb h2 /\
    bytes h1 ra ++ [x2a; x2b] = bytes h2 rb ++ [x2a; x2b] /\
    [x01] = [x01] /\ [x2a; x2b] = [x2a; x2b].
Proof.
  destruct (EncodeBytes rt_amd64 nil_slice (mkSlice 0 0 1 1) [[x01]])
    as [ra h1| |] eqn:Ea; try (vm_compute in Ea; discriminate).
  destruct (EncodeBytes rt_amd64 nil_slice (mkSlice 0 1 1 1) [[x63; x01]])
    as [rb h2| |] eqn:Eb; try (vm_compute in Eb; discriminate).
  assert (E : bytes h1 ra ++ [x2a; x2b] = bytes h2 rb ++ [x2a; x2b]).
  { vm_compute in Ea. vm_compute in Eb. inversion Ea. inversion Eb.
    reflexivity. }
  exists ra, h1, rb, h2.
  split; [reflexivity|]. split; [reflexivity|]. split; [exact E|].
  apply (EncodeBytes_prefix_free rt_amd64 (mkSlice 0 0 1 1)
           (mkSlice 0 1 1 1) [x2a; x2b] [x2a; x2b]
           [[x01]] [[x63; x01]] ra rb h1 h2); try assumption;
    unfold wf; simpl; lia.
Defined.

Lemma EncodeBytes_pair_order_witness :
  exists r1 h1 r2 h2 s1 k1 s2 k2,
    EncodeBytes rt_amd64 nil_slice (mkSlice 0 0 1 1) [[x01; x05]]
    = Done r1 h1 /\
    EncodeBytes rt_amd64 r1 (mkSlice 0 1 1 1) h1 = Done r2 h2 /\
    EncodeBytes rt_amd64 nil_slice (mkSlice 0 0 1 1) [[x01; x07]]
    = Done s1 k1 /\
    EncodeBytes rt_amd64 s1 (mkSlice 0 1 1 1) k1 = Done s2 k2 /\
    bytes_Compare (bytes h2 r2) (bytes k2 s2) = (-1)%Z.
Proof.
  destruct (EncodeBytes_pair_order rt_amd64 (mkSlice 0 0 1 1)
              (mkSlice 0 1 1 1) (mkSlice 0 0 1 1) (mkSlice 0 1 1 1)
              [[x01; x05]] [[x01; x07]])
    as (r1 & h1 & r2 & h2 & s1 & k1 & s2 & k2 & K).
  - unfold wf. simpl. lia.
  - unfold wf. simpl. lia.
  - unfold wf. simpl. lia.
  - unfold wf. simpl. lia.
  - exists r1, h1, r2, h2, s1, k1, s2, k2. exact K.
Defined.

(** * What an error reports *)

Section ErrorReports.

Context (rt : runtime).
Implicit Types (h : heap) (b s : slice) (d e t v xs out : list byte).

Lemma nat_of_byte_padCount (m : byte) :
  nat_of_byte (byte_sub encMarker m) = 255 - nat_of_byte m.
Proof.
  unfold nat_of_byte. rewrite padCount_marker. lia.
Qed.

Lemma nth_take_9 v : nth 8 (take 9 v) x00 = nth 8 v x00.
Proof.
  rewrite !nth_lookup. now rewrite lookup_take_lt by lia.
Qed.

Lemma decode_groups_reported (fuel : nat) :
  forall v (n : nat) out (x : error),
    decode_groups fuel v = (n, out, Some x) ->
    exists k,
      9 * k <= length v /\
      (forall i, i < k -> nth (9 * i + 8) v x00 = encMarker) /\
      reported v k x.
Proof.
  induction fuel as [|fuel IH]; intros v n out x E; [discriminate|].
  cbn [decode_groups] in E. unfold encGroupSize in E.
  change (8 + 1) with 9 in E.
  destruct (Nat.ltb_spec (length v) 9) as [Hl|Hl].
  { injection E as <- <- <-. exists 0. cbn [reported].
    split; [lia|]. split; [intros i Hi; lia|lia]. }
  set (marker := nth 8 v x00) in *.
  pose proof (nat_of_byte_padCount marker) as Hp.
  assert (Hm : nat_of_byte marker <= 255).
  { unfold nat_of_byte. pose proof (Byte.to_N_bounded marker). lia. }
  destruct (byte_gtb (byte_sub encMarker marker) (byte_of_nat 8)) eqn:Hgt.
  { injection E as <- <- <-. exists 0. cbn [reported].
    rewrite Nat.mul_0_r, drop_0, nth_take_9. fold marker.
    split; [lia|]. split; [intros i Hi; lia|].
    split; [lia|]. split; [reflexivity|].
    unfold byte_gtb in Hgt. apply N.ltb_lt in Hgt.
    change (Byte.to_N (byte_of_nat 8)) with 8%N in Hgt.
    unfold nat_of_byte in Hp. unfold nat_of_byte. lia. }
  destruct (realGroupSize_marker marker Hgt) as [Hr Hp8].
  unfold encGroupSize in Hr.
  destruct (Byte.eqb marker encMarker) eqn:Hmk; cbn [negb] in E.
  - apply Byte.byte_dec_bl in Hmk.
    destruct (decode_groups fuel (drop 9 v)) as [[k' out'] err'] eqn:Ed.
    injection E as <- <- ->.
    destruct (IH _ _ _ _ Ed) as (k & Hk & Hmarks & Hrep).
    rewrite length_drop in Hk.
    exists (S k). split; [lia|]. split.
    + intros [|i] Hi; [exact Hmk|].
      replace (9 * S i + 8) with (9 + (9 * i + 8)) by lia.
      rewrite nth_lookup, <- lookup_drop, <- nth_lookup.
      apply Hmarks. lia.
    + destruct x as [ |g|g| | | ]; cbn [reported] in *;
        rewrite ?length_drop, ?drop_drop in Hrep; try assumption;
        replace (9 * S k) with (9 + 9 * k) by lia.
      * lia.
      * destruct Hrep as (H1 & H2 & H3). split; [lia|]. now split.
      * destruct Hrep as (H1 & H2 & H3). split; [lia|]. now split.
  - destruct (negb (_ =? _)) eqn:Hc; [|discriminate].
    injection E as <- <- <-. exists 0. cbn [reported].
    rewrite Nat.mul_0_r, drop_0, nth_take_9. fold marker.
    split; [lia|]. split; [intros i Hi; lia|].
    split; [lia|]. split; [reflexivity|]. cbv zeta.
    assert (Hne : nat_of_byte marker <> 255).
    { intros Hx. assert (Hx' : marker = encMarker).
      { apply to_N_inj. unfold nat_of_byte in Hx.
        change (Byte.to_N encMarker) with 255%N. lia. }
      rewrite Hx' in Hmk. vm_compute in Hmk. discriminate. }
    split; [lia|].
    apply Bool.negb_true_iff, Nat.eqb_neq in Hc.
    rewrite Hr, Hp in Hc. intros Hz. apply Hc.
    replace (8 - (255 - nat_of_byte marker)) with (nat_of_byte marker - 247)
      by lia.
    replace (8 - (nat_of_byte marker - 247)) with (255 - nat_of_byte marker)
      by lia.
    rewrite take_drop_commute, take_take in Hz.
    replace ((nat_of_byte marker - 247 + (255 - nat_of_byte marker)) `min` 9)
      with (nat_of_byte marker - 247 + (255 - nat_of_byte marker)) in Hz by lia.
    rewrite <- take_drop_commute in Hz. rewrite Hz.
    apply bytes_Count_replicate.
Qed.

(** X15: what an error of [decodeBytes] reports.  The decoder fails only
    behind a run of groups with marker 255; it reports insufficient bytes
    when fewer than nine bytes follow them, an invalid marker when the next
    group has a marker below 247, and invalid padding when the marker
    announces pad bytes that are not all zero.  The group carried by the
    error is the offending group as the decoder read it, complemented in a
    descending decode. *)
Theorem decodeBytes_error_reported (rev : bool) h b (x : error) (h' : heap) :
  wf h b ->
  decodeBytes rt b rev h = Done (inl x) h' ->
  exists k,
    9 * k <= len b /\
    (forall i, i < k -> nth (9 * i + 8) (view rev h b) x00 = encMarker) /\
    reported (view rev h b) k x.
Proof.
  intros Hwf E.
  destruct (decodeBytes_spec rt rev b h Hwf) as (n & out & err & Ed & _ & E').
  rewrite E' in E. destruct err as [y|]; [|discriminate].
  injection E as -> _.
  destruct (decode_groups_reported _ _ _ _ _ Ed) as (k & Hk & Hm & Hr).
  rewrite (view_length rev h b Hwf) in Hk. now exists k.
Qed.

End ErrorReports.

Lemma decodeBytes_error_reported_witness :
  exists g h' k,
    decodeBytes rt_amd64 (mkSlice 0 0 9 9) false
      [[x01; x02; x03; x00; x00; x00; x07; x00; xfa]]
    = Done (inl (ErrInvalidPadding g)) h' /\
    reported [x01; x02; x03; x00; x00; x00; x07; x00; xfa] k
      (ErrInvalidPadding g).
Proof.
  set (h := [[x01; x02; x03; x00; x00; x00; x07; x00; xfa]]).
  set (b := mkSlice 0 0 9 9).
  assert (Hwf : wf h b) by (unfold wf; simpl; lia).
  destruct (decodeBytes rt_amd64 b false h) as [[x|[rest data]] h'| |] eqn:E;
    try (vm_compute in E; discriminate).
  destruct (decodeBytes_error_reported rt_amd64 false h b x h' Hwf E)
    as (k & _ & _ & Hr).
  destruct x as [ |g|g| | | ]; try (vm_compute in E; discriminate).
  exists g, h', k. split; [reflexivity|exact Hr].
Defined.

(** * The compact format *)

Section CompactMore.

Context (rt : runtime).
Context (EncodeVarint : slice -> Z -> Go slice).
Context (DecodeVarint : slice -> Go (error + slice * Z)).
Implicit Types (h : heap) (b s : slice) (d : list byte).

(** Lengths below [2^31] survive the conversion to [int] on every target. *)
Lemma int_of_int64_small (a : goarch) (n : Z) :
  (- 2 ^ 31 <= n < 2 ^ 31)%Z -> int_of_int64 a n = n.
Proof.
  intros Hn. unfold int_of_int64.
  destruct a; cbn [sizeof_uintptr];
    match goal with
    | |- context [(2 ^ Z.of_nat ?k)%Z] =>
        let v := eval vm_compute in (2 ^ Z.of_nat k)%Z in
        change (2 ^ Z.of_nat k)%Z with v
    end;
    match goal with
    | |- context [(?m / 2)%Z] =>
        let v := eval vm_compute in (m / 2)%Z in
        change (m / 2)%Z with v
    end;
    rewrite Z.mod_small by lia; lia.
Qed.

(** X16: [DecodeCompactBytes] on a valid length.  When [DecodeVarint]
    yields a length [n] that the rest of the buffer can serve, the payload
    is a copy of the next [n] bytes in a fresh array, the remainder is what
    follows them, and no array that existed is written. *)
Theorem DecodeCompactBytes_copies b h (b' : slice) (n : nat) (h1 : heap) :
  DecodeVarint b h = Done (inr (b', Z.of_nat n)) h1 ->
  wf h1 b' ->
  n <= len b' ->
  (Z.of_nat n < 2 ^ 31)%Z ->
  exists rest data h2,
    DecodeCompactBytes rt DecodeVarint b h = Done (inr (rest, data)) h2 /\
    bytes h2 data = take n (bytes h1 b') /\
    bytes h2 rest = drop n (bytes h1 b') /\
    ptr data = length h1 /\
    h2 = h1 ++ [take n (bytes h1 b')].
Proof.
  intros E Hwf Hn Hs.
  assert (Hr : (0 <= Z.of_nat n <= Z.of_nat (len b'))%Z) by lia.
  assert (Hi : int_of_int64 (GOARCH rt) (Z.of_nat n) = Z.of_nat n)
    by (apply int_of_int64_small; lia).
  destruct (DecodeCompactBytes_valid rt DecodeVarint b h b' (Z.of_nat n) h1
              E Hwf Hr Hi)
    as (rest & data & h2 & E2 & P & D & R & H2).
  rewrite Nat2Z.id in *.
  exists rest, data, h2. repeat split; assumption.
Qed.


End CompactMore.

Lemma DecodeCompactBytes_copies_witness :
  exists rest data h2,
    DecodeCompactBytes rt_amd64 DecodeVarint_binary (mkSlice 0 0 5 5)
      [[x06; x0a; x0b; x0c; x0d]]
    = Done (inr (rest, data)) h2 /\
    bytes h2 data = [x0a; x0b; x0c] /\
    bytes h2 rest = [x0d] /\
    ptr data = 1.
Proof.
  destruct (DecodeCompactBytes_copies rt_amd64 DecodeVarint_binary
              (mkSlice 0 0 5 5) [[x06; x0a; x0b; x0c; x0d]]
              (mkSlice 0 1 4 4) 3 [[x06; x0a; x0b; x0c; x0d]])
    as (rest & data & h2 & E & D & R & P & _).
  - vm_compute. reflexivity.
  - unfold wf. simpl. lia.
  - simpl. lia.
  - reflexivity.
  - exists rest, data, h2. split; [exact E|].
    split; [exact D|]. split; [exact R|exact P].
Defined.


(** * The two directions do not mix *)

Section Directions.

Context (rt : runtime).
Implicit Types (h : heap) (b s : slice) (d e t v xs out : list byte).

(** An encoding has a first group with a valid marker. *)
Lemma encoded_first_marker d e :
  encoded d e ->
  9 <= length e /\
  byte_gtb (byte_sub encMarker (nth 8 e x00)) (byte_of_nat 8) = false.
Proof.
  intros En.
  destruct (decode_groups_encoded d e En [] (S (length e)) ltac:(lia))
    as (k & _ & Ed).
  rewrite app_nil_r in Ed. exact (decode_groups_first_marker _ _ _ _ Ed).
Qed.

Lemma decode_groups_complemented (fuel : nat) d e :
  encoded d e ->
  decode_groups (S fuel) (map byte_not e)
  = (1, [], Some (ErrInvalidMarker (take 9 (map byte_not e)))).
Proof.
  intros En. destruct (encoded_first_marker d e En) as [Hl Hm].
  apply (decode_groups_complemented_marker fuel _ (nth 8 e x00)).
  - now rewrite length_map.
  - exact Hm.
  - apply nth_map_byte_not. lia.
Qed.

(** X18: the two directions do not mix.  [DecodeBytes] rejects every
    buffer written by [EncodeBytesDesc], and [DecodeBytesDesc] rejects every
    buffer written by [EncodeBytes]: both report an invalid marker in the
    first group. *)
Theorem decodeBytes_wrong_direction (src : slice) (h0 : heap) :
  wf h0 src ->
  exists r1 h1 k1 r2 h2 k2,
    EncodeBytesDesc rt nil_slice src h0 = Done r1 h1 /\
    DecodeBytes rt r1 h1
    = Done (inl (ErrInvalidMarker (take 9 (bytes h1 r1)))) k1 /\
    EncodeBytes rt nil_slice src h0 = Done r2 h2 /\
    DecodeBytesDesc rt r2 h2
    = Done (inl (ErrInvalidMarker (map byte_not (take 9 (bytes h2 r2))))) k2.
Proof.
  intros Ws.
  destruct (EncodeBytesDesc_nil rt h0 src Ws)
    as (e1 & r1 & h1 & En1 & E1 & W1 & B1).
  destruct (EncodeBytes_nil rt h0 src Ws)
    as (e2 & r2 & h2 & En2 & E2 & W2 & B2).
  destruct (decodeBytes_spec rt false r1 h1 W1)
    as (n1 & o1 & x1 & D1 & _ & F1).
  destruct (decodeBytes_spec rt true r2 h2 W2)
    as (n2 & o2 & x2 & D2 & _ & F2).
  unfold view in D1, D2. rewrite B1 in D1. rewrite B2 in D2.
  rewrite (decode_groups_complemented _ _ e1 En1) in D1.
  rewrite (decode_groups_complemented _ _ e2 En2) in D2.
  injection D1 as <- <- <-. injection D2 as <- <- <-.
  rewrite <- B1 in F1. rewrite <- fmap_take, <- B2 in F2.
  eexists r1, h1, _, r2, h2, _.
  split; [exact E1|]. split; [exact F1|]. split; [exact E2|exact F2].
Qed.

(** Writing behind the live part of the last array of the store. *)
Lemma poke_last_extend (H : heap) (a xs : list byte) (n : nat) :
  poke (H ++ [a ++ replicate n x00]) (length H) (length a) xs
  = H ++ [a ++ xs ++ drop (length xs) (replicate n x00)].
Proof.
  unfold poke. rewrite mem_app_new.
  rewrite insert_app_r_alt by reflexivity. rewrite Nat.sub_diag.
  cbn [insert list_insert]. do 2 f_equal.
  rewrite take_app_length. do 2 f_equal.
  now rewrite drop_app_add' by reflexivity.
Qed.

(** Below the size of the encoding the capacity of [b] is not used. *)
Lemma EncodeBytes_of_reallocates h b d :
  wf h b ->
  cap b < 9 * (length d / 8 + 1) ->
  exists e,
    encoded d e /\
    EncodeBytes_of rt b d h
    = Done (mkSlice (length h) 0 (len b + length e) (len b + length e))
           (h ++ [bytes h b ++ e]).
Proof.
  intros Hwf Hc. destruct (encoded_total rt d) as [e En].
  pose proof (encoded_length d e En) as Le.
  pose proof (length_bytes h b Hwf) as HB.
  exists e. split; [exact En|].
  unfold EncodeBytes_of, encGroupSize. change (8 + 1) with 9.
  set (n := (length d / 8 + 1) * 9). assert (Hn : n = length e) by lia.
  rewrite (bind_Done _ _ _ _ _
             (reallocBytes_alloc h b n Hwf ltac:(lia))).
  assert (Hw : wf (h ++ [bytes h b ++ replicate n x00])
                  (mkSlice (length h) 0 (len b) (len b + n))).
  { unfold wf. cbn [ptr off len cap].
    rewrite mem_app_new, length_app, length_replicate. lia. }
  rewrite (EncodeBytes_of_loop_inplace rt (S (length d)) d 0 _ _ e Hw)
    by (cbn [len cap]; (assumption || lia)).
  cbn [ptr off len cap Nat.add]. rewrite <- HB at 3.
  rewrite poke_last_extend.
  rewrite drop_replicate, Hn, Nat.sub_diag. cbn [replicate].
  now rewrite app_nil_r.
Qed.

(** X19: when the capacity of [b] is below the size of the encoding,
    [EncodeBytes] allocates exactly once: the store grows by one array, which
    holds the bytes of [b] followed by the encoding and nothing else; no
    array that existed is written, wherever the data lies, and [append]
    never has to grow the buffer, whatever the growth policy of the run-time
    system. *)
Theorem EncodeBytes_reallocates h b (data : slice) :
  wf h b -> wf h data ->
  cap b < 9 * (len data / 8 + 1) ->
  exists e,
    encoded (bytes h data) e /\
    EncodeBytes rt b data h
    = Done (mkSlice (length h) 0 (len b + length e) (len b + length e))
           (h ++ [bytes h b ++ e]).
Proof.
  intros Hwf Wd Hc.
  rewrite (EncodeBytes_apart rt h b data Hwf Wd (or_intror Hc)).
  apply EncodeBytes_of_reallocates; [exact Hwf|].
  now rewrite (length_bytes h data Wd).
Qed.

End Directions.

Lemma decodeBytes_wrong_direction_witness :
  exists r1 h1 k1 r2 h2 k2,
    EncodeBytesDesc rt_amd64 nil_slice (mkSlice 0 0 1 1) [[x07]]
    = Done r1 h1 /\
    DecodeBytes rt_amd64 r1 h1
    = Done (inl (ErrInvalidMarker (take 9 (bytes h1 r1)))) k1 /\
    EncodeBytes rt_amd64 nil_slice (mkSlice 0 0 1 1) [[x07]] = Done r2 h2 /\
    DecodeBytesDesc rt_amd64 r2 h2
    = Done (inl (ErrInvalidMarker (map byte_not (take 9 (bytes h2 r2))))) k2.
Proof.
  destruct (decodeBytes_wrong_direction rt_amd64 (mkSlice 0 0 1 1) [[x07]])
    as (r1 & h1 & k1 & r2 & h2 & k2 & K).
  - unfold wf. simpl. lia.
  - exists r1, h1, k1, r2, h2, k2. exact K.
Defined.

Lemma EncodeBytes_reallocates_witness :
  EncodeBytes rt_amd64 (mkSlice 0 1 2 3) (mkSlice 0 3 1 1)
    [[x2a; x01; x02; x07]]
  = Done (mkSlice 1 0 11 11)
      [[x2a; x01; x02; x07];
       [x01; x02; x07; x00; x00; x00; x00; x00; x00; x00; xf8]].
Proof.
  destruct (EncodeBytes_reallocates rt_amd64 [[x2a; x01; x02; x07]]
              (mkSlice 0 1 2 3) (mkSlice 0 3 1 1)) as (e & En & E).
  - unfold wf. simpl. lia.
  - unfold wf. simpl. lia.
  - simpl. lia.
  - rewrite E. clear E.
    change (bytes _ (mkSlice 0 3 1 1)) with [x07] in En.
    inversion En as [d0 Hd|g d0 e0 Hg He]; subst.
    + reflexivity.
    + destruct g as [|x [|y g]]; [discriminate| |discriminate].
      cbn in Hg. discriminate.
Defined.

(** * Damaged encodings *)

Section Damage.

Context (rt : runtime).
Implicit Types (h : heap) (b s : slice) (d e t v xs out : list byte).

(** A pad byte of the last group that is not zero is found. *)
Lemma decode_groups_bad_padding d e :
  encoded d e ->
  forall (j : nat) (x : byte) t (fuel : nat),
    length d mod 8 <= j < 8 -> x <> x00 -> length e < 9 * fuel ->
    exists k out,
      decode_groups fuel (<[9 * (length d / 8) + j := x]> e ++ t)
      = (k, out,
         Some (ErrInvalidPadding
                 (take 9 (drop (9 * (length d / 8))
                            (<[9 * (length d / 8) + j := x]> e))))).
Proof.
  induction 1 as [d Hd|g d e Hg He IH]; intros j x t fuel Hj Hx Hf;
    (destruct fuel as [|fuel]; [lia|]); unfold encGroupSize in *.
  - rewrite Nat.mod_small in Hj by lia. rewrite Nat.div_small by lia.
    rewrite Nat.mul_0_r, Nat.add_0_l, drop_0.
    destruct (marker_last (length d) Hd) as (M1 & M2 & M3 & M4).
    cbv zeta in *.
    set (m := byte_sub encMarker (byte_of_nat (8 - length d))) in *.
    set (p := 8 - length d) in *.
    set (P := <[j - length d := x]> (replicate p encPad)).
    assert (LP : length P = p)
      by (unfold P; now rewrite length_insert, length_replicate).
    assert (EP : <[j := x]> (d ++ replicate p encPad ++ [m]) = d ++ P ++ [m]).
    { rewrite insert_app_r_alt by lia. f_equal.
      rewrite insert_app_l by (rewrite length_replicate; unfold p; lia).
      reflexivity. }
    rewrite EP.
    assert (Hg : length (d ++ P) = 8) by (rewrite length_app, LP; unfold p; lia).
    assert (T9 : take 9 (d ++ P ++ [m]) = d ++ P ++ [m]).
    { apply take_ge. rewrite !length_app, LP. cbn [length]. unfold p. lia. }
    rewrite T9.
    exists 1, d.
    replace ((d ++ P ++ [m]) ++ t) with ((d ++ P) ++ m :: t)
      by (now rewrite <- !app_assoc).
    cbn [decode_groups]. unfold encGroupSize. change (8 + 1) with 9.
    destruct (Nat.ltb_spec (length ((d ++ P) ++ m :: t)) 9) as [Hl|_];
      [rewrite length_app in Hl; cbn in Hl; lia|].
    rewrite nth_group by assumption. rewrite M1, M2, M3, M4. cbn [negb].
    assert (T9' : take 9 ((d ++ P) ++ m :: t) = d ++ P ++ [m]).
    { change (m :: t) with ([m] ++ t). rewrite (app_assoc _ [m] t).
      rewrite <- (app_assoc d P [m]).
      apply take_app_length'. rewrite !length_app, LP. cbn [length].
      unfold p. lia. }
    rewrite T9'. rewrite <- !app_assoc.
    rewrite take_app_length, drop_app_length.
    fold p. rewrite take_app_length' by lia.
    destruct (Nat.eqb_spec (bytes_Count P encPad) p) as [Hc|Hc];
      [|reflexivity].
    exfalso. rewrite <- LP in Hc. apply bytes_Count_all in Hc.
    assert (Hl : P !! (j - length d) = Some x).
    { unfold P. apply list_lookup_insert_eq.
      rewrite length_replicate. unfold p. lia. }
    rewrite Hc, lookup_replicate in Hl. destruct Hl as [Hl _].
    apply Hx. exact Hl.
  - rewrite length_app, Hg in *.
    replace (8 + length d) with (length d + 1 * 8) in * by lia.
    rewrite Nat.div_add by lia.
    rewrite Nat.Div0.mod_add in Hj.
    set (q := length d / 8) in *.
    replace (9 * (q + 1) + j) with (9 + (9 * q + j)) by lia.
    replace (9 * (q + 1)) with (9 + 9 * q) by lia.
    assert (EI : <[9 + (9 * q + j) := x]> (g ++ [encMarker] ++ e)
                 = g ++ encMarker :: <[9 * q + j := x]> e).
    { rewrite app_assoc.
      rewrite insert_app_r_alt by (rewrite length_app, Hg; cbn [length]; lia).
      rewrite length_app, Hg. cbn [length].
      replace (9 + (9 * q + j) - (8 + 1)) with (9 * q + j) by lia.
      now rewrite <- app_assoc. }
    rewrite EI. rewrite <- drop_drop, drop_group by assumption.
    cbn [length app] in Hf.
    destruct (IH j x t fuel Hj Hx ltac:(lia)) as (k & out & Ed).
    exists (S k), (g ++ out).
    rewrite <- app_assoc. cbn [app].
    rewrite decode_groups_more by assumption. fold q in Ed. now rewrite Ed.
Qed.

(** X20: a damaged pad byte is found.  If a buffer holds an encoded value
    in which one pad byte of the last group was replaced by a byte other
    than zero, followed by any bytes, [DecodeBytes] reports invalid padding
    and the error carries that group. *)
Theorem DecodeBytes_bad_padding (src : slice) (h0 : heap) (r : slice)
    (h1 : heap) h b (j : nat) (x : byte) t :
  wf h0 src ->
  EncodeBytes rt nil_slice src h0 = Done r h1 ->
  wf h b ->
  len src mod 8 <= j < 8 ->
  x <> x00 ->
  bytes h b = <[9 * (len src / 8) + j := x]> (bytes h1 r) ++ t ->
  exists h',
    DecodeBytes rt b h
    = Done (inl (ErrInvalidPadding
                   (take 9 (drop (9 * (len src / 8)) (bytes h b))))) h'.
Proof.
  intros Ws E Hwf Hj Hx Hb.
  pose proof (EncodeBytes_nil_encoded rt h0 src r h1 Ws E) as En.
  pose proof (encoded_length _ _ En) as Le.
  pose proof (length_bytes h b Hwf) as HB.
  pose proof (length_bytes h0 src Ws) as HS.
  rewrite <- HS in Hj, Hb |- *.
  assert (Hlen : length (bytes h1 r) <= len b).
  { rewrite <- HB, Hb, length_app, length_insert. lia. }
  destruct (decodeBytes_spec rt false b h Hwf) as (k & out & err & Ed & _ & E').
  destruct (decode_groups_bad_padding _ _ En j x t (S (len b)) Hj Hx)
    as (k' & out' & Ed'); [lia|].
  unfold view in Ed. rewrite Hb, Ed' in Ed. injection Ed as <- <- <-.
  eexists. unfold DecodeBytes. rewrite E'. do 3 f_equal.
  rewrite Hb. rewrite drop_app_le by (rewrite length_insert; lia).
  rewrite take_app_le; [reflexivity|].
  rewrite length_drop, length_insert. lia.
Qed.

End Damage.

Lemma DecodeBytes_bad_padding_witness :
  exists h',
    DecodeBytes rt_amd64 (mkSlice 0 0 10 10)
      [[x01; x00; x00; x07; x00; x00; x00; x00; xf8; x2a]]
    = Done (inl (ErrInvalidPadding
                   [x01; x00; x00; x07; x00; x00; x00; x00; xf8])) h'.
Proof.
  destruct (EncodeBytes rt_amd64 nil_slice (mkSlice 0 0 1 1) [[x01]])
    as [r h1| |] eqn:E; try (vm_compute in E; discriminate).
  apply (DecodeBytes_bad_padding rt_amd64 (mkSlice 0 0 1 1) [[x01]] r h1
           [[x01; x00; x00; x07; x00; x00; x00; x00; xf8; x2a]]
           (mkSlice 0 0 10 10) 3 x07 [x2a]).
  - unfold wf. simpl. lia.
  - exact E.
  - unfold wf. simpl. lia.
  - simpl. lia.
  - discriminate.
  - vm_compute in E. inversion E. reflexivity.
Defined.

Section MarkerDamage.

Context (rt : runtime).
Implicit Types (h : heap) (b s : slice) (d e g t v xs out : list byte).

(** A group whose marker is below 247 is rejected. *)
Lemma decode_groups_bad_group (fuel : nat) g (x : byte) t :
  length g = 8 -> nat_of_byte x < 247 ->
  decode_groups (S fuel) (g ++ x :: t)
  = (1, [], Some (ErrInvalidMarker (g ++ [x]))).
Proof.
  intros Hg Hx. cbn [decode_groups]. unfold encGroupSize.
  change (8 + 1) with 9.
  destruct (Nat.ltb_spec (length (g ++ x :: t)) 9) as [Hl|_];
    [rewrite length_app in Hl; cbn in Hl; lia|].
  rewrite nth_group by assumption.
  assert (Hgt : byte_gtb (byte_sub encMarker x) (byte_of_nat 8) = true).
  { unfold byte_gtb. apply N.ltb_lt. rewrite padCount_marker.
    change (Byte.to_N (byte_of_nat 8)) with 8%N.
    unfold nat_of_byte in Hx. lia. }
  rewrite Hgt. do 3 f_equal.
  change (x :: t) with ([x] ++ t). rewrite app_assoc.
  apply take_app_length'. rewrite length_app, Hg. reflexivity.
Qed.

Lemma decode_groups_bad_marker d e :
  encoded d e ->
  forall (k : nat) (x : byte) t (fuel : nat),
    k <= length d / 8 -> nat_of_byte x < 247 -> length e < 9 * fuel ->
    exists n out,
      decode_groups fuel (<[9 * k + 8 := x]> e ++ t)
      = (n, out,
         Some (ErrInvalidMarker
                 (take 9 (drop (9 * k) (<[9 * k + 8 := x]> e))))).
Proof.
  induction 1 as [d Hd|g d e Hg He IH]; intros k x t fuel Hk Hx Hf;
    (destruct fuel as [|fuel]; [lia|]); unfold encGroupSize in *.
  - rewrite Nat.div_small in Hk by lia.
    assert (k = 0) as -> by lia. cbn [Nat.mul Nat.add]. rewrite drop_0.
    set (m := byte_sub encMarker (byte_of_nat (8 - length d))).
    set (G := d ++ replicate (8 - length d) encPad).
    assert (LG : length G = 8)
      by (unfold G; rewrite length_app, length_replicate; lia).
    assert (EI : <[8 := x]> (d ++ replicate (8 - length d) encPad ++ [m])
                 = G ++ [x]).
    { rewrite app_assoc. fold G.
      rewrite insert_app_r_alt by lia. now rewrite LG, Nat.sub_diag. }
    rewrite EI. rewrite <- app_assoc. cbn [app].
    rewrite decode_groups_bad_group by assumption.
    exists 1, []. do 3 f_equal. symmetry. apply take_ge.
    rewrite length_app, LG. cbn [length]. lia.
  - destruct k as [|k].
    + cbn [Nat.mul Nat.add]. rewrite drop_0.
      assert (EI : <[8 := x]> (g ++ [encMarker] ++ e) = (g ++ [x]) ++ e).
      { rewrite insert_app_r_alt by lia. rewrite Hg, Nat.sub_diag.
        now rewrite <- app_assoc. }
      rewrite EI. rewrite <- !app_assoc. cbn [app].
      rewrite decode_groups_bad_group by assumption.
      exists 1, []. do 3 f_equal.
      change (x :: e) with ([x] ++ e). rewrite app_assoc. symmetry.
      apply take_app_length'. rewrite length_app, Hg. reflexivity.
    + rewrite length_app, Hg in Hk.
      replace (8 + length d) with (length d + 1 * 8) in Hk by lia.
      rewrite Nat.div_add in Hk by lia.
      replace (9 * S k + 8) with (9 + (9 * k + 8)) by lia.
      replace (9 * S k) with (9 + 9 * k) by lia.
      assert (EI : <[9 + (9 * k + 8) := x]> (g ++ [encMarker] ++ e)
                   = g ++ encMarker :: <[9 * k + 8 := x]> e).
      { rewrite app_assoc.
        rewrite insert_app_r_alt by (rewrite length_app, Hg; cbn [length]; lia).
        rewrite length_app, Hg. cbn [length].
        replace (9 + (9 * k + 8) - (8 + 1)) with (9 * k + 8) by lia.
        now rewrite <- app_assoc. }
      rewrite EI. rewrite <- drop_drop, drop_group by assumption.
      rewrite length_app, Hg in Hf. cbn [length app] in Hf.
      destruct (IH k x t fuel ltac:(lia) Hx ltac:(lia)) as (n & out & Ed).
      exists (S n), (g ++ out).
      rewrite <- app_assoc. cbn [app].
      rewrite decode_groups_more by assumption. now rewrite Ed.
Qed.

(** X21: a damaged marker is found.  If a buffer holds an encoded value in
    which the marker of one group was replaced by a byte below 247,
    followed by any bytes, [DecodeBytes] reports an invalid marker and the
    error carries that group. *)
Theorem DecodeBytes_bad_marker (src : slice) (h0 : heap) (r : slice)
    (h1 : heap) h b (k : nat) (x : byte) t :
  wf h0 src ->
  EncodeBytes rt nil_slice src h0 = Done r h1 ->
  wf h b ->
  k <= len src / 8 ->
  nat_of_byte x < 247 ->
  bytes h b = <[9 * k + 8 := x]> (bytes h1 r) ++ t ->
  exists h',
    DecodeBytes rt b h
    = Done (inl (ErrInvalidMarker (take 9 (drop (9 * k) (bytes h b))))) h'.
Proof.
  intros Ws E Hwf Hk Hx Hb.
  pose proof (EncodeBytes_nil_encoded rt h0 src r h1 Ws E) as En.
  pose proof (encoded_length _ _ En) as Le.
  pose proof (length_bytes h b Hwf) as HB.
  pose proof (length_bytes h0 src Ws) as HS.
  rewrite <- HS in Hk.
  assert (Hlen : length (bytes h1 r) <= len b).
  { rewrite <- HB, Hb, length_app, length_insert. lia. }
  destruct (decodeBytes_spec rt false b h Hwf) as (n & out & err & Ed & _ & E').
  destruct (decode_groups_bad_marker _ _ En k x t (S (len b)) Hk Hx)
    as (n' & out' & Ed'); [lia|].
  unfold view in Ed. rewrite Hb, Ed' in Ed. injection Ed as <- <- <-.
  eexists. unfold DecodeBytes. rewrite E'. do 3 f_equal.
  rewrite Hb. rewrite drop_app_le by (rewrite length_insert; lia).
  rewrite take_app_le; [reflexivity|].
  rewrite length_drop, length_insert. lia.
Qed.

End MarkerDamage.

Lemma DecodeBytes_bad_marker_witness :
  exists h',
    DecodeBytes rt_amd64 (mkSlice 0 0 19 19)
      [[x01; x02; x03; x04; x05; x06; x07; x08; x10;
        x09; x00; x00; x00; x00; x00; x00; x00; xf8; x2a]]
    = Done (inl (ErrInvalidMarker
                   [x01; x02; x03; x04; x05; x06; x07; x08; x10])) h'.
Proof.
  destruct (EncodeBytes rt_amd64 nil_slice (mkSlice 0 0 9 9)
              [[x01; x02; x03; x04; x05; x06; x07; x08; x09]])
    as [r h1| |] eqn:E; try (vm_compute in E; discriminate).
  apply (DecodeBytes_bad_marker rt_amd64 (mkSlice 0 0 9 9)
           [[x01; x02; x03; x04; x05; x06; x07; x08; x09]] r h1
           [[x01; x02; x03; x04; x05; x06; x07; x08; x10;
             x09; x00; x00; x00; x00; x00; x00; x00; xf8; x2a]]
           (mkSlice 0 0 19 19) 0 x10 [x2a]).
  - unfold wf. simpl. lia.
  - exact E.
  - unfold wf. simpl. lia.
  - simpl. lia.
  - vm_compute. lia.
  - vm_compute in E. inversion E. reflexivity.
Defined.
